(** * Split-factor flotation circuits: a shallow embedding of
      [splitfactor/core/equipos.py], [splitfactor/core/io.py] and
      [splitfactor/core/simulador.py].

    Conventions of the embedding.

    - A finite Python [float] is modelled by the rational it denotes, a
      canonical rational [Qc].  The base model computes with them exactly;
      it carries the properties that do not depend on rounding: what is
      read, written and raised, what is compared, what is counted.  Where a
      property is about the digits the code computes, module [Doble] gives
      the arithmetic of binary64: every operation is the exact one followed
      by rounding to the nearest double.  Infinities and NaN are outside
      both.  Division is the only partial operation: it raises
      [ZeroDivisionError] on a zero divisor, as Python does.
    - A [Dict[int, Flujo]] is a [gmap Z Flujo].  A [Flujo] held in a local
      variable of the source is a reference into that dictionary, so every
      attribute read and write goes through the store and aliasing between
      flow ids is preserved.
    - Methods that mutate or may raise run in a state-and-exception monad
      whose failures keep the state reached so far, as a Python exception
      leaves the mutations made before it.
    - A [Dict[str, Equipo]] keeps its insertion order, which
      [ejecutar_iteracion] depends on: it is an association list.
    - The order in which Python iterates a [set], the generator behind
      [numpy.random.uniform] and its draws are parameters of the model.
      [pandas.DataFrame] is modelled as far as [simular_montecarlo] uses it.
      The progress bar of [simular_montecarlo] is left out. *)

From Stdlib Require Import QArith Qcanon Qround Qabs Qpower Lqa.
From Stdlib Require Qcabs.
From stdpp Require Import gmap strings list fin_maps pretty.

#[local] Set Warnings "-clear-no-such-hyp".

Local Open Scope Qc_scope.

(** ** Numbers *)

Definition Qc_de_Z (n : Z) : Qc := Q2Qc (inject_Z n).
Definition Qc_frac (n : Z) (d : positive) : Qc := Q2Qc (n # d).

Definition cien : Qc := Qc_de_Z 100.

(** ** Exceptions and the state-and-exception monad *)

Inductive clave :=
  | ClaveInt (k : Z)
  | ClaveStr (k : string).

Inductive excepcion :=
  | KeyError (k : clave)
  | IndexError
  | NotImplementedError
  | ZeroDivisionError.

Inductive res (S A : Type) :=
  | Ok (a : A) (s : S)
  | Raise (e : excepcion) (s : S).
Arguments Ok {S A} a s.
Arguments Raise {S A} e s.

Definition M (S A : Type) : Type := S → res S A.

Definition ret {S A} (a : A) : M S A := λ s, Ok a s.

Definition bind {S A B} (c : M S A) (k : A → M S B) : M S B :=
  λ s, match c s with
       | Ok a s' => k a s'
       | Raise e s' => Raise e s'
       end.

Definition raise {S A} (e : excepcion) : M S A := λ s, Raise e s.

Notation "'let*' x ':=' c 'in' k" := (bind c (λ x, k))
  (at level 10, x name, c at level 100, k at level 200,
   format "'[v' 'let*'  x  ':='  c  'in' '/' k ']'").
Notation "c '>>' k" := (bind c (λ _, k))
  (at level 100, k at level 200, right associativity,
   format "'[v' c  '>>' '/' k ']'").

Definition estado_final {S A} (r : res S A) : S :=
  match r with Ok _ s => s | Raise _ s => s end.

(** [for x in l: cuerpo x] *)
Fixpoint para_cada {S A} (l : list A) (cuerpo : A → M S unit) : M S unit :=
  match l with
  | [] => ret tt
  | x :: l' => cuerpo x >> para_cada l' cuerpo
  end.

(** [l[i]] for a non-negative literal index [i]. *)
Definition indice {S A} (l : list A) (i : nat) : M S A :=
  match l !! i with
  | Some x => ret x
  | None => raise IndexError
  end.

(** [a / b] on floats.  (Division by the literal [100] cannot raise and is
    written with the total [/].) *)
Definition dividir {S} (a b : Qc) : M S Qc :=
  if decide (b = 0) then raise ZeroDivisionError else ret (a / b).

(** ** equipos.py: Flujo *)

Record Flujo := mkFlujo {
  f_id : Z;
  f_nombre : string;
  masa : Qc;
  ley : Qc;
  contenido_fino : Qc
}.

(** [Flujo(id=k)]: the dataclass defaults. *)
Definition Flujo_nuevo (k : Z) : Flujo := mkFlujo k "" 0 0 0.

Definition con_masa (v : Qc) (f : Flujo) : Flujo :=
  mkFlujo (f_id f) (f_nombre f) v (ley f) (contenido_fino f).
Definition con_ley (v : Qc) (f : Flujo) : Flujo :=
  mkFlujo (f_id f) (f_nombre f) (masa f) v (contenido_fino f).
Definition con_contenido_fino (v : Qc) (f : Flujo) : Flujo :=
  mkFlujo (f_id f) (f_nombre f) (masa f) (ley f) v.

(** The flow dictionary.  A reference to a [Flujo] object is its key. *)
Abbreviation Flujos := (gmap Z Flujo).

(** [flujos[k]]: yields the reference, or raises [KeyError]. *)
Definition obtener (k : Z) : M Flujos Z :=
  λ fs, match fs !! k with
        | Some _ => Ok k fs
        | None => Raise (KeyError (ClaveInt k)) fs
        end.

(** [obj.campo], read through the reference [r]. *)
Definition attr (r : Z) (campo : Flujo → Qc) : M Flujos Qc :=
  λ fs, match fs !! r with
        | Some f => Ok (campo f) fs
        | None => Raise (KeyError (ClaveInt r)) fs
        end.

(** [obj.campo = v], written through the reference [r]. *)
Definition asignar (r : Z) (con : Qc → Flujo → Flujo) (v : Qc) : M Flujos unit :=
  λ fs, Ok tt (alter (con v) r fs).

Definition actualizar_contenido_fino (self : Z) : M Flujos unit :=
  let* m := attr self masa in
  let* l := attr self ley in
  asignar self con_contenido_fino (m * l / cien).

Definition actualizar_ley (self : Z) : M Flujos unit :=
  let* m := attr self masa in
  if bool_decide (0 < m) then
    let* c := attr self contenido_fino in
    let* m' := attr self masa in
    let* q := dividir c m' in
    asignar self con_ley (q * cien)
  else
    asignar self con_ley 0.

(** ** equipos.py: Equipo, Celda, Suma *)

Inductive clase := ClaseEquipo | ClaseCelda | ClaseSuma.

Record Equipo := mkEquipo {
  cls : clase;
  nombre : string;
  flujos_entrada : list Z;
  flujos_salida : list Z;
  split_factor : list Qc
}.

Definition con_split_factor (sf : list Qc) (e : Equipo) : Equipo :=
  mkEquipo (cls e) (nombre e) (flujos_entrada e) (flujos_salida e) sf.

Definition Celda_calcular (self : Equipo) : M Flujos unit :=
  let* id_e := indice (flujos_entrada self) 0 in
  let* entrada := obtener id_e in
  actualizar_contenido_fino entrada >>
  let* id_c := indice (flujos_salida self) 0 in
  let* concentrado := obtener id_c in
  let* id_r := indice (flujos_salida self) 1 in
  let* relave := obtener id_r in
  let* sp_masa := indice (split_factor self) 0 in
  let* sp_cuf := indice (split_factor self) 1 in
  let* m := attr entrada masa in
  asignar concentrado con_masa (m * sp_masa) >>
  let* m := attr entrada masa in
  asignar relave con_masa (m * (1 - sp_masa)) >>
  let* c := attr entrada contenido_fino in
  asignar concentrado con_contenido_fino (c * sp_cuf) >>
  let* c := attr entrada contenido_fino in
  asignar relave con_contenido_fino (c * (1 - sp_cuf)) >>
  actualizar_ley concentrado >>
  actualizar_ley relave.

Definition Suma_calcular (self : Equipo) : M Flujos unit :=
  let* id_s := indice (flujos_salida self) 0 in
  let* salida := obtener id_s in
  asignar salida con_masa 0 >>
  asignar salida con_contenido_fino 0 >>
  para_cada (flujos_entrada self) (λ id_entrada,
    let* entrada := obtener id_entrada in
    let* a := attr salida masa in
    let* b := attr entrada masa in
    asignar salida con_masa (a + b) >>
    let* a := attr salida contenido_fino in
    let* b := attr entrada contenido_fino in
    asignar salida con_contenido_fino (a + b)) >>
  actualizar_ley salida.

(** Dynamic dispatch of [equipo.calcular(flujos)]. *)
Definition calcular (self : Equipo) : M Flujos unit :=
  match cls self with
  | ClaseEquipo => raise NotImplementedError
  | ClaseCelda => Celda_calcular self
  | ClaseSuma => Suma_calcular self
  end.

(** [copiar_estado]: a deep copy.  Values are immutable here, so the copy is
    the pair itself; no reference is shared with the original. *)
Definition copiar_estado (equipos : list (string * Equipo)) (flujos : Flujos)
  : list (string * Equipo) * Flujos := (equipos, flujos).

(** ** Python dictionaries with string keys, in insertion order *)

Abbreviation Equipos := (list (string * Equipo)).

(** [k in d] and [d[k]] (as an option). *)
Fixpoint dict_get {V} (k : string) (d : list (string * V)) : option V :=
  match d with
  | [] => None
  | (k', v) :: d' => if decide (k' = k) then Some v else dict_get k d'
  end.

(** In-place mutation of the object stored under [k]. *)
Definition dict_alter {V} (g : V → V) (k : string) (d : list (string * V))
  : list (string * V) :=
  map (λ kv, if decide (kv.1 = k) then (kv.1, g kv.2) else kv) d.

(** [d[k]] on a [gmap] with string keys. *)
Definition buscar {S V} (d : gmap string V) (k : string) : M S V :=
  match d !! k with
  | Some v => ret v
  | None => raise (KeyError (ClaveStr k))
  end.

(** ** io.py: identificar_flujos_globales *)

Definition union_de (sel : Equipo → list Z) (equipos : Equipos) : gset Z :=
  foldl (λ acc kv, acc ∪ list_to_set (sel kv.2)) ∅ equipos.

Definition identificar_flujos_globales
    (equipos : Equipos) (flujos_relave : option (gset Z))
  : gset Z * gset Z * gset Z * gset Z :=
  let flujos_relave := default ∅ flujos_relave in
  let entradas := union_de flujos_entrada equipos in
  let salidas := union_de flujos_salida equipos in
  let flujos_entrada := entradas ∖ salidas in
  let flujos_salida := salidas ∖ entradas in
  let flujos_salida_conc := flujos_salida ∖ flujos_relave in
  let flujos_internos := entradas ∩ salidas in
  (flujos_entrada, flujos_salida, flujos_salida_conc, flujos_internos).

(** ** simulador.py: Simulador *)

(** The object state.  [traza] is a ghost field: the keys of the nodes whose
    [calcular] has been invoked, oldest first.  No method reads it. *)
Record Simulador := mkSimulador {
  equipos : Equipos;
  flujos : Flujos;
  flujos_relave : gset Z;
  iteraciones_convergencia : Z;
  f_entrada : gset Z;
  f_salida : gset Z;
  f_salida_conc : gset Z;
  f_internos : gset Z;
  traza : list string
}.

Definition con_flujos (fs : Flujos) (sim : Simulador) : Simulador :=
  mkSimulador (equipos sim) fs (flujos_relave sim)
    (iteraciones_convergencia sim) (f_entrada sim) (f_salida sim)
    (f_salida_conc sim) (f_internos sim) (traza sim).

Definition con_traza (t : list string) (sim : Simulador) : Simulador :=
  mkSimulador (equipos sim) (flujos sim) (flujos_relave sim)
    (iteraciones_convergencia sim) (f_entrada sim) (f_salida sim)
    (f_salida_conc sim) (f_internos sim) t.

(** Run a computation on [self.flujos]. *)
Definition en_flujos {A} (c : M Flujos A) : M Simulador A :=
  λ sim, match c (flujos sim) with
         | Ok a fs => Ok a (con_flujos fs sim)
         | Raise e fs => Raise e (con_flujos fs sim)
         end.

Definition registrar (k : string) : M Simulador unit :=
  λ sim, Ok tt (con_traza (traza sim ++ [k]) sim).

Definition iteraciones_por_defecto : Z := 100.

(** [Simulador.__init__]; [None] stands for an omitted argument. *)
Definition Simulador_init (equipos : Equipos) (flujos : Flujos)
    (flujos_relave : option (gset Z)) (iteraciones_convergencia : option Z)
  : Simulador :=
  let '(f_entrada, f_salida, f_salida_conc, f_internos) :=
    identificar_flujos_globales equipos flujos_relave in
  mkSimulador equipos flujos (default ∅ flujos_relave)
    (default iteraciones_por_defecto iteraciones_convergencia)
    f_entrada f_salida f_salida_conc f_internos [].

Definition establecer_alimentacion (id_flujo : Z) (masa' ley' : Qc)
  : M Simulador unit :=
  λ self,
    if decide (is_Some (flujos self !! id_flujo)) then
      en_flujos (
        let* r := obtener id_flujo in
        asignar r con_masa masa' >>
        let* r := obtener id_flujo in
        asignar r con_ley ley' >>
        let* r := obtener id_flujo in
        actualizar_contenido_fino r) self
    else ret tt self.

Definition ejecutar_iteracion : M Simulador unit :=
  λ self,
    para_cada (equipos self) (λ kv,
      registrar kv.1 >> en_flujos (calcular kv.2)) self.

(** [range(n)] *)
Definition rango (n : Z) : list nat := seq 0 (Z.to_nat n).

(** [sum(flujos[i].campo for i in ids)], accumulating from [0]. *)
Fixpoint sumar_desde (acc : Qc) (ids : list Z) (campo : Flujo → Qc)
  : M Flujos Qc :=
  match ids with
  | [] => ret acc
  | i :: ids' =>
      let* r := obtener i in
      let* v := attr r campo in
      sumar_desde (acc + v) ids' campo
  end.

Definition sumar (ids : list Z) (campo : Flujo → Qc) : M Flujos Qc :=
  sumar_desde 0 ids campo.

Record Resultado := mkResultado {
  recuperacion : Qc;
  mass_pull : Qc;
  ley_concentrado : Qc;
  razon_enriquecimiento : Qc;
  error_masa : Qc;
  error_cuf : Qc;
  res_flujos : gmap Z (Qc * Qc)   (* id -> (masa, ley) *)
}.

Section Simulacion.

(** The iteration order of a Python [set] of integers is fixed by the
    interpreter's hash table; it is a parameter of the model. *)
Variable orden : gset Z → list Z.

Definition _calcular_resultados : M Simulador Resultado :=
  λ self, en_flujos (
    let* id_alim := indice (orden (f_entrada self)) 0 in
    let* alim := obtener id_alim in
    let* masa_conc := sumar (orden (f_salida_conc self)) masa in
    let* cuf_conc := sumar (orden (f_salida_conc self)) contenido_fino in
    let* alim_cf := attr alim contenido_fino in
    let* recuperacion :=
      if bool_decide (0 < alim_cf) then
        let* d := attr alim contenido_fino in
        let* q := dividir cuf_conc d in ret (q * cien)
      else ret 0 in
    let* alim_masa := attr alim masa in
    let* mass_pull :=
      if bool_decide (0 < alim_masa) then
        let* d := attr alim masa in
        let* q := dividir masa_conc d in ret (q * cien)
      else ret 0 in
    let* ley_conc :=
      if bool_decide (0 < masa_conc) then
        let* q := dividir cuf_conc masa_conc in ret (q * cien)
      else ret 0 in
    let* razon_enriquecimiento :=
      if bool_decide (0 < mass_pull) then dividir recuperacion mass_pull
      else ret 0 in
    let* masa_salida := sumar (orden (f_salida self)) masa in
    let* cuf_salida := sumar (orden (f_salida self)) contenido_fino in
    let* alim_masa := attr alim masa in
    let* alim_cf := attr alim contenido_fino in
    λ fs, Ok (mkResultado recuperacion mass_pull ley_conc
                razon_enriquecimiento
                (alim_masa - masa_salida) (alim_cf - cuf_salida)
                ((λ v, (masa v, ley v)) <$> fs)) fs) self.

Definition simular : M Simulador Resultado :=
  λ self,
    (para_cada (rango (iteraciones_convergencia self))
       (λ _, ejecutar_iteracion) >>
     _calcular_resultados) self.

End Simulacion.

(** ** simulador.py: ConfiguracionMC and simular_montecarlo *)

Record ConfiguracionMC := mkConfiguracionMC {
  equipos_objetivo : list string;
  rangos : gmap string (gmap string (Qc * Qc));
  n_iteraciones : Z;
  ley_min : option Qc;
  ley_max : option Qc
}.

(** A row of the result table: a Python dict from column name to number. *)
Abbreviation Fila := (gmap string Qc).

(** The part of [pandas.DataFrame] the method relies on.  Built from a list
    of dict rows, the frame has the union of their keys as columns; selecting
    a column that is not there raises [KeyError]; a cell missing from a row
    is NaN, which fails every comparison; a boolean mask keeps the rows it
    marks and all the columns. *)
Record DataFrame := mkDataFrame {
  columnas : gset string;
  filas : list Fila
}.

Definition DataFrame_de (registros : list Fila) : DataFrame :=
  mkDataFrame (⋃ (dom <$> registros)) registros.

Definition columna {S} (df : DataFrame) (c : string) : M S (list (option Qc)) :=
  if decide (c ∈ columnas df) then ret ((λ fila : Fila, fila !! c) <$> filas df)
  else raise (KeyError (ClaveStr c)).

Definition mascara (p : Qc → bool) (col : list (option Qc)) : list bool :=
  (λ v, from_option p false v) <$> col.

Definition seleccionar (df : DataFrame) (m : list bool) : DataFrame :=
  mkDataFrame (columnas df)
    (omap (λ fb : Fila * bool, if fb.2 then Some fb.1 else None)
          (zip (filas df) m)).

Definition treinta_y_seis : Qc := Qc_de_Z 36.

(** [all(v['ley'] < 36 for v in resultado['flujos'].values())] *)
Definition leyes_validas (resultado : Resultado) : bool :=
  forallb (λ kv : Z * (Qc * Qc), bool_decide (kv.2.2 < treinta_y_seis))
          (map_to_list (res_flujos resultado)).

Definition columnas_flujos (fl : gmap Z (Qc * Qc)) (fila : Fila) : Fila :=
  foldl (λ (acc : Fila) (kv : Z * (Qc * Qc)),
           <["flujo_" +:+ pretty kv.1 +:+ "_ley" := kv.2.2]>
             (<["flujo_" +:+ pretty kv.1 +:+ "_masa" := kv.2.1]> acc))
        fila (map_to_list fl).

Definition hacer_fila (i : nat) (resultado : Resultado) (split_info : Fila)
  : Fila :=
  columnas_flujos (res_flujos resultado)
    (split_info ∪
     <["razon_enriquecimiento" := razon_enriquecimiento resultado]>
     (<["ley_concentrado" := ley_concentrado resultado]>
     (<["mass_pull" := mass_pull resultado]>
     (<["recuperacion" := recuperacion resultado]>
     (<["iteracion" := Qc_de_Z (Z.of_nat i)]> ∅))))).

(** Run a computation on a local object; an exception propagates. *)
Definition en_local {S S' A} (c : M S' A) (s' : S') : M S S' :=
  λ s, match c s' with
       | Ok _ s'' => Ok s'' s
       | Raise e _ => Raise e s
       end.

(** The feed loop at the head of each trial, on the copied flows. *)
Definition alimentar (alimentacion : list (Z * gmap string Qc))
  : M Flujos unit :=
  para_cada alimentacion (λ kv flujos_mc,
    if decide (is_Some (flujos_mc !! kv.1)) then
      (let* v := buscar kv.2 "masa" in
       let* r := obtener kv.1 in
       asignar r con_masa v >>
       let* v := buscar kv.2 "ley" in
       let* r := obtener kv.1 in
       asignar r con_ley v >>
       let* r := obtener kv.1 in
       actualizar_contenido_fino r) flujos_mc
    else ret tt flujos_mc).

Section MonteCarlo.

Variable orden : gset Z → list Z.

(** [numpy.random]: the state of the global generator and
    [uniform(low, high)], which draws from it.  Parameters of the model. *)
Variable Rng : Type.
Variable uniform : Qc → Qc → Rng → Qc * Rng.

(** The global generator and the local list [resultados]. *)
Record EstadoMC := mkEstadoMC {
  rng : Rng;
  resultados : list Fila
}.

Definition sortear_uniforme (r : Qc * Qc) : M EstadoMC Qc :=
  λ st, let '(v, g) := uniform r.1 r.2 (rng st) in
        Ok v (mkEstadoMC g (resultados st)).

Definition anexar (fila : Fila) : M EstadoMC unit :=
  λ st, Ok tt (mkEstadoMC (rng st) (resultados st ++ [fila])).

(** The sampling loop over [config.equipos_objetivo]. *)
Fixpoint sortear (config : ConfiguracionMC) (objetivo : list string)
    (equipos_mc : Equipos) (split_info : Fila)
  : M EstadoMC (Equipos * Fila) :=
  match objetivo with
  | [] => ret (equipos_mc, split_info)
  | nombre_eq :: resto =>
      if decide (is_Some (dict_get nombre_eq equipos_mc)) then
        let* rangos := buscar (rangos config) nombre_eq in
        let* r_masa := buscar rangos "masa" in
        let* sp_masa := sortear_uniforme r_masa in
        let* r_cuf := buscar rangos "cuf" in
        let* sp_cuf := sortear_uniforme r_cuf in
        sortear config resto
          (dict_alter (con_split_factor [sp_masa; sp_cuf]) nombre_eq equipos_mc)
          (<[nombre_eq +:+ "_sp_cuf" := sp_cuf]>
             (<[nombre_eq +:+ "_sp_masa" := sp_masa]> split_info))
      else sortear config resto equipos_mc split_info
  end.

(** Setup of trial [i]: copy, feed, sampling, temporary simulator. *)
Definition preparar (self : Simulador) (config : ConfiguracionMC)
    (alimentacion : list (Z * gmap string Qc))
  : M EstadoMC (Simulador * Fila) :=
  let '(equipos_mc, flujos_mc) :=
    copiar_estado (equipos self) (flujos self) in
  let* flujos_mc := en_local (alimentar alimentacion) flujos_mc in
  let* es := sortear config (equipos_objetivo config) equipos_mc ∅ in
  ret (Simulador_init es.1 flujos_mc (Some (flujos_relave self))
         (Some (iteraciones_convergencia self)), es.2).

(** The body of the trial loop.  The [try] block catches every exception of
    [sim_temp.simular()]; [continue] ends the body without a row. *)
Definition ensayo (self : Simulador) (config : ConfiguracionMC)
    (alimentacion : list (Z * gmap string Qc)) (i : nat)
  : M EstadoMC unit :=
  let* ts := preparar self config alimentacion in
  match simular orden ts.1 with
  | Ok resultado _ =>
      if negb (leyes_validas resultado) then ret tt
      else anexar (hacer_fila i resultado ts.2)
  | Raise _ _ => ret tt
  end.

Definition simular_montecarlo (self : Simulador) (config : ConfiguracionMC)
    (alimentacion : list (Z * gmap string Qc))
  : M EstadoMC DataFrame :=
  (λ st, Ok tt (mkEstadoMC (rng st) [])) >>
  para_cada (rango (n_iteraciones config)) (ensayo self config alimentacion) >>
  let* df := (λ st, Ok (DataFrame_de (resultados st)) st) in
  let* df :=
    match ley_min config with
    | Some lo =>
        let* col := columna df "ley_concentrado" in
        ret (seleccionar df (mascara (λ v, bool_decide (lo ≤ v)) col))
    | None => ret df
    end in
  let* df :=
    match ley_max config with
    | Some hi =>
        let* col := columna df "ley_concentrado" in
        ret (seleccionar df (mascara (λ v, bool_decide (v ≤ hi)) col))
    | None => ret df
    end in
  ret df.

End MonteCarlo.

(** ** Auxiliary definitions used by the statements *)

(** The flow ids a node's [calcular] assigns mass, fine content and grade to. *)
Definition escritos (e : Equipo) : list Z :=
  match cls e with
  | ClaseEquipo => []
  | ClaseCelda => take 2 (flujos_salida e)
  | ClaseSuma => take 1 (flujos_salida e)
  end.

(** A flow after [actualizar_contenido_fino]. *)
Definition reescrito (f : Flujo) : Flujo :=
  con_contenido_fino (masa f * ley f / cien) f.

(** The three fields of a flow that [calcular] assigns. *)
Inductive campo := CMasa | CLey | CFino.

Definition leer (c : campo) : Flujo → Qc :=
  match c with CMasa => masa | CLey => ley | CFino => contenido_fino end.

Definition con_de (c : campo) : Qc → Flujo → Flujo :=
  match c with
  | CMasa => con_masa | CLey => con_ley | CFino => con_contenido_fino
  end.

Global Instance campo_eq_dec : EqDecision campo.
Proof. solve_decision. Defined.

Global Instance campo_countable : Countable campo.
Proof.
  refine (inj_countable'
            (λ c, match c with CMasa => 0 | CLey => 1 | CFino => 2 end)%nat
            (λ n, match n with 0 => CMasa | 1 => CLey | _ => CFino end)%nat _).
  by intros [].
Defined.

(** Two states of a dictionary entry with the same identity. *)
Definition misma_forma (o o' : option Flujo) : Prop :=
  match o, o' with
  | None, None => True
  | Some f, Some g => f_id f = f_id g ∧ f_nombre f = f_nombre g
  | _, _ => False
  end.

(** [marco W E]: the keys, identifiers and names are kept, and outside the
    ids [W] a flow is untouched, except that the flows in [E] may have had
    their fine content re-derived. *)
Definition marco (W E : list Z) (fs fs' : Flujos) : Prop :=
  ∀ k, misma_forma (fs !! k) (fs' !! k) ∧
       (k ∉ W →
        fs' !! k = fs !! k ∨ (k ∈ E ∧ fs' !! k = reescrito <$> fs !! k)).

(** The flow whose fine content [calcular] re-derives: the input of a cell. *)
Definition entrada_de (e : Equipo) : list Z :=
  match cls e with
  | ClaseCelda => take 1 (flujos_entrada e)
  | _ => []
  end.

(** The grade a flow gets from [actualizar_ley]. *)
Definition ley_derivada (f : Flujo) : Qc :=
  if bool_decide (0 < masa f) then contenido_fino f / masa f * cien else 0.

(** [respeta R c]: every run of [c], normal or exceptional, takes a store to
    an [R]-related one. *)
Definition respeta {A} (R : relation Flujos) (c : M Flujos A) : Prop :=
  ∀ fs, R fs (estado_final (c fs)).


(** ** Example data *)

(** A single cell fed by flow 1, with concentrate 2 and tailings 3. *)
Definition celda_ej : Equipo :=
  mkEquipo ClaseCelda "Celda" [1%Z] [2%Z; 3%Z] [Qc_frac 1 10; Qc_frac 3 4].

(** Its flows as the loaders create them, [Flujo(id=k)]. *)
Definition flujos_ej : Flujos :=
  <[1%Z := Flujo_nuevo 1]>
    (<[2%Z := Flujo_nuevo 2]> (<[3%Z := Flujo_nuevo 3]> ∅)).

(** The same flows with the feed built as [Flujo(id=1, masa=100, ley=1.5)]:
    its fine content keeps the default [0.0]. *)
Definition flujos_sin_derivar : Flujos :=
  <[1%Z := mkFlujo 1 "" cien (Qc_frac 3 2) 0]> flujos_ej.

Definition sim_ej : Simulador :=
  Simulador_init [("Celda", celda_ej)] flujos_ej (Some {[3%Z]}) None.

(** [sim_ej] after [establecer_alimentacion(1, masa=100, ley=1.5)]. *)
Definition sim_alimentado : Simulador :=
  estado_final (establecer_alimentacion 1 cien (Qc_frac 3 2) sim_ej).

(** ** Structural well-formedness of a circuit

    These conditions mention the topology, the arity of the nodes and the
    keys of the flow dictionary, never the values the flows hold. *)

Definition presente (D : gset Z) (o : option Z) : Prop :=
  match o with Some k => k ∈ D | None => False end.

Definition nodo_bien_formado (D : gset Z) (e : Equipo) : Prop :=
  match cls e with
  | ClaseEquipo => False
  | ClaseCelda =>
      presente D (flujos_entrada e !! 0%nat) ∧
      presente D (flujos_salida e !! 0%nat) ∧
      presente D (flujos_salida e !! 1%nat) ∧
      (2 ≤ length (split_factor e))%nat
  | ClaseSuma =>
      presente D (flujos_salida e !! 0%nat) ∧
      Forall (λ k, k ∈ D) (flujos_entrada e)
  end.

Definition circuito_bien_formado
    (orden : gset Z → list Z) (self : Simulador) : Prop :=
  let D := dom (flujos self) in
  Forall (λ kv : string * Equipo, nodo_bien_formado D kv.2) (equipos self) ∧
  presente D (orden (f_entrada self) !! 0%nat) ∧
  Forall (λ k, k ∈ D) (orden (f_salida_conc self)) ∧
  Forall (λ k, k ∈ D) (orden (f_salida self)).

Global Instance presente_dec D o : Decision (presente D o).
Proof. destruct o; cbn; apply _. Defined.

Global Instance nodo_bien_formado_dec D e : Decision (nodo_bien_formado D e).
Proof. unfold nodo_bien_formado. destruct (cls e); apply _. Defined.

Global Instance circuito_bien_formado_dec orden self :
  Decision (circuito_bien_formado orden self).
Proof. unfold circuito_bien_formado. apply _. Defined.

(** [total_en D c]: on every store with keys [D], [c] returns normally and
    keeps the keys. *)
Definition total_en {A} (D : gset Z) (c : M Flujos A) : Prop :=
  ∀ fs : Flujos, dom fs = D → ∃ a fs', c fs = Ok a fs' ∧ dom fs' = D.

(** The key of every node, in the order of the dictionary. *)
Definition claves (d : Equipos) : list string := d.*1.

(** The simulator [s'] has the circuit of [s]: only flow values and the
    trace may differ. *)
Definition mismo_circuito (s s' : Simulador) : Prop :=
  equipos s' = equipos s ∧ flujos_relave s' = flujos_relave s ∧
  iteraciones_convergencia s' = iteraciones_convergencia s ∧
  f_entrada s' = f_entrada s ∧ f_salida s' = f_salida s ∧
  f_salida_conc s' = f_salida_conc s ∧ f_internos s' = f_internos s ∧
  dom (flujos s') = dom (flujos s).

(** ** Comparing two runs of the same computation *)

(** Every field of every flow in [ks]. *)
Definition todos (ks : list Z) : gset (Z * campo) :=
  list_to_set (ks ≫= λ k, [(k, CMasa); (k, CLey); (k, CFino)]).

(** [concuerdan X fs gs]: the stores have the same keys, identifiers and
    names, and the same value in every field outside [X]. *)
Definition concuerdan (X : gset (Z * campo)) (fs gs : Flujos) : Prop :=
  ∀ k, match fs !! k, gs !! k with
       | None, None => True
       | Some f, Some g =>
           f_id f = f_id g ∧ f_nombre f = f_nombre g ∧
           ∀ c, (k, c) ∉ X → leer c f = leer c g
       | _, _ => False
       end.

(** [simula X Y c]: from stores that agree outside [X], the two runs of [c]
    either both return, with the same value and stores that agree outside
    [Y], or both raise the same exception. *)
Definition simula {A : Type} (X Y : gset (Z * campo)) (c : M Flujos A) : Prop :=
  ∀ fs gs, concuerdan X fs gs →
    match c fs, c gs with
    | Ok a fs', Ok b gs' => a = b ∧ concuerdan Y fs' gs'
    | Raise e1 _, Raise e2 _ => e1 = e2
    | _, _ => False
    end.

(** One pass over the nodes, on the flow dictionary alone. *)
Definition pasada (l : Equipos) : M Flujos unit :=
  para_cada l (λ kv, calcular kv.2).

(** The flows some node of the circuit writes, and the flows that feed a
    cell. *)
Definition producidos (l : Equipos) : list Z := l.*2 ≫= escritos.
Definition entradas_celdas (l : Equipos) : list Z := l.*2 ≫= entrada_de.

(** No flow is an output of a node and an input of that node or of a node
    computed before it. *)
Fixpoint aciclico (l : Equipos) : Prop :=
  match l with
  | [] => True
  | kv :: l' =>
      Forall (λ k, (k ∉ flujos_salida kv.2) ∧
                   Forall (λ kv' : string * Equipo, k ∉ flujos_salida kv'.2) l')
             (flujos_entrada kv.2) ∧
      aciclico l'
  end.

Global Instance aciclico_dec l : Decision (aciclico l).
Proof. induction l; cbn; apply _. Defined.

(** Every flow that feeds a cell and that no node writes holds the fine
    content derived from its mass and grade, as [establecer_alimentacion]
    and [Flujo(id=k)] leave it. *)
Definition alimentacion_derivada (l : Equipos) (fs : Flujos) : Prop :=
  Forall (λ k, k ∈ producidos l ∨
               match fs !! k with
               | Some f => contenido_fino f = masa f * ley f / cien
               | None => True
               end)
         (entradas_celdas l).

Global Instance alimentacion_derivada_dec l fs :
  Decision (alimentacion_derivada l fs).
Proof.
  unfold alimentacion_derivada. apply Forall_dec. intros k.
  apply or_dec; [apply _|]. destruct (fs !! k); apply _.
Defined.

(** What the caller of a method sees: the value returned or the exception. *)
Definition resultado_de {S A} (r : res S A) : excepcion + A :=
  match r with Ok a _ => inr a | Raise e _ => inl e end.

(** ** Example data for Monte Carlo runs *)

(** A generator that always returns the lower bound. *)
Definition uniforme_ej (lo hi : Qc) (g : unit) : Qc * unit := (lo, g).

(** [{1: {'masa': 100, 'ley': 1.5}}] and [{1: {'masa': 100, 'ley': 10}}] *)
Definition alimentacion_ej : list (Z * gmap string Qc) :=
  [(1%Z, <["masa" := cien]> (<["ley" := Qc_frac 3 2]> ∅))].
Definition alimentacion_rica : list (Z * gmap string Qc) :=
  [(1%Z, <["masa" := cien]> (<["ley" := Qc_de_Z 10]> ∅))].

(** A configuration whose only target is not a node of the circuit and has
    no range either. *)
Definition config_fantasma : ConfiguracionMC :=
  mkConfiguracionMC ["Fantasma"] ∅ 2 None None.

(** No target, three trials, and a lower bound on the concentrate grade. *)
Definition config_filtro : ConfiguracionMC :=
  mkConfiguracionMC [] ∅ 3 (Some (Qc_de_Z 10)) None.

(** One target with its ranges, two trials, no filter. *)
Definition config_celda : ConfiguracionMC :=
  mkConfiguracionMC ["Celda"]
    {[ "Celda" := <["masa" := (Qc_frac 1 50, Qc_frac 7 10)]>
                    (<["cuf" := (Qc_frac 1 50, Qc_frac 9 10)]> ∅) ]}
    2 None None.

(** The configuration without the targets that are not nodes of [self]. *)
Definition sin_ausentes (self : Simulador) (config : ConfiguracionMC)
  : ConfiguracionMC :=
  mkConfiguracionMC
    (filter (λ n, is_Some (dict_get n (equipos self))) (equipos_objetivo config))
    (rangos config) (n_iteraciones config) (ley_min config) (ley_max config).

(** A row that a trial [i < n] can add: built from the result of the
    trial's temporary simulator, all of whose grades are below the ceiling. *)
Definition fila_valida (orden : gset Z → list Z) (Rng : Type)
    (uniform : Qc → Qc → Rng → Qc * Rng) (self : Simulador)
    (config : ConfiguracionMC) (alimentacion : list (Z * gmap string Qc))
    (n : nat) (fila : Fila) : Prop :=
  ∃ (i : nat) (st st1 : EstadoMC Rng) ts r s',
    (i < n)%nat ∧
    preparar Rng uniform self config alimentacion st = Ok ts st1 ∧
    simular orden ts.1 = Ok r s' ∧
    (∀ k v, res_flujos r !! k = Some v → v.2 < treinta_y_seis) ∧
    fila = hacer_fila i r ts.2.

(** A mixer of flows 1 and 2 into flow 3, with inputs of mass 60 and 40 and
    fine content 3 and 1. *)
Definition mezclador_ej : Equipo := mkEquipo ClaseSuma "Suma" [1%Z; 2%Z] [3%Z] [].

Definition flujos_mezcla : Flujos :=
  <[1%Z := mkFlujo 1 "" (Qc_de_Z 60) (Qc_de_Z 5) (Qc_de_Z 3)]>
    (<[2%Z := mkFlujo 2 "" (Qc_de_Z 40) (Qc_frac 5 2) (Qc_de_Z 1)]>
       (<[3%Z := Flujo_nuevo 3]> ∅)).

(** ** Definitions for the further properties *)

(** The sum of a field over the flows [ids] of a store. *)
Definition total (campo : Flujo → Qc) (fs : Flujos) (ids : list Z) : Qc :=
  foldr (λ k acc, from_option campo 0 (fs !! k) + acc) 0 ids.

(** [conserva s s']: [s'] has the nodes, the parameters and the
    classification of [s], and the same flows by key, identifier and name. *)
Definition conserva (s s' : Simulador) : Prop :=
  equipos s' = equipos s ∧ flujos_relave s' = flujos_relave s ∧
  iteraciones_convergencia s' = iteraciones_convergencia s ∧
  f_entrada s' = f_entrada s ∧ f_salida s' = f_salida s ∧
  f_salida_conc s' = f_salida_conc s ∧ f_internos s' = f_internos s ∧
  ∀ k, misma_forma (flujos s !! k) (flujos s' !! k).



(** The targets and ranges of [config_celda], with both grade bounds set. *)
Definition config_acotada : ConfiguracionMC :=
  mkConfiguracionMC (equipos_objetivo config_celda) (rangos config_celda) 2
    (Some (Qc_de_Z 1)) (Some treinta_y_seis).


(** The target of [config_celda] without its ranges, one trial. *)
Definition config_sin_rango : ConfiguracionMC :=
  mkConfiguracionMC ["Celda"] ∅ 1 None None.

(** [{1: {'masa': 100}}]: a feed without a grade. *)
Definition alimentacion_sin_ley : list (Z * gmap string Qc) :=
  [(1%Z, <["masa" := cien]> ∅)].


(** ** simulador.py: ConfiguracionMC.default *)

(** [{'masa': (0.02, 0.7), 'cuf': (0.02, 0.9)}] *)
Definition rangos_por_defecto : gmap string (Qc * Qc) :=
  <["cuf" := (Qc_frac 1 50, Qc_frac 9 10)]>
    (<["masa" := (Qc_frac 1 50, Qc_frac 7 10)]> ∅).

(** The dict comprehension assigns the keys in the order of the list. *)
Definition ConfiguracionMC_default (equipos : list string) : ConfiguracionMC :=
  mkConfiguracionMC equipos
    (foldl (λ (acc : gmap string (gmap string (Qc * Qc))) eq,
              <[eq := rangos_por_defecto]> acc) ∅ equipos)
    100000 None None.


(** ** io.py: crear_circuito_desde_dict *)

(** [d[k] = v] on a dictionary in insertion order: an existing key keeps its
    place, a new one goes last. *)
Fixpoint dict_set {V} (k : string) (v : V) (d : list (string * V))
  : list (string * V) :=
  match d with
  | [] => [(k, v)]
  | (k', v') :: d' =>
      if decide (k' = k) then (k', v) :: d' else (k', v') :: dict_set k v d'
  end.

(** One entry of [config['equipos']]: a dict with the keys of the docstring,
    each of which may be missing. *)
Record ConfigEquipo := mkConfigEquipo {
  c_nombre : option string;
  c_tipo : option string;
  c_entrada : option (list Z);
  c_salida : option (list Z);
  c_split_factor : option (list Qc)
}.

(** The exceptions of this function: [KeyError] of a missing key and the
    [ValueError] with its message. *)
Inductive error_circuito :=
  | ErrorClave (k : string)
  | ErrorValor (mensaje : string).

(** [for id_flujo in ids: if id_flujo not in flujos: flujos[id_flujo] =
    Flujo(id=id_flujo)] *)
Definition crear_flujos (ids : list Z) (flujos : Flujos) : Flujos :=
  foldl (λ (fs : Flujos) id_flujo,
           if decide (is_Some (fs !! id_flujo)) then fs
           else <[id_flujo := Flujo_nuevo id_flujo]> fs)
        flujos ids.

Section CrearCircuito.

(** [str.lower], a parameter of the model. *)
Variable lower : string → string.

(** The body of the loop: the node built from one entry, under its name, and
    the flow dictionary after it. *)
Definition crear_equipo (eq_config : ConfigEquipo) (flujos : Flujos)
  : error_circuito + (string * Equipo * Flujos) :=
  match c_tipo eq_config with
  | None => inl (ErrorClave "tipo")
  | Some t =>
      let tipo := lower t in
      match (if decide (tipo = "celda") then Some ClaseCelda
             else if decide (tipo = "suma") then Some ClaseSuma
             else None) with
      | None => inl (ErrorValor ("Tipo desconocido: " +:+ tipo))
      | Some c =>
          match c_nombre eq_config with
          | None => inl (ErrorClave "nombre")
          | Some n =>
              match c_entrada eq_config with
              | None => inl (ErrorClave "entrada")
              | Some entrada =>
                  match c_salida eq_config with
                  | None => inl (ErrorClave "salida")
                  | Some salida =>
                      inr (n,
                           mkEquipo c n entrada salida
                             (default [0; 0] (c_split_factor eq_config)),
                           crear_flujos salida (crear_flujos entrada flujos))
                  end
              end
          end
      end
  end.

Fixpoint crear_bucle (l : list ConfigEquipo) (equipos : Equipos)
    (flujos : Flujos) : error_circuito + (Equipos * Flujos) :=
  match l with
  | [] => inr (equipos, flujos)
  | eq_config :: l' =>
      match crear_equipo eq_config flujos with
      | inl e => inl e
      | inr (n, equipo, flujos') =>
          crear_bucle l' (dict_set n equipo equipos) flujos'
      end
  end.

Definition crear_circuito_desde_dict (config : gmap string (list ConfigEquipo))
  : error_circuito + (Equipos * Flujos) :=
  match config !! "equipos" with
  | None => inl (ErrorClave "equipos")
  | Some l => crear_bucle l [] ∅
  end.

(** An entry the loop body accepts. *)
Definition entrada_completa (c : ConfigEquipo) : Prop :=
  (∃ t, c_tipo c = Some t ∧ (lower t = "celda" ∨ lower t = "suma")) ∧
  is_Some (c_nombre c) ∧ is_Some (c_entrada c) ∧ is_Some (c_salida c).

(** The class an accepted type stands for. *)
Definition clase_de (t : string) : clase :=
  if decide (lower t = "celda") then ClaseCelda else ClaseSuma.

End CrearCircuito.

(** ASCII lower-casing, for the examples. *)
Definition minuscula (a : Ascii.ascii) : Ascii.ascii :=
  let n := Ascii.nat_of_ascii a in
  if bool_decide (65 ≤ n ≤ 90)%nat then Ascii.ascii_of_nat (n + 32) else a.

Fixpoint lower_ascii (s : string) : string :=
  match s with
  | EmptyString => EmptyString
  | String a s' => String (minuscula a) (lower_ascii s')
  end.

(** [{'equipos': [{'nombre': 'Celda', 'tipo': 'Celda', 'entrada': [1],
    'salida': [2, 3]}]}] *)
Definition config_dict_ej : gmap string (list ConfigEquipo) :=
  {[ "equipos" :=
       [mkConfigEquipo (Some "Celda") (Some "Celda") (Some [1%Z])
          (Some [2%Z; 3%Z]) None] ]}.

(** The same with a second entry of a type that does not exist. *)
Definition config_dict_mala : gmap string (list ConfigEquipo) :=
  {[ "equipos" :=
       [mkConfigEquipo (Some "Celda") (Some "Celda") (Some [1%Z])
          (Some [2%Z; 3%Z]) None;
        mkConfigEquipo (Some "Molino") (Some "Molino") (Some [3%Z])
          (Some [4%Z]) None] ]}.


(** The flow ids an entry names. *)
Definition ids_de (c : ConfigEquipo) : list Z :=
  default [] (c_entrada c) ++ default [] (c_salida c).


(** ** simulador.py: simular_escenarios *)

(** The feed loop of a scenario: both values are looked up before
    [establecer_alimentacion] is called. *)
Definition alimentar_escenario (alimentacion : list (Z * gmap string Qc))
  : M Simulador unit :=
  para_cada alimentacion (λ kv,
    let* m := buscar kv.2 "masa" in
    let* l := buscar kv.2 "ley" in
    establecer_alimentacion kv.1 m l).

Definition fila_escenario (id_sim : Z) (r : Resultado) : Fila :=
  <["razon_enriquecimiento" := razon_enriquecimiento r]>
  (<["ley_concentrado" := ley_concentrado r]>
  (<["mass_pull" := mass_pull r]>
  (<["recuperacion" := recuperacion r]>
  (<["simulacion" := Qc_de_Z id_sim]> ∅)))).

Section Escenarios.

Variable orden : gset Z → list Z.

(** The body of the loop over the loaded scenarios: a new simulator, the
    feed, the simulation.  Nothing catches an exception. *)
Definition escenario (alimentacion : list (Z * gmap string Qc))
    (flujos_relave : option (gset Z)) (sim : Z * (Equipos * Flujos))
  : excepcion + Fila :=
  match
    (alimentar_escenario alimentacion >> simular orden)
      (Simulador_init sim.2.1 sim.2.2 flujos_relave None)
  with
  | Ok resultado _ => inr (fila_escenario sim.1 resultado)
  | Raise e _ => inl e
  end.

Fixpoint escenarios_bucle (alimentacion : list (Z * gmap string Qc))
    (flujos_relave : option (gset Z))
    (simulaciones : list (Z * (Equipos * Flujos))) (resultados : list Fila)
  : excepcion + list Fila :=
  match simulaciones with
  | [] => inr resultados
  | sim :: resto =>
      match escenario alimentacion flujos_relave sim with
      | inl e => inl e
      | inr fila =>
          escenarios_bucle alimentacion flujos_relave resto
            (resultados ++ [fila])
      end
  end.

(** [simular_escenarios], from the dictionary of scenarios that
    [cargar_multiples_simulaciones] has read. *)
Definition simular_escenarios
    (simulaciones : list (Z * (Equipos * Flujos)))
    (alimentacion : list (Z * gmap string Qc))
    (flujos_relave : option (gset Z)) : excepcion + DataFrame :=
  match escenarios_bucle alimentacion flujos_relave simulaciones [] with
  | inl e => inl e
  | inr resultados => inr (DataFrame_de resultados)
  end.

End Escenarios.

(** Two copies of the one-cell circuit as scenarios 1 and 2. *)
Definition simulaciones_ej : list (Z * (Equipos * Flujos)) :=
  [(1%Z, (equipos sim_ej, flujos sim_ej));
   (2%Z, (equipos sim_ej, flujos sim_ej))].

(** [{9: {'masa': 100}}]: no grade, for a flow the circuit does not have. *)
Definition alimentacion_ajena : list (Z * gmap string Qc) :=
  [(9%Z, <["masa" := cien]> ∅)].


(** A circuit whose second node is of the base class [Equipo]. *)
Definition sim_con_base : Simulador :=
  Simulador_init
    [("Celda", celda_ej); ("Caja", mkEquipo ClaseEquipo "Caja" [2%Z] [5%Z] [])]
    (<[5%Z := Flujo_nuevo 5]> flujos_ej) None None.


(** ** Binary64 arithmetic *)

(** A finite double is the rational it denotes.  [redondear] rounds a
    rational to the nearest double, ties to even: 53 significant bits, and
    below [2^-1022] the fixed spacing [2^-1074] of the subnormal numbers.
    Every arithmetic operation of the source is the exact operation followed
    by [redondear].  Infinities, NaN and the sign of zero are outside the
    model: it agrees with the code as long as no result overflows. *)
Module Doble.

Definition pot2 (k : Z) : Q := (2 ^ k)%Q.

Definition exponente (x : Q) : Z :=
  let e0 := (Z.log2 (Qnum x) - Z.log2 (Zpos (Qden x)))%Z in
  if Qle_bool (pot2 e0) x then e0 else (e0 - 1)%Z.

Definition cercano_par (y : Q) : Z :=
  let q := Qfloor y in
  match (y - inject_Z q ?= 1 # 2)%Q with
  | Lt => q
  | Gt => (q + 1)%Z
  | Eq => if Z.even q then q else (q + 1)%Z
  end.

Definition ulp (x : Q) : Q := pot2 (Z.max (exponente x) (-1022) - 52).

Definition redondear_pos (x : Q) : Q :=
  (inject_Z (cercano_par (x / ulp x)) * ulp x)%Q.

Definition redondear_Q (x : Q) : Q :=
  match (x ?= 0)%Q with
  | Eq => 0%Q
  | Gt => redondear_pos x
  | Lt => (- redondear_pos (- x))%Q
  end.

Definition redondear (x : Qc) : Qc := Q2Qc (redondear_Q x).

Definition u : Q := pot2 (-53).
Definition eta : Q := pot2 (-1075).


(** The four operations on doubles: the exact result, rounded. *)
Definition suma (a b : Qc) : Qc := redondear (a + b).
Definition resta (a b : Qc) : Qc := redondear (a - b).
Definition mult (a b : Qc) : Qc := redondear (a * b).
Definition cociente (a b : Qc) : Qc := redondear (a / b).

Definition dividir {S} (a b : Qc) : M S Qc :=
  if decide (b = 0) then raise ZeroDivisionError else ret (cociente a b).

Definition actualizar_contenido_fino (self : Z) : M Flujos unit :=
  let* m := attr self masa in
  let* l := attr self ley in
  asignar self con_contenido_fino (cociente (mult m l) cien).

Definition actualizar_ley (self : Z) : M Flujos unit :=
  let* m := attr self masa in
  if bool_decide (0 < m) then
    let* c := attr self contenido_fino in
    let* m' := attr self masa in
    let* q := dividir c m' in
    asignar self con_ley (mult q cien)
  else
    asignar self con_ley 0.

Definition Celda_calcular (self : Equipo) : M Flujos unit :=
  let* id_e := indice (flujos_entrada self) 0 in
  let* entrada := obtener id_e in
  actualizar_contenido_fino entrada >>
  let* id_c := indice (flujos_salida self) 0 in
  let* concentrado := obtener id_c in
  let* id_r := indice (flujos_salida self) 1 in
  let* relave := obtener id_r in
  let* sp_masa := indice (split_factor self) 0 in
  let* sp_cuf := indice (split_factor self) 1 in
  let* m := attr entrada masa in
  asignar concentrado con_masa (mult m sp_masa) >>
  let* m := attr entrada masa in
  asignar relave con_masa (mult m (resta 1 sp_masa)) >>
  let* c := attr entrada contenido_fino in
  asignar concentrado con_contenido_fino (mult c sp_cuf) >>
  let* c := attr entrada contenido_fino in
  asignar relave con_contenido_fino (mult c (resta 1 sp_cuf)) >>
  actualizar_ley concentrado >>
  actualizar_ley relave.

(** The fine content [masa * ley / 100] as the code derives it. *)
Definition fino_derivado (f : Flujo) : Qc := cociente (mult (masa f) (ley f)) cien.

(** The grade [contenido_fino / masa * 100], or 0, as the code derives it. *)
Definition ley_derivada (f : Flujo) : Qc :=
  if bool_decide (0 < masa f) then mult (cociente (contenido_fino f) (masa f)) cien
  else 0.

End Doble.

(** The tolerance of a split: [2^-51] relative to the input and [2^-1074]
    absolute. *)
Definition tolerancia : Qc := Q2Qc (Doble.pot2 (-51)).
Definition piso : Qc := Q2Qc (Doble.pot2 (-1074)).

(** The largest finite double. *)
Definition max_doble : Qc :=
  Q2Qc (inject_Z (2 ^ 53 - 1) * Doble.pot2 971).

(** The cell of the examples with the split factors [0.34, 0.3]. *)
Definition celda_redondeo : Equipo :=
  mkEquipo ClaseCelda "Celda" [1%Z] [2%Z; 3%Z]
    [Doble.redondear (Qc_frac 34 100); Doble.redondear (Qc_frac 3 10)].

(** A circuit with a recycle: the mixer adds the tailings of the cell (flow
    4) to the feed (flow 1), and the cell sends half of everything to the
    concentrate (flow 3).  Two passes, feed of mass 100 and grade 1.5. *)
Definition equipos_reciclo : Equipos :=
  [("Mezcla", mkEquipo ClaseSuma "Mezcla" [1%Z; 4%Z] [2%Z] []);
   ("Celda", mkEquipo ClaseCelda "Celda" [2%Z] [3%Z; 4%Z]
               [Qc_frac 1 2; Qc_frac 1 2])].

Definition sim_reciclo : Simulador :=
  estado_final
    (establecer_alimentacion 1 cien (Qc_frac 3 2)
       (Simulador_init equipos_reciclo
          (<[4%Z := Flujo_nuevo 4]> flujos_ej) None (Some 2%Z))).


(** No target, two trials, and an upper bound on the concentrate grade. *)
Definition config_techo : ConfiguracionMC :=
  mkConfiguracionMC [] ∅ 2 None (Some (Qc_de_Z 50)).


(** The cell of the examples with nothing of the mass sent to the
    concentrate: split factors [0, 0.75]. *)
Definition celda_sin_masa : Equipo :=
  mkEquipo ClaseCelda "Celda" [1%Z] [2%Z; 3%Z] [0; Qc_frac 3 4].


(** Flow 1 with grade 5 and fine content 3 but no mass. *)
Definition flujos_sin_masa : Flujos :=
  <[1%Z := mkFlujo 1 "" 0 (Qc_de_Z 5) (Qc_de_Z 3)]> flujos_ej.


(** A flow whose fine content is the one derived from its mass and grade. *)
Definition derivado (f : Flujo) : Prop :=
  contenido_fino f = masa f * ley f / cien.


(** * Properties *)

(** ** The monad *)

Lemma bind_eq {S A B} (c : M S A) (k : A → M S B) s :
  bind c k s = match c s with Ok a s' => k a s' | Raise e s' => Raise e s' end.
Proof. reflexivity. Qed.

Lemma bind_Ok {S A B} (c : M S A) (k : A → M S B) s b s2 :
  bind c k s = Ok b s2 ↔ ∃ a s1, c s = Ok a s1 ∧ k a s1 = Ok b s2.
Proof.
  rewrite bind_eq. destruct (c s) as [a s1|e s1]; split.
  - eauto.
  - intros (a' & s1' & [= -> ->] & ?); done.
  - done.
  - intros (? & ? & ? & ?); done.
Qed.

Lemma indice_Ok {S A} (l : list A) i (s : S) x s' :
  indice l i s = Ok x s' ↔ l !! i = Some x ∧ s' = s.
Proof.
  unfold indice. destruct (l !! i); cbn; split;
    try intros [= -> ->]; try intros [[= ->] ->]; try done.
Qed.

Lemma obtener_Ok k (fs : Flujos) r fs' :
  obtener k fs = Ok r fs' ↔ is_Some (fs !! k) ∧ r = k ∧ fs' = fs.
Proof.
  unfold obtener. destruct (fs !! k) eqn:E; split.
  - intros [= -> ->]; eauto.
  - intros (_ & -> & ->); done.
  - done.
  - intros ([? ?] & _); done.
Qed.

(** ** Frame reasoning: computations that respect a preorder on stores *)

Section Respeta.
Context (R : relation Flujos) `{!PreOrder R}.

Lemma respeta_ret {A} (a : A) : respeta R (ret a).
Proof. intros fs; cbn; reflexivity. Qed.

Lemma respeta_raise {A} e : respeta R (raise (A:=A) e).
Proof. intros fs; cbn; reflexivity. Qed.

Lemma respeta_bind_dep {A B} (c : M Flujos A) (k : A → M Flujos B) :
  respeta R c →
  (∀ a fs fs', c fs = Ok a fs' → respeta R (k a)) →
  respeta R (bind c k).
Proof.
  intros Hc Hk fs. rewrite bind_eq. specialize (Hc fs).
  destruct (c fs) as [a s1|e s1] eqn:E; cbn in *; [|done].
  etrans; [exact Hc|]. eapply Hk; eauto.
Qed.

Lemma respeta_bind {A B} (c : M Flujos A) (k : A → M Flujos B) :
  respeta R c → (∀ a, respeta R (k a)) → respeta R (bind c k).
Proof. intros; apply respeta_bind_dep; auto. Qed.

Lemma respeta_indice {A} (l : list A) i : respeta R (indice l i).
Proof. unfold indice. destruct (l !! i); [apply respeta_ret|apply respeta_raise]. Qed.

Lemma respeta_obtener k : respeta R (obtener k).
Proof. intros fs. unfold obtener. destruct (fs !! k); cbn; reflexivity. Qed.

Lemma respeta_attr r campo : respeta R (attr r campo).
Proof. intros fs. unfold attr. destruct (fs !! r); cbn; reflexivity. Qed.

Lemma respeta_dividir a b : respeta R (dividir a b).
Proof. unfold dividir. case_decide; [apply respeta_raise|apply respeta_ret]. Qed.

Lemma respeta_para_cada {A} (l : list A) (cuerpo : A → M Flujos unit) :
  (∀ x, x ∈ l → respeta R (cuerpo x)) → respeta R (para_cada l cuerpo).
Proof.
  induction l as [|x l IH]; intros H; cbn.
  - apply respeta_ret.
  - apply respeta_bind; [apply H; left|].
    intros _. apply IH. intros y Hy. apply H. by right.
Qed.

Lemma respeta_actualizar_ley r :
  (∀ v, respeta R (asignar r con_ley v)) → respeta R (actualizar_ley r).
Proof.
  intros H. unfold actualizar_ley.
  apply respeta_bind; [apply respeta_attr|]. intros m.
  case_bool_decide; [|apply H].
  repeat (apply respeta_bind; [first [apply respeta_attr|apply respeta_dividir]|intros ?]).
  apply H.
Qed.

End Respeta.

(** ** What a node may write *)

Lemma reescrito_idem f : reescrito (reescrito f) = reescrito f.
Proof. by destruct f. Qed.

Lemma misma_forma_refl o : misma_forma o o.
Proof. by destruct o. Qed.

Lemma misma_forma_trans o1 o2 o3 :
  misma_forma o1 o2 → misma_forma o2 o3 → misma_forma o1 o3.
Proof.
  destruct o1, o2, o3; cbn; try done. intros [? ?] [? ?]. split; congruence.
Qed.

Global Instance marco_preorder W E : PreOrder (marco W E).
Proof.
  split.
  - intros fs k. split; [apply misma_forma_refl|]. by left.
  - intros fs1 fs2 fs3 H12 H23 k.
    destruct (H12 k) as [F12 M12], (H23 k) as [F23 M23].
    split; [by eapply misma_forma_trans|]. intros Hk.
    destruct (M12 Hk) as [E1|[Hke E1]], (M23 Hk) as [E2|[Hke' E2]];
      rewrite E2, E1; auto.
    right. split; [done|].
    destruct (fs1 !! k); cbn; [by rewrite reescrito_idem|done].
Qed.

Lemma misma_forma_alter (g : Flujo → Flujo) r k (fs : Flujos) :
  (∀ f, f_id (g f) = f_id f ∧ f_nombre (g f) = f_nombre f) →
  misma_forma (fs !! k) (alter g r fs !! k).
Proof.
  intros Hg. destruct (decide (r = k)) as [->|Hne].
  - rewrite lookup_alter_eq. destruct (fs !! k) as [f|]; cbn; [|done].
    by destruct (Hg f).
  - rewrite lookup_alter_ne by done. apply misma_forma_refl.
Qed.

Lemma marco_asignar W E r c v :
  r ∈ W → respeta (marco W E) (asignar r (con_de c) v).
Proof.
  intros Hr fs k. cbn. split.
  - apply misma_forma_alter. intros f. by destruct c.
  - intros Hk. left. apply lookup_alter_ne. intros ->. done.
Qed.

Ltac m_asignar :=
  first [ apply (marco_asignar _ _ _ CMasa) | apply (marco_asignar _ _ _ CLey)
        | apply (marco_asignar _ _ _ CFino) ]; done.

Lemma actualizar_contenido_fino_eq r (fs : Flujos) :
  actualizar_contenido_fino r fs =
  match fs !! r with
  | Some f => Ok tt (alter (con_contenido_fino (masa f * ley f / cien)) r fs)
  | None => Raise (KeyError (ClaveInt r)) fs
  end.
Proof.
  unfold actualizar_contenido_fino. rewrite bind_eq. unfold attr at 1.
  destruct (fs !! r) as [f|] eqn:E; [|done].
  rewrite bind_eq. unfold attr. by rewrite E.
Qed.

Lemma marco_actualizar_contenido_fino W E r :
  r ∈ E → respeta (marco W E) (actualizar_contenido_fino r).
Proof.
  intros Hr fs k. rewrite actualizar_contenido_fino_eq.
  destruct (fs !! r) as [f|] eqn:Ef; cbn;
    [|split; [apply misma_forma_refl|by left]].
  split; [by apply misma_forma_alter|]. intros Hk.
  destruct (decide (k = r)) as [->|Hne].
  - right. split; [done|]. by rewrite lookup_alter_eq, Ef.
  - left. by apply lookup_alter_ne.
Qed.

Lemma elem_of_take_lookup {A} (l : list A) n i x :
  (i < n)%nat → l !! i = Some x → x ∈ take n l.
Proof.
  intros Hi Hx. apply list_elem_of_lookup. exists i.
  by rewrite lookup_take_lt.
Qed.

Ltac r_dep := apply respeta_bind_dep; try apply _.
Ltac r_seq := apply respeta_bind; try apply _.
Ltac r_hoja :=
  first [ apply respeta_indice | apply respeta_obtener | apply respeta_attr
        | apply respeta_dividir | apply respeta_ret | apply respeta_raise ];
  try apply _.

Lemma marco_Celda e :
  respeta (marco (take 2 (flujos_salida e)) (take 1 (flujos_entrada e)))
          (Celda_calcular e).
Proof.
  unfold Celda_calcular.
  r_dep; [r_hoja|]. intros id_e ? ? [He _]%indice_Ok.
  r_dep; [r_hoja|]. intros ? ? ? (_ & -> & _)%obtener_Ok.
  r_seq; [apply marco_actualizar_contenido_fino;
          eapply (elem_of_take_lookup _ 1 0); [lia|done]|intros _].
  r_dep; [r_hoja|]. intros id_c ? ? [Hc _]%indice_Ok.
  r_dep; [r_hoja|]. intros ? ? ? (_ & -> & _)%obtener_Ok.
  r_dep; [r_hoja|]. intros id_r ? ? [Hr _]%indice_Ok.
  r_dep; [r_hoja|]. intros ? ? ? (_ & -> & _)%obtener_Ok.
  assert (id_c ∈ take 2 (flujos_salida e))
    by (eapply (elem_of_take_lookup _ 2 0); [lia|done]).
  assert (id_r ∈ take 2 (flujos_salida e))
    by (eapply (elem_of_take_lookup _ 2 1); [lia|done]).
  repeat first
    [ apply respeta_actualizar_ley; try apply _; intros ?
    | m_asignar
    | r_hoja
    | r_seq; [|intros ?] ].
Qed.

Lemma marco_Suma e :
  respeta (marco (take 1 (flujos_salida e)) []) (Suma_calcular e).
Proof.
  unfold Suma_calcular.
  r_dep; [r_hoja|]. intros id_s ? ? [Hs _]%indice_Ok.
  r_dep; [r_hoja|]. intros ? ? ? (_ & -> & _)%obtener_Ok.
  assert (id_s ∈ take 1 (flujos_salida e))
    by (eapply (elem_of_take_lookup _ 1 0); [lia|done]).
  repeat first
    [ apply respeta_actualizar_ley; try apply _; intros ?
    | m_asignar
    | apply respeta_para_cada; try apply _; intros ? _
    | r_hoja
    | r_seq; [|intros ?] ].
Qed.

Lemma marco_calcular e :
  respeta (marco (escritos e) (entrada_de e)) (calcular e).
Proof.
  unfold calcular, escritos, entrada_de. destruct (cls e).
  - r_hoja.
  - apply marco_Celda.
  - apply marco_Suma.
Qed.

Lemma escritos_salida e k : k ∈ escritos e → k ∈ flujos_salida e.
Proof.
  unfold escritos. destruct (cls e); [by intros ?%elem_of_nil| |];
    intros (i & Hi)%list_elem_of_lookup;
    apply lookup_take_Some in Hi as [Hi _];
    eapply list_elem_of_lookup_2; eauto.
Qed.

(** ** Exact equations for the primitive steps *)

Lemma obtener_eq k (fs : Flujos) :
  is_Some (fs !! k) → obtener k fs = Ok k fs.
Proof. intros [f Hf]. unfold obtener. by rewrite Hf. Qed.

Lemma attr_eq r campo (fs : Flujos) f :
  fs !! r = Some f → attr r campo fs = Ok (campo f) fs.
Proof. intros Hf. unfold attr. by rewrite Hf. Qed.

Lemma indice_eq {S A} (l : list A) i x (s : S) :
  l !! i = Some x → indice l i s = Ok x s.
Proof. intros H. unfold indice. by rewrite H. Qed.

Lemma Qc_pos_no_cero (x : Qc) : 0 < x → x ≠ 0.
Proof. intros H ->. by apply (Qclt_not_eq 0 0). Qed.

Lemma actualizar_ley_eq r (fs : Flujos) f :
  fs !! r = Some f →
  actualizar_ley r fs = Ok tt (alter (con_ley (ley_derivada f)) r fs).
Proof.
  intros Hf. unfold actualizar_ley, ley_derivada.
  rewrite bind_eq, (attr_eq _ _ _ _ Hf).
  case_bool_decide as Hm; [|done].
  rewrite !bind_eq, (attr_eq _ _ _ _ Hf), bind_eq, (attr_eq _ _ _ _ Hf).
  rewrite bind_eq. unfold dividir.
  destruct (decide (masa f = 0)) as [E|_]; [|done].
  by apply Qc_pos_no_cero in Hm.
Qed.

(** ** Claims about a single node *)

Ltac qc_igual := apply Qc_is_canon; vm_compute; reflexivity.

Ltac busca :=
  repeat first [ rewrite lookup_alter_eq | rewrite lookup_alter_ne by congruence ];
  match goal with
  | H : ?fs !! ?k = Some _ |- context [?fs !! ?k] => rewrite H
  end; cbn; reflexivity.

(** ** Rounding: the error of a double operation and of a split *)

Section DobleProps.
Import Doble.

Ltac de_Z :=
  change 0%Q with (inject_Z 0); change 1%Q with (inject_Z 1);
  rewrite <- ?Zlt_Qlt, <- ?Zle_Qle; lia.

Lemma pot2_pos k : (0 < pot2 k)%Q.
Proof. apply Qpower_0_lt. reflexivity. Qed.

Lemma pot2_suma a b : (pot2 (a + b) == pot2 a * pot2 b)%Q.
Proof. apply Qpower_plus. discriminate. Qed.

Lemma pot2_Z k : (0 <= k)%Z → (pot2 k == inject_Z (2 ^ k))%Q.
Proof. intros H. unfold pot2. by rewrite Zpower_Qpower. Qed.

Lemma pot2_le a b : (a <= b)%Z → (pot2 a <= pot2 b)%Q.
Proof. intros H. apply Qpower_le_compat_l; [done|]. discriminate. Qed.

Lemma cercano_par_error y :
  (Qabs (inject_Z (cercano_par y) - y) <= 1 # 2)%Q.
Proof.
  unfold cercano_par.
  pose proof (Qfloor_le y) as H1. pose proof (Qlt_floor y) as H2.
  rewrite inject_Z_plus in H2. change (inject_Z 1) with 1%Q in H2.
  apply Qabs_Qle_condition.
  destruct (Qcompare_spec (y - inject_Z (Qfloor y)) (1 # 2)) as [E|E|E].
  - destruct (Z.even (Qfloor y)); rewrite ?inject_Z_plus;
      change (inject_Z 1) with 1%Q; lra.
  - lra.
  - rewrite inject_Z_plus. change (inject_Z 1) with 1%Q. lra.
Qed.

Lemma exponente_inf x : (0 < x)%Q → (pot2 (exponente x) <= x)%Q.
Proof.
  intros Hx. unfold exponente.
  set (a := Z.log2 (Qnum x)). set (b := Z.log2 (Zpos (Qden x))).
  destruct (Qle_bool (pot2 (a - b)) x) eqn:E; [by apply Qle_bool_iff|].
  destruct x as [n d]. cbn [Qnum Qden] in *.
  assert (0 < n)%Z as Hn by (unfold Qlt in Hx; cbn in Hx; lia).
  assert (0 <= a)%Z as Ha by apply Z.log2_nonneg.
  assert (0 <= b)%Z as Hb by apply Z.log2_nonneg.
  destruct (Z.log2_spec n Hn) as [Hn1 _]. fold a in Hn1.
  destruct (Z.log2_spec (Zpos d) (Pos2Z.is_pos d)) as [_ Hd2]. fold b in Hd2.
  replace (a - b - 1)%Z with (a + - (Z.succ b))%Z by lia.
  rewrite pot2_suma. unfold pot2 at 2. rewrite Qpower_opp. fold (pot2 (Z.succ b)).
  rewrite !pot2_Z by lia. rewrite (Qmake_Qdiv n d).
  assert (0 < inject_Z (Z.pos d))%Q as Hdpos by de_Z.
  assert (0 < inject_Z (2 ^ Z.succ b))%Q as Hbpos.
  { de_Z. }
  apply Qle_shift_div_l; [done|].
  rewrite <- Qmult_assoc, (Qmult_comm (/ _)).
  change (inject_Z (2 ^ a) * (inject_Z (Zpos d) / inject_Z (2 ^ Z.succ b))
          <= inject_Z n)%Q.
  apply Qle_trans with (inject_Z (2 ^ a) * 1)%Q.
  - apply Qmult_le_l; [de_Z|].
    apply Qle_shift_div_r; [done|]. rewrite Qmult_1_l.
    de_Z.
  - rewrite Qmult_1_r. de_Z.
Qed.

Lemma exponente_sup x : (0 < x)%Q → (x < pot2 (exponente x + 1))%Q.
Proof.
  intros Hx. unfold exponente.
  set (a := Z.log2 (Qnum x)). set (b := Z.log2 (Zpos (Qden x))).
  destruct (Qle_bool (pot2 (a - b)) x) eqn:E.
  - destruct x as [n d]. cbn [Qnum Qden] in *.
    assert (0 < n)%Z as Hn by (unfold Qlt in Hx; cbn in Hx; lia).
    assert (0 <= a)%Z as Ha by apply Z.log2_nonneg.
    assert (0 <= b)%Z as Hb by apply Z.log2_nonneg.
    destruct (Z.log2_spec n Hn) as [_ Hn2]. fold a in Hn2.
    destruct (Z.log2_spec (Zpos d) (Pos2Z.is_pos d)) as [Hd1 _]. fold b in Hd1.
    replace (a - b + 1)%Z with (Z.succ a + - b)%Z by lia.
    rewrite pot2_suma. unfold pot2 at 2. rewrite Qpower_opp. fold (pot2 b).
    rewrite !pot2_Z by lia. rewrite (Qmake_Qdiv n d).
    assert (0 < inject_Z (Z.pos d))%Q as Hdpos by de_Z.
    assert (0 < inject_Z (2 ^ b))%Q as Hbpos by de_Z.
    apply Qlt_shift_div_r; [done|].
    change (inject_Z n < inject_Z (2 ^ Z.succ a) / inject_Z (2 ^ b)
                        * inject_Z (Z.pos d))%Q.
    apply Qlt_le_trans with (inject_Z (2 ^ Z.succ a) * 1)%Q.
    + rewrite Qmult_1_r. de_Z.
    + unfold Qdiv. rewrite <- Qmult_assoc.
      apply Qmult_le_l; [de_Z|].
      rewrite Qmult_comm. apply Qle_shift_div_l; [done|]. rewrite Qmult_1_l.
      de_Z.
  - replace (a - b - 1 + 1)%Z with (a - b)%Z by lia.
    apply Qnot_le_lt. intros H. apply Qle_bool_iff in H. congruence.
Qed.

Lemma pot2_mitad k : ((1 # 2) * pot2 k == pot2 (k - 1))%Q.
Proof.
  replace (k - 1)%Z with (k + -1)%Z by lia. rewrite pot2_suma.
  change (pot2 (-1)) with (/ 2)%Q. field.
Qed.

Lemma redondear_pos_error x :
  (0 < x)%Q → (Qabs (redondear_pos x - x) <= u * x + eta)%Q.
Proof.
  intros Hx. unfold redondear_pos, ulp.
  set (E := Z.max (exponente x) (-1022)).
  set (p := pot2 (E - 52)).
  assert (0 < p)%Q as Hp by apply pot2_pos.
  set (y := (x / p)%Q). set (m := inject_Z (cercano_par y)).
  assert (m * p - x == (m - y) * p)%Q as ->.
  { unfold y. field. intros H. rewrite H in Hp. by apply Qlt_irrefl in Hp. }
  rewrite Qabs_Qmult, (Qabs_pos p) by by apply Qlt_le_weak.
  apply Qle_trans with ((1 # 2) * p)%Q.
  { apply Qmult_le_compat_r; [apply cercano_par_error|by apply Qlt_le_weak]. }
  unfold p. rewrite pot2_mitad.
  replace (E - 52 - 1)%Z with (E - 53)%Z by lia.
  assert (0 <= u * x)%Q as Hux.
  { apply Qmult_le_0_compat; [apply Qlt_le_weak, pot2_pos|by apply Qlt_le_weak]. }
  assert (0 <= eta)%Q as Heta by apply Qlt_le_weak, pot2_pos.
  destruct (Z.max_spec (exponente x) (-1022)) as [[_ HE]|[_ HE]]; fold E in HE;
    rewrite HE.
  - change (pot2 (-1022 - 53)) with eta. lra.
  - replace (exponente x - 53)%Z with (-53 + exponente x)%Z by lia.
    rewrite pot2_suma. fold u.
    apply Qle_trans with (u * x)%Q; [|lra].
    apply Qmult_le_l; [apply pot2_pos|by apply exponente_inf].
Qed.

Lemma redondear_Q_error x :
  (Qabs (redondear_Q x - x) <= u * Qabs x + eta)%Q.
Proof.
  unfold redondear_Q. destruct (Qcompare_spec x 0) as [E|E|E].
  - rewrite E. change (Qabs (0 - 0)) with 0%Q. change (Qabs 0) with 0%Q.
    assert (0 <= eta)%Q by apply Qlt_le_weak, pot2_pos. lra.
  - assert (0 < - x)%Q as Hx by lra.
    rewrite (Qabs_neg x) by lra.
    assert (- redondear_pos (- x) - x == - (redondear_pos (- x) - - x))%Q as ->
      by ring.
    rewrite Qabs_opp. by apply redondear_pos_error.
  - rewrite (Qabs_pos x) by lra. by apply redondear_pos_error.
Qed.

(** The error of a split, for any unit roundoff and underflow threshold. *)
Lemma reparto_Q (v h M S R1 T R3 : Q) :
  (0 <= v)%Q → (0 <= h)%Q → (0 <= S)%Q → (S <= 1)%Q →
  (Qabs (R1 - M * S) <= v * Qabs (M * S) + h)%Q →
  (Qabs (T - (1 - S)) <= v * Qabs (1 - S) + h)%Q →
  (Qabs (R3 - M * T) <= v * Qabs (M * T) + h)%Q →
  (Qabs (R1 + R3 - M) <= (2 * v + v * v + v * h + h) * Qabs M + 2 * h)%Q.
Proof.
  intros Hv Hh HS0 HS1 H1 H2 H3.
  rewrite Qabs_Qmult in H1, H3.
  rewrite (Qabs_pos S) in H1 by done.
  rewrite (Qabs_pos (1 - S)) in H2 by lra.
  assert (Qabs T <= (1 - S) + Qabs (T - (1 - S)))%Q as Ht.
  { assert (T == (1 - S) + (T - (1 - S)))%Q as E by ring.
    rewrite E at 1. eapply Qle_trans; [apply Qabs_triangle|].
    rewrite (Qabs_pos (1 - S)) by lra. lra. }
  assert (R1 + R3 - M == (R1 - M * S) + (R3 - M * T) + M * (T - (1 - S)))%Q
    as -> by ring.
  eapply Qle_trans; [apply Qabs_triangle|].
  eapply Qle_trans; [apply Qplus_le_compat; [apply Qabs_triangle|apply Qle_refl]|].
  rewrite Qabs_Qmult.
  pose proof (Qabs_nonneg M) as Ha.
  pose proof (Qabs_nonneg T) as HT.
  pose proof (Qabs_nonneg (T - (1 - S))) as H2'.
  set (a := Qabs M) in *. set (t := Qabs T) in *.
  set (x1 := Qabs (R1 - M * S)) in *. set (x2 := Qabs (T - (1 - S))) in *.
  set (x3 := Qabs (R3 - M * T)) in *.
  clearbody a t x1 x2 x3.
  assert (a * x2 <= a * (v * (1 - S) + h))%Q as P1
    by (rewrite !(Qmult_comm a); apply Qmult_le_compat_r; lra).
  assert (v * a * t <= v * a * ((1 - S) + x2))%Q as P2.
  { rewrite !(Qmult_comm (v * a)). apply Qmult_le_compat_r; [lra|].
    apply Qmult_le_0_compat; lra. }
  assert (0 <= a * S)%Q as P3 by (apply Qmult_le_0_compat; lra).
  assert (0 <= a * (1 - S))%Q as P4 by (apply Qmult_le_0_compat; lra).
  assert (0 <= v * a)%Q as P5 by (apply Qmult_le_0_compat; lra).
  assert (v * a * x2 <= v * a * (v * (1 - S) + h))%Q as P6
    by (rewrite !(Qmult_comm (v * a)); apply Qmult_le_compat_r; lra).
  nra.
Qed.

Lemma this_redondear (x : Qc) : (this (redondear x) == redondear_Q x)%Q.
Proof. unfold redondear. cbn. apply Qred_correct. Qed.

Lemma suma_redondeada_Q (v h k M X Z : Q) :
  (0 <= v)%Q → (0 <= h)%Q → (0 <= k)%Q →
  (Qabs (X - M) <= k * Qabs M + 2 * h)%Q →
  (Qabs (Z - X) <= v * Qabs X + h)%Q →
  (Qabs (Z - M) <= (k + v + v * k) * Qabs M + (3 + 2 * v) * h)%Q.
Proof.
  intros Hv Hh Hk H1 H2.
  assert (Qabs X <= Qabs M + Qabs (X - M))%Q as Hx.
  { assert (X == M + (X - M))%Q as E by ring.
    rewrite E at 1. apply Qabs_triangle. }
  assert (Z - M == (Z - X) + (X - M))%Q as -> by ring.
  eapply Qle_trans; [apply Qabs_triangle|].
  pose proof (Qabs_nonneg M) as Ha.
  set (a := Qabs M) in *. set (x := Qabs X) in *.
  set (d1 := Qabs (X - M)) in *. set (d2 := Qabs (Z - X)) in *.
  clearbody a x d1 d2.
  assert (v * x <= v * (a + (k * a + 2 * h)))%Q as P1.
  { rewrite !(Qmult_comm v). apply Qmult_le_compat_r; lra. }
  nra.
Qed.

Lemma reparto_error_Q (m s : Qc) :
  0 ≤ s → s ≤ 1 →
  (Qabs (mult m s + mult m (resta 1 s) - m)
   <= (2 * u + u * u + u * eta + eta) * Qabs m + 2 * eta)%Q.
Proof.
  intros H0 H1. unfold Qcle in *.
  unfold mult, resta.
  pose proof (redondear_Q_error (m * s)%Qc) as E1.
  pose proof (redondear_Q_error (1 - s)%Qc) as E2.
  pose proof (redondear_Q_error (m * redondear (1 - s))%Qc) as E3.
  pose proof (this_redondear (m * s)) as T1.
  pose proof (this_redondear (m * redondear (1 - s))) as T3.
  pose proof (this_redondear (1 - s)) as T2.
  set (R1 := redondear_Q (m * s)%Qc) in *.
  set (T := redondear_Q (1 - s)%Qc) in *.
  set (R3 := redondear_Q (m * redondear (1 - s))%Qc) in *.
  clearbody R1 T R3.
  cbn [this Qcplus Qcminus Qcopp Qcmult Q2Qc] in *.
  rewrite ?Qred_correct in *.
  rewrite T2 in E3. rewrite T1, T3.
  assert (1 + - s == 1 - s)%Q as E by ring. rewrite E in E2. clear E.
  apply (reparto_Q u eta m s R1 T R3); try done;
    apply Qlt_le_weak, pot2_pos.
Qed.

Lemma reparto_error (m s : Qc) :
  0 ≤ s → s ≤ 1 →
  Qcabs.Qcabs (mult m s + mult m (resta 1 s) - m)
  ≤ tolerancia * Qcabs.Qcabs m + piso.
Proof.
  intros H0 H1. pose proof (reparto_error_Q m s H0 H1) as H.
  unfold Qcle.
  cbn [this Qcabs.Qcabs Qcplus Qcminus Qcopp Qcmult Q2Qc] in *.
  rewrite ?Qred_correct in *.
  assert (mult m s + mult m (resta 1 s) + - m
          == mult m s + mult m (resta 1 s) - m)%Q as -> by ring.
  eapply Qle_trans; [exact H|].
  pose proof (Qabs_nonneg m) as Ha.
  assert (2 * u + u * u + u * eta + eta <= tolerancia)%Q as Hc
    by (vm_compute; discriminate).
  assert (2 * eta == piso)%Q as Hp by (vm_compute; reflexivity).
  rewrite Hp. apply Qplus_le_compat; [|apply Qle_refl].
  by apply Qmult_le_compat_r.
Qed.

Lemma reparto_error_suma (m s : Qc) :
  0 ≤ s → s ≤ 1 →
  Qcabs.Qcabs (suma (mult m s) (mult m (resta 1 s)) - m)
  ≤ tolerancia * Qcabs.Qcabs m + (piso + piso).
Proof.
  intros H0 H1. pose proof (reparto_error_Q m s H0 H1) as H.
  pose proof (redondear_Q_error (mult m s + mult m (resta 1 s))%Qc) as E.
  pose proof (this_redondear (mult m s + mult m (resta 1 s))) as T.
  unfold Qcle. unfold suma.
  set (X := (mult m s + mult m (resta 1 s))%Q) in *.
  set (Z := redondear_Q (mult m s + mult m (resta 1 s))%Qc) in *.
  clearbody Z.
  cbn [this Qcabs.Qcabs Qcplus Qcminus Qcopp Qcmult Q2Qc] in *.
  rewrite ?Qred_correct in *. fold X in E.
  rewrite T.
  assert (Z + - m == Z - m)%Q as -> by ring.
  eapply Qle_trans.
  { apply (suma_redondeada_Q u eta (2 * u + u * u + u * eta + eta) m X Z);
      try done; try (apply Qlt_le_weak, pot2_pos);
      vm_compute; discriminate. }
  pose proof (Qabs_nonneg m) as Ha.
  set (k := (2 * u + u * u + u * eta + eta)%Q).
  assert (k + u + u * k <= tolerancia)%Q as Hc by (vm_compute; discriminate).
  assert ((3 + 2 * u) * eta <= piso + piso)%Q as Hp by (vm_compute; discriminate).
  apply Qplus_le_compat; [|exact Hp].
  by apply Qmult_le_compat_r.
Qed.

Lemma Doble_actualizar_contenido_fino_eq r (fs : Flujos) f :
  fs !! r = Some f →
  Doble.actualizar_contenido_fino r fs
  = Ok tt (alter (con_contenido_fino (fino_derivado f)) r fs).
Proof.
  intros Hf. unfold Doble.actualizar_contenido_fino, fino_derivado.
  by rewrite bind_eq, (attr_eq _ _ _ _ Hf), bind_eq, (attr_eq _ _ _ _ Hf).
Qed.

Lemma Doble_actualizar_ley_eq r (fs : Flujos) f :
  fs !! r = Some f →
  Doble.actualizar_ley r fs = Ok tt (alter (con_ley (Doble.ley_derivada f)) r fs).
Proof.
  intros Hf. unfold Doble.actualizar_ley, Doble.ley_derivada.
  rewrite bind_eq, (attr_eq _ _ _ _ Hf).
  case_bool_decide as Hm; [|done].
  rewrite !bind_eq, (attr_eq _ _ _ _ Hf), bind_eq, (attr_eq _ _ _ _ Hf).
  rewrite bind_eq. unfold Doble.dividir.
  destruct (decide (masa f = 0)) as [E|_]; [|done].
  by apply Qc_pos_no_cero in Hm.
Qed.

(** C3, as amended.  In the code's double arithmetic a cell conserves mass
    and fine content up to rounding.  For a cell whose input, concentrate
    and tailings are three distinct flows of the store and whose split
    factors lie in [0,1], [Celda.calcular] succeeds, and the two output
    masses add up to the input mass within [2^-51] of its magnitude, plus
    [2^-1074] for underflow; the two output fine contents add up in the same
    way to the input's fine content, the one the code derives from mass and
    grade.  This holds for the exact sum of the two stored doubles and, with
    [2^-1073] for underflow, for their sum computed in doubles.  The model
    has no infinities, so the statement is for feeds whose product
    [masa * ley] is a finite double. *)
Theorem Celda_conserva_tolerancia
    (e : Equipo) (fs : Flujos) (id_e id_c id_r : Z) (sp_masa sp_cuf : Qc)
    (fe : Flujo) :
  flujos_entrada e !! 0%nat = Some id_e →
  flujos_salida e !! 0%nat = Some id_c →
  flujos_salida e !! 1%nat = Some id_r →
  split_factor e !! 0%nat = Some sp_masa →
  split_factor e !! 1%nat = Some sp_cuf →
  id_c ≠ id_e → id_r ≠ id_e → id_c ≠ id_r →
  fs !! id_e = Some fe → is_Some (fs !! id_c) → is_Some (fs !! id_r) →
  0 ≤ sp_masa → sp_masa ≤ 1 → 0 ≤ sp_cuf → sp_cuf ≤ 1 →
  Qcabs.Qcabs (masa fe * ley fe) ≤ max_doble →
  ∃ fs' c r,
    Doble.Celda_calcular e fs = Ok tt fs' ∧
    fs' !! id_c = Some c ∧ fs' !! id_r = Some r ∧
    Qcabs.Qcabs (masa c + masa r - masa fe)
      ≤ tolerancia * Qcabs.Qcabs (masa fe) + piso ∧
    Qcabs.Qcabs (Doble.suma (masa c) (masa r) - masa fe)
      ≤ tolerancia * Qcabs.Qcabs (masa fe) + (piso + piso) ∧
    Qcabs.Qcabs (contenido_fino c + contenido_fino r - Doble.fino_derivado fe)
      ≤ tolerancia * Qcabs.Qcabs (Doble.fino_derivado fe) + piso ∧
    Qcabs.Qcabs (Doble.suma (contenido_fino c) (contenido_fino r)
                 - Doble.fino_derivado fe)
      ≤ tolerancia * Qcabs.Qcabs (Doble.fino_derivado fe) + (piso + piso).
Proof.
  intros He Hc Hr Hm Hf Hce Hre Hcr Hfe [c0 Hc0] [r0 Hr0] Hm0 Hm1 Hf0 Hf1 _.
  unfold Doble.Celda_calcular.
  rewrite bind_eq, (indice_eq _ _ _ _ He).
  rewrite bind_eq, obtener_eq by eauto.
  rewrite bind_eq, (Doble_actualizar_contenido_fino_eq _ _ _ Hfe).
  rewrite bind_eq, (indice_eq _ _ _ _ Hc).
  rewrite bind_eq, obtener_eq by (rewrite lookup_alter_ne by done; eauto).
  rewrite bind_eq, (indice_eq _ _ _ _ Hr).
  rewrite bind_eq, obtener_eq by (rewrite lookup_alter_ne by done; eauto).
  rewrite bind_eq, (indice_eq _ _ _ _ Hm).
  rewrite bind_eq, (indice_eq _ _ _ _ Hf).
  repeat (rewrite bind_eq; first [erewrite attr_eq by busca | unfold asignar at 1]).
  rewrite bind_eq. erewrite Doble_actualizar_ley_eq by busca.
  erewrite Doble_actualizar_ley_eq by busca.
  eexists _, _, _. split; [reflexivity|].
  split; [busca|]. split; [busca|]. cbn.
  split; [by apply reparto_error|].
  split; [by apply reparto_error_suma|].
  split; [by apply reparto_error|by apply reparto_error_suma].
Qed.

Lemma Celda_conserva_tolerancia_witness :
  ∃ fe fs' c r,
    flujos sim_alimentado !! 1%Z = Some fe ∧
    Doble.Celda_calcular celda_redondeo (flujos sim_alimentado) = Ok tt fs' ∧
    fs' !! 2%Z = Some c ∧ fs' !! 3%Z = Some r ∧
    Qcabs.Qcabs (masa c + masa r - masa fe)
      ≤ tolerancia * Qcabs.Qcabs (masa fe) + piso ∧
    Qcabs.Qcabs (Doble.suma (masa c) (masa r) - masa fe)
      ≤ tolerancia * Qcabs.Qcabs (masa fe) + (piso + piso) ∧
    Qcabs.Qcabs (contenido_fino c + contenido_fino r - Doble.fino_derivado fe)
      ≤ tolerancia * Qcabs.Qcabs (Doble.fino_derivado fe) + piso ∧
    Qcabs.Qcabs (Doble.suma (contenido_fino c) (contenido_fino r)
                 - Doble.fino_derivado fe)
      ≤ tolerancia * Qcabs.Qcabs (Doble.fino_derivado fe) + (piso + piso).
Proof.
  destruct (flujos sim_alimentado !! 1%Z) as [fe|] eqn:Hfe;
    [|vm_compute in Hfe; discriminate].
  exists fe.
  assert (Qcabs.Qcabs (masa fe * ley fe) ≤ max_doble) as Hmax.
  { vm_compute in Hfe. injection Hfe as <-. vm_compute. discriminate. }
  destruct (Celda_conserva_tolerancia celda_redondeo (flujos sim_alimentado)
              1 2 3 (Doble.redondear (Qc_frac 34 100))
              (Doble.redondear (Qc_frac 3 10)) fe)
    as (fs' & c & r & H).
  - reflexivity.
  - reflexivity.
  - reflexivity.
  - reflexivity.
  - reflexivity.
  - discriminate.
  - discriminate.
  - discriminate.
  - exact Hfe.
  - vm_compute. eauto.
  - vm_compute. eauto.
  - vm_compute. discriminate.
  - vm_compute. discriminate.
  - vm_compute. discriminate.
  - vm_compute. discriminate.
  - exact Hmax.
  - exists fs', c, r. split; [reflexivity|exact H].
Defined.

(** C3, counterexample.  The feed [masa = 100, ley = 1.5] as
    [establecer_alimentacion] leaves it, and a cell with the split factors
    [0.34, 0.3].  The concentrate gets mass 34.0 and the tailings
    65.99999999999999: their sum, exact or rounded, is [100 - 2^-46], not
    100.  The fine contents 0.44999999999999996 and 1.0499999999999998 add
    up to [1.5 - 2^-52], not to the feed's 1.5. *)
Lemma Celda_no_conserva :
  ∃ fe fs' c r,
    flujos sim_alimentado !! 1%Z = Some fe ∧
    masa fe = cien ∧ Doble.fino_derivado fe = Qc_frac 3 2 ∧
    Doble.Celda_calcular celda_redondeo (flujos sim_alimentado) = Ok tt fs' ∧
    fs' !! 2%Z = Some c ∧ fs' !! 3%Z = Some r ∧
    masa c + masa r = cien - Q2Qc (Doble.pot2 (-46)) ∧
    Doble.suma (masa c) (masa r) = cien - Q2Qc (Doble.pot2 (-46)) ∧
    masa c + masa r ≠ masa fe ∧
    contenido_fino c + contenido_fino r
      = Qc_frac 3 2 - Q2Qc (Doble.pot2 (-52)) ∧
    Doble.suma (contenido_fino c) (contenido_fino r)
      = Qc_frac 3 2 - Q2Qc (Doble.pot2 (-52)) ∧
    contenido_fino c + contenido_fino r ≠ Doble.fino_derivado fe.
Proof.
  destruct (flujos sim_alimentado !! 1%Z) as [fe|] eqn:Hfe;
    vm_compute in Hfe; [|discriminate].
  injection Hfe as <-.
  destruct (Doble.Celda_calcular celda_redondeo (flujos sim_alimentado))
    as [[] fs'|ex fs'] eqn:E; vm_compute in E; [|discriminate].
  injection E as <-.
  eexists _, _, _, _. split; [reflexivity|].
  split; [apply Qc_is_canon; vm_compute; reflexivity|].
  split; [apply Qc_is_canon; vm_compute; reflexivity|].
  split; [reflexivity|].
  split; [vm_compute; reflexivity|].
  split; [vm_compute; reflexivity|].
  split_and!; try (apply Qc_is_canon; vm_compute; reflexivity);
    intros H; apply (f_equal this) in H; vm_compute in H; discriminate.
Qed.

End DobleProps.

(** C1, as amended.  [calcular] leaves every flow that is not among the
    node's declared outputs untouched, with one exception: a cell re-derives
    the fine content of its first declared input as [masa * ley / 100]
    (identifier, name, mass and grade of that flow stay as they were).  This
    holds for every node and every store, and for exceptional runs as well. *)
Theorem calcular_marco (e : Equipo) (fs : Flujos) (k : Z) :
  k ∉ flujos_salida e →
  (estado_final (calcular e fs) !! k = fs !! k) ∨
  (cls e = ClaseCelda ∧ flujos_entrada e !! 0%nat = Some k ∧
   estado_final (calcular e fs) !! k = reescrito <$> fs !! k).
Proof.
  intros Hk.
  destruct (marco_calcular e fs k) as [_ HM].
  destruct HM as [H|[He H]].
  - intros ?%escritos_salida. done.
  - by left.
  - right. unfold entrada_de in He.
    destruct (cls e); try by apply elem_of_nil in He.
    split_and!; [done| |done].
    destruct (flujos_entrada e) as [|x l]; cbn in He;
      [by apply elem_of_nil in He|].
    rewrite take_0 in He. by apply list_elem_of_singleton in He as ->.
Qed.

Lemma calcular_marco_witness :
  (1%Z ∉ flujos_salida celda_ej) ∧
  ((estado_final (calcular celda_ej flujos_sin_derivar) !! 1%Z
     = flujos_sin_derivar !! 1%Z) ∨
   (cls celda_ej = ClaseCelda ∧ flujos_entrada celda_ej !! 0%nat = Some 1%Z ∧
    estado_final (calcular celda_ej flujos_sin_derivar) !! 1%Z
      = reescrito <$> flujos_sin_derivar !! 1%Z)).
Proof.
  assert (H : 1%Z ∉ flujos_salida celda_ej).
  { cbn. intros Hin. by repeat (apply elem_of_cons in Hin as [?|Hin]);
      try apply elem_of_nil in Hin. }
  split; [exact H|]. apply (calcular_marco celda_ej flujos_sin_derivar 1 H).
Defined.

(** C1, counterexample.  Flow 1 is the declared input of the cell and not
    one of its outputs; every referenced id is in the store; yet [calcular]
    changes the fine content of flow 1 from [0] to [3/2]. *)
Lemma calcular_reescribe_entrada :
  flujos_entrada celda_ej = [1%Z] ∧ flujos_salida celda_ej = [2%Z; 3%Z] ∧
  (∀ k : Z, k ∈ [1%Z; 2%Z; 3%Z] → is_Some (flujos_sin_derivar !! k)) ∧
  contenido_fino <$> flujos_sin_derivar !! 1%Z = Some 0 ∧
  contenido_fino <$> estado_final (calcular celda_ej flujos_sin_derivar) !! 1%Z
    = Some (Qc_frac 3 2) ∧
  estado_final (calcular celda_ej flujos_sin_derivar) !! 1%Z
    ≠ flujos_sin_derivar !! 1%Z.
Proof.
  assert (Hcf : contenido_fino <$>
            estado_final (calcular celda_ej flujos_sin_derivar) !! 1%Z
          = Some (Qc_frac 3 2)).
  { vm_compute. f_equal. qc_igual. }
  split_and!; try done.
  intros k Hk. repeat (apply elem_of_cons in Hk as [->|Hk]); try done.
    by apply elem_of_nil in Hk.
Qed.

(** The mixer scenario: masses 60 and 40 with fine contents 3 and 1 give an
    output of mass 100, fine content 4 and grade 4. *)
Lemma Suma_ejemplo :
  ∃ fs' s,
    calcular mezclador_ej flujos_mezcla = Ok tt fs' ∧ fs' !! 3%Z = Some s ∧
    masa s = cien ∧ contenido_fino s = Qc_de_Z 4 ∧ ley s = Qc_de_Z 4.
Proof.
  eexists _, _. split; [vm_compute; reflexivity|].
  split; [vm_compute; reflexivity|].
  split_and!; qc_igual.
Qed.

(** ** Claims about the simulator *)

(** C10.  [establecer_alimentacion] on an id that is not a key of
    [self.flujos] returns normally and leaves the whole simulator (nodes,
    flows, classification) as it was. *)
Theorem establecer_alimentacion_desconocido
    (self : Simulador) (id_flujo : Z) (m l : Qc) :
  flujos self !! id_flujo = None →
  establecer_alimentacion id_flujo m l self = Ok tt self.
Proof.
  intros H. unfold establecer_alimentacion.
  case_decide as Hs; [|done]. rewrite H in Hs. by destruct Hs.
Qed.

Lemma establecer_alimentacion_desconocido_witness :
  flujos sim_ej !! 7%Z = None ∧
  establecer_alimentacion 7 cien (Qc_frac 3 2) sim_ej = Ok tt sim_ej.
Proof.
  assert (H : flujos sim_ej !! 7%Z = None) by reflexivity.
  split; [exact H|].
  apply (establecer_alimentacion_desconocido sim_ej 7 cien (Qc_frac 3 2) H).
Defined.

Lemma orden_singleton (orden : gset Z → list Z) (X : gset Z) x :
  (∀ Y, orden Y ≡ₚ elements Y) → elements X = [x] → orden X = [x].
Proof.
  intros H E. specialize (H X). rewrite E in H.
  symmetry in H. by apply Permutation_singleton_l in H.
Qed.

Lemma orden_par (orden : gset Z → list Z) (X : gset Z) x y :
  (∀ Y, orden Y ≡ₚ elements Y) → elements X = [x; y] →
  orden X = [x; y] ∨ orden X = [y; x].
Proof.
  intros H E. specialize (H X). rewrite E in H.
  symmetry in H. by apply Permutation_length_2_inv in H.
Qed.

(** C2.  The single cell of [celda_ej] (split factors 1/10 and 3/4, tailings
    flow 3 declared as discharge), fed with mass 100 and grade 1.5 through
    [establecer_alimentacion]: the feed's fine content is 1.5, and after
    [simular] the concentrate has mass 10, fine content 1.125 and grade 11.25,
    the tailings mass 90, fine content 0.375 and grade 0.375/90*100; the
    result record has recovery 75, mass pull 10, enrichment ratio 7.5 and
    both balance errors 0.  This holds whatever order Python iterates its
    sets in. *)
Theorem simular_una_celda (orden : gset Z → list Z) :
  (∀ X, orden X ≡ₚ elements X) →
  ∃ alim r s' conc rel,
    flujos sim_alimentado !! 1%Z = Some alim ∧
    masa alim = cien ∧ ley alim = Qc_frac 3 2 ∧
    contenido_fino alim = Qc_frac 3 2 ∧
    simular orden sim_alimentado = Ok r s' ∧
    flujos s' !! 2%Z = Some conc ∧ flujos s' !! 3%Z = Some rel ∧
    masa conc = Qc_de_Z 10 ∧ contenido_fino conc = Qc_frac 9 8 ∧
    ley conc = Qc_frac 45 4 ∧
    masa rel = Qc_de_Z 90 ∧ contenido_fino rel = Qc_frac 3 8 ∧
    ley rel = Qc_frac 3 8 / Qc_de_Z 90 * cien ∧
    recuperacion r = Qc_de_Z 75 ∧ mass_pull r = Qc_de_Z 10 ∧
    razon_enriquecimiento r = Qc_frac 15 2 ∧
    error_masa r = 0 ∧ error_cuf r = 0.
Proof.
  intros Hord.
  unfold simular. rewrite bind_eq.
  destruct (para_cada (rango (iteraciones_convergencia sim_alimentado))
              (λ _, ejecutar_iteracion) sim_alimentado) as [[] s|e s] eqn:E;
    vm_compute in E; [|discriminate].
  injection E as <-.
  unfold _calcular_resultados, en_flujos.
  cbn [f_entrada f_salida f_salida_conc flujos].
  rewrite (orden_singleton orden _ 1%Z Hord) by reflexivity.
  rewrite (orden_singleton orden _ 2%Z Hord) by reflexivity.
  match goal with |- context [orden ?X] =>
    destruct (orden_par orden X 3%Z 2%Z Hord) as [Ho|Ho];
      [reflexivity| |]; rewrite Ho; clear Ho
  end.
  - eexists _, _, _, _, _.
    split; [vm_compute; reflexivity|].
    do 3 (split; [qc_igual|]).
    split; [vm_compute; reflexivity|].
    split; [vm_compute; reflexivity|].
    split; [vm_compute; reflexivity|].
    split_and!; qc_igual.
  - eexists _, _, _, _, _.
    split; [vm_compute; reflexivity|].
    do 3 (split; [qc_igual|]).
    split; [vm_compute; reflexivity|].
    split; [vm_compute; reflexivity|].
    split; [vm_compute; reflexivity|].
    split_and!; qc_igual.
Qed.

Lemma simular_una_celda_witness :
  ∃ alim r s' conc rel,
    flujos sim_alimentado !! 1%Z = Some alim ∧
    masa alim = cien ∧ ley alim = Qc_frac 3 2 ∧
    contenido_fino alim = Qc_frac 3 2 ∧
    simular elements sim_alimentado = Ok r s' ∧
    flujos s' !! 2%Z = Some conc ∧ flujos s' !! 3%Z = Some rel ∧
    masa conc = Qc_de_Z 10 ∧ contenido_fino conc = Qc_frac 9 8 ∧
    ley conc = Qc_frac 45 4 ∧
    masa rel = Qc_de_Z 90 ∧ contenido_fino rel = Qc_frac 3 8 ∧
    ley rel = Qc_frac 3 8 / Qc_de_Z 90 * cien ∧
    recuperacion r = Qc_de_Z 75 ∧ mass_pull r = Qc_de_Z 10 ∧
    razon_enriquecimiento r = Qc_frac 15 2 ∧
    error_masa r = 0 ∧ error_cuf r = 0.
Proof.
  apply (simular_una_celda elements). intros X. reflexivity.
Defined.

(** ** Result computation *)

Lemma sumar_desde_casos acc ids campo (fs : Flujos) :
  match sumar_desde acc ids campo fs with
  | Ok _ fs' => fs' = fs ∧ ∀ k, k ∈ ids → is_Some (fs !! k)
  | Raise e fs' => fs' = fs ∧ ∃ k, e = KeyError (ClaveInt k) ∧ k ∈ ids ∧ fs !! k = None
  end.
Proof.
  revert acc. induction ids as [|i ids IH]; intros acc; cbn.
  - split; [done|]. by intros k ?%elem_of_nil.
  - rewrite bind_eq. unfold obtener.
    destruct (fs !! i) as [f|] eqn:E.
    + rewrite bind_eq, (attr_eq _ _ _ _ E).
      specialize (IH (acc + campo f)).
      destruct (sumar_desde _ ids campo fs) as [v fs'|e fs'].
      * destruct IH as [-> IH]. split; [done|].
        intros k [->|Hk]%elem_of_cons; eauto.
      * destruct IH as [-> (k & -> & Hk & Hn)]. split; [done|].
        exists k. split_and!; auto. by right.
    + split; [done|]. exists i. split_and!; auto. by left.
Qed.

Lemma sumar_total ids campo (fs : Flujos) :
  (∀ k, k ∈ ids → is_Some (fs !! k)) → ∃ v, sumar ids campo fs = Ok v fs.
Proof.
  intros H. unfold sumar.
  pose proof (sumar_desde_casos 0 ids campo fs) as Hc.
  destruct (sumar_desde 0 ids campo fs) as [v fs'|e fs'].
  - destruct Hc as [-> _]. eauto.
  - destruct Hc as [_ (k & _ & Hk & Hn)].
    destruct (H k Hk) as [? ?]. congruence.
Qed.

Lemma dividir_eq {S} a b (s : S) : b ≠ 0 → dividir a b s = Ok (a / b) s.
Proof. intros H. unfold dividir. by case_decide. Qed.

Lemma con_flujos_id (self : Simulador) : con_flujos (flujos self) self = self.
Proof. by destruct self. Qed.

Lemma Qc_no_pos_cero : ¬ (0 < 0).
Proof. intros H. by apply (Qclt_not_eq 0 0). Qed.

Lemma bloque_alim id campo num (fs : Flujos) alim :
  fs !! id = Some alim →
  ∃ v, (if bool_decide (0 < campo alim) then
          let* d := attr id campo in
          let* q := dividir num d in ret (q * cien)
        else ret 0) fs = Ok v fs ∧ (campo alim = 0 → v = 0).
Proof.
  intros Ea. case_bool_decide as Hp.
  - rewrite bind_eq, (attr_eq _ _ _ _ Ea), bind_eq,
      dividir_eq by (by apply Qc_pos_no_cero).
    eexists; split; [reflexivity|]. intros E. rewrite E in Hp.
    by apply Qc_no_pos_cero in Hp.
  - eexists; split; [reflexivity|done].
Qed.

Lemma bloque_ley num den (fs : Flujos) :
  ∃ v, (if bool_decide (0 < den) then
          let* q := dividir num den in ret (q * cien)
        else ret 0) fs = Ok v fs ∧ (den = 0 → v = 0).
Proof.
  case_bool_decide as Hp.
  - rewrite bind_eq, dividir_eq by (by apply Qc_pos_no_cero).
    eexists; split; [reflexivity|]. intros E. rewrite E in Hp.
    by apply Qc_no_pos_cero in Hp.
  - eexists; split; [reflexivity|done].
Qed.

Lemma bloque_razon num den (fs : Flujos) :
  ∃ v, (if bool_decide (0 < den) then dividir num den else ret 0) fs = Ok v fs
       ∧ (den = 0 → v = 0).
Proof.
  case_bool_decide as Hp.
  - rewrite dividir_eq by (by apply Qc_pos_no_cero).
    eexists; split; [reflexivity|]. intros E. rewrite E in Hp.
    by apply Qc_no_pos_cero in Hp.
  - eexists; split; [reflexivity|done].
Qed.

Lemma _calcular_resultados_casos orden (self : Simulador) :
  match _calcular_resultados orden self with
  | Raise e s' => e ≠ ZeroDivisionError
  | Ok r s' =>
      ∃ id_alim alim masa_conc,
        orden (f_entrada self) !! 0%nat = Some id_alim ∧
        flujos self !! id_alim = Some alim ∧
        sumar (orden (f_salida_conc self)) masa (flujos self)
          = Ok masa_conc (flujos self) ∧
        (contenido_fino alim = 0 → recuperacion r = 0) ∧
        (masa alim = 0 → mass_pull r = 0) ∧
        (masa_conc = 0 → ley_concentrado r = 0) ∧
        (mass_pull r = 0 → razon_enriquecimiento r = 0)
  end.
Proof.
  unfold _calcular_resultados, en_flujos.
  set (fs := flujos self).
  rewrite bind_eq. unfold indice.
  destruct (orden (f_entrada self) !! 0%nat) as [id_alim|] eqn:Ei; cbn; [|done].
  rewrite bind_eq. unfold obtener.
  destruct (fs !! id_alim) as [alim|] eqn:Ea; [|done].
  rewrite bind_eq.
  pose proof (sumar_desde_casos 0 (orden (f_salida_conc self)) masa fs) as H1.
  fold (sumar (orden (f_salida_conc self)) masa fs) in H1.
  destruct (sumar (orden (f_salida_conc self)) masa fs)
    as [masa_conc ?|e ?] eqn:Es1; destruct H1 as [-> H1];
    [|by destruct H1 as (? & -> & _)].
  rewrite bind_eq.
  pose proof (sumar_desde_casos 0 (orden (f_salida_conc self)) contenido_fino fs) as H2.
  fold (sumar (orden (f_salida_conc self)) contenido_fino fs) in H2.
  destruct (sumar (orden (f_salida_conc self)) contenido_fino fs)
    as [cuf_conc ?|e ?] eqn:Es2; destruct H2 as [-> H2];
    [|by destruct H2 as (? & -> & _)].
  rewrite bind_eq, (attr_eq _ _ _ _ Ea).
  destruct (bloque_alim id_alim contenido_fino cuf_conc fs alim Ea)
    as (rec & Hrec & Hrec0).
  rewrite bind_eq, Hrec.
  rewrite bind_eq, (attr_eq _ _ _ _ Ea).
  destruct (bloque_alim id_alim masa masa_conc fs alim Ea)
    as (mp & Hmp & Hmp0).
  rewrite bind_eq, Hmp.
  destruct (bloque_ley cuf_conc masa_conc fs) as (lc & Hlc & Hlc0).
  rewrite bind_eq, Hlc.
  destruct (bloque_razon rec mp fs) as (rz & Hrz & Hrz0).
  rewrite bind_eq, Hrz.
  rewrite bind_eq.
  pose proof (sumar_desde_casos 0 (orden (f_salida self)) masa fs) as H3.
  fold (sumar (orden (f_salida self)) masa fs) in H3.
  destruct (sumar (orden (f_salida self)) masa fs)
    as [masa_salida ?|e ?] eqn:Es3; destruct H3 as [-> H3];
    [|by destruct H3 as (? & -> & _)].
  rewrite bind_eq.
  pose proof (sumar_desde_casos 0 (orden (f_salida self)) contenido_fino fs) as H4.
  fold (sumar (orden (f_salida self)) contenido_fino fs) in H4.
  destruct (sumar (orden (f_salida self)) contenido_fino fs)
    as [cuf_salida ?|e ?] eqn:Es4; destruct H4 as [-> H4];
    [|by destruct H4 as (? & -> & _)].
  rewrite bind_eq, (attr_eq _ _ _ _ Ea), bind_eq, (attr_eq _ _ _ _ Ea).
  exists id_alim, alim, masa_conc. cbn. split_and!; auto.
Qed.

Lemma _calcular_resultados_total orden (self : Simulador) id_alim :
  orden (f_entrada self) !! 0%nat = Some id_alim →
  is_Some (flujos self !! id_alim) →
  (∀ k, k ∈ orden (f_salida_conc self) → is_Some (flujos self !! k)) →
  (∀ k, k ∈ orden (f_salida self) → is_Some (flujos self !! k)) →
  ∃ r, _calcular_resultados orden self = Ok r self
       ∧ res_flujos r = (λ v, (masa v, ley v)) <$> flujos self.
Proof.
  intros Ei [alim Ea] Hc Hs.
  unfold _calcular_resultados, en_flujos.
  rewrite bind_eq, (indice_eq _ _ _ _ Ei).
  rewrite bind_eq, obtener_eq by eauto.
  destruct (sumar_total _ masa _ Hc) as (masa_conc & E1).
  destruct (sumar_total _ contenido_fino _ Hc) as (cuf_conc & E2).
  destruct (sumar_total _ masa _ Hs) as (masa_salida & E3).
  destruct (sumar_total _ contenido_fino _ Hs) as (cuf_salida & E4).
  rewrite bind_eq, E1, bind_eq, E2.
  rewrite bind_eq, (attr_eq _ _ _ _ Ea).
  destruct (bloque_alim id_alim contenido_fino cuf_conc _ alim Ea)
    as (rec & Hrec & _).
  rewrite bind_eq, Hrec.
  rewrite bind_eq, (attr_eq _ _ _ _ Ea).
  destruct (bloque_alim id_alim masa masa_conc _ alim Ea) as (mp & Hmp & _).
  rewrite bind_eq, Hmp.
  destruct (bloque_ley cuf_conc masa_conc (flujos self)) as (lc & Hlc & _).
  rewrite bind_eq, Hlc.
  destruct (bloque_razon rec mp (flujos self)) as (rz & Hrz & _).
  rewrite bind_eq, Hrz.
  rewrite bind_eq, E3, bind_eq, E4.
  rewrite bind_eq, (attr_eq _ _ _ _ Ea), bind_eq, (attr_eq _ _ _ _ Ea).
  rewrite con_flujos_id. eexists. split; reflexivity.
Qed.

(** C6.  The result computation never divides by zero.  Whatever the state,
    [_calcular_resultados] does not raise [ZeroDivisionError]; when it
    returns, recovery is 0 if the reference feed's fine content is 0, mass
    pull is 0 if the feed's mass is 0, concentrate grade is 0 if the summed
    product mass is 0, and the enrichment ratio is 0 if mass pull is 0; it
    does return whenever the reference feed and the product and discharge
    flows are in the store.  [actualizar_ley] never raises
    [ZeroDivisionError] either and sets the grade to 0 when the mass is 0. *)
Theorem metricas_sin_division_por_cero
    (orden : gset Z → list Z) (self : Simulador) :
  (∀ s', _calcular_resultados orden self ≠ Raise ZeroDivisionError s') ∧
  (∀ r s', _calcular_resultados orden self = Ok r s' →
     ∃ id_alim alim masa_conc,
       orden (f_entrada self) !! 0%nat = Some id_alim ∧
       flujos self !! id_alim = Some alim ∧
       sumar (orden (f_salida_conc self)) masa (flujos self)
         = Ok masa_conc (flujos self) ∧
       (contenido_fino alim = 0 → recuperacion r = 0) ∧
       (masa alim = 0 → mass_pull r = 0) ∧
       (masa_conc = 0 → ley_concentrado r = 0) ∧
       (mass_pull r = 0 → razon_enriquecimiento r = 0)) ∧
  (∀ id_alim,
     orden (f_entrada self) !! 0%nat = Some id_alim →
     is_Some (flujos self !! id_alim) →
     (∀ k, k ∈ orden (f_salida_conc self) → is_Some (flujos self !! k)) →
     (∀ k, k ∈ orden (f_salida self) → is_Some (flujos self !! k)) →
     ∃ r, _calcular_resultados orden self = Ok r self) ∧
  (∀ (k : Z) (fs : Flujos) s', actualizar_ley k fs ≠ Raise ZeroDivisionError s') ∧
  (∀ (k : Z) (fs : Flujos) f,
     fs !! k = Some f → masa f = 0 →
     ∃ fs', actualizar_ley k fs = Ok tt fs' ∧ ley <$> fs' !! k = Some 0).
Proof.
  split_and!.
  - intros s' E. pose proof (_calcular_resultados_casos orden self) as H.
    rewrite E in H. done.
  - intros r s' E. pose proof (_calcular_resultados_casos orden self) as H.
    rewrite E in H. done.
  - intros id_alim H1 H2 H3 H4.
    destruct (_calcular_resultados_total orden self id_alim H1 H2 H3 H4)
      as (r & Hr & _). eauto.
  - intros k fs s'. destruct (fs !! k) as [f|] eqn:E.
    + by rewrite (actualizar_ley_eq _ _ _ E).
    + unfold actualizar_ley, attr. rewrite bind_eq, E. done.
  - intros k fs f E Hm. rewrite (actualizar_ley_eq _ _ _ E).
    eexists; split; [reflexivity|].
    rewrite lookup_alter_eq, E. cbn. unfold ley_derivada.
    rewrite Hm. by rewrite bool_decide_eq_false_2 by apply Qc_no_pos_cero.
Qed.

Lemma metricas_sin_division_por_cero_witness :
  ∃ r, _calcular_resultados elements sim_ej = Ok r sim_ej ∧
       recuperacion r = 0 ∧ mass_pull r = 0 ∧
       ley_concentrado r = 0 ∧ razon_enriquecimiento r = 0.
Proof.
  destruct (metricas_sin_division_por_cero elements sim_ej)
    as (_ & Hcero & Htotal & _).
  destruct (Htotal 1%Z) as [r Hr].
  - reflexivity.
  - vm_compute. eauto.
  - intros k Hk. vm_compute in Hk.
    repeat (apply elem_of_cons in Hk as [->|Hk]); [vm_compute; eauto ..|].
    by apply elem_of_nil in Hk.
  - intros k Hk. vm_compute in Hk.
    repeat (apply elem_of_cons in Hk as [->|Hk]); [vm_compute; eauto ..|].
    by apply elem_of_nil in Hk.
  - exists r. split; [exact Hr|].
    destruct (Hcero r sim_ej Hr)
      as (id_alim & alim & masa_conc & Hi & Ha & Hs & H1 & H2 & H3 & H4).
    vm_compute in Hi. injection Hi as <-.
    vm_compute in Ha. injection Ha as <-.
    vm_compute in Hs. injection Hs as <-.
    assert (Hmp : mass_pull r = 0) by (apply H2; reflexivity).
    split_and!; [apply H1; reflexivity|exact Hmp|apply H3; reflexivity
                |apply H4; exact Hmp].
Defined.

(** ** Totality of a pass on a well-formed circuit *)

Lemma total_ret {A} D (a : A) : total_en D (ret a).
Proof. intros fs H. by exists a, fs. Qed.

Lemma total_bind_dep {A B} D (c : M Flujos A) (k : A → M Flujos B) :
  total_en D c →
  (∀ a fs fs', c fs = Ok a fs' → total_en D (k a)) →
  total_en D (bind c k).
Proof.
  intros Hc Hk fs HD. destruct (Hc fs HD) as (a & fs1 & E & HD1).
  rewrite bind_eq, E. eapply Hk; eauto.
Qed.

Lemma total_bind {A B} D (c : M Flujos A) (k : A → M Flujos B) :
  total_en D c → (∀ a, total_en D (k a)) → total_en D (bind c k).
Proof. intros; apply total_bind_dep; auto. Qed.

Lemma en_dom (fs : Flujos) k : k ∈ dom fs → ∃ f, fs !! k = Some f.
Proof. by intros ?%elem_of_dom. Qed.

Lemma total_obtener D k : k ∈ D → total_en D (obtener k).
Proof.
  intros Hk fs <-. rewrite obtener_eq by by apply elem_of_dom. eauto.
Qed.

Lemma total_attr D r campo : r ∈ D → total_en D (attr r campo).
Proof.
  intros Hk fs <-. destruct (en_dom _ _ Hk) as [f Hf].
  rewrite (attr_eq _ _ _ _ Hf). eauto.
Qed.

Lemma dom_alter_flujos (g : Flujo → Flujo) r (fs : Flujos) :
  dom (alter g r fs) = dom fs.
Proof. apply dom_alter_L. Qed.

Lemma total_asignar D r con v : total_en D (asignar r con v).
Proof.
  intros fs <-. eexists _, _. split; [reflexivity|]. apply dom_alter_flujos.
Qed.

Lemma total_indice {A} D (l : list A) i x :
  l !! i = Some x → total_en D (indice l i).
Proof. intros H fs HD. rewrite (indice_eq _ _ _ _ H). eauto. Qed.

Lemma total_actualizar_ley D r : r ∈ D → total_en D (actualizar_ley r).
Proof.
  intros Hk fs <-. destruct (en_dom _ _ Hk) as [f Hf].
  rewrite (actualizar_ley_eq _ _ _ Hf).
  eexists _, _. split; [reflexivity|]. apply dom_alter_flujos.
Qed.

Lemma total_actualizar_contenido_fino D r :
  r ∈ D → total_en D (actualizar_contenido_fino r).
Proof.
  intros Hk fs <-. destruct (en_dom _ _ Hk) as [f Hf].
  rewrite actualizar_contenido_fino_eq, Hf.
  eexists _, _. split; [reflexivity|]. apply dom_alter_flujos.
Qed.

Lemma total_para_cada {A} D (l : list A) (cuerpo : A → M Flujos unit) :
  (∀ x, x ∈ l → total_en D (cuerpo x)) → total_en D (para_cada l cuerpo).
Proof.
  induction l as [|x l IH]; intros H; cbn.
  - apply total_ret.
  - apply total_bind; [apply H; left|].
    intros _. apply IH. intros y Hy. apply H. by right.
Qed.

Lemma presente_Some D (o : option Z) :
  presente D o → ∃ k, o = Some k ∧ k ∈ D.
Proof. destruct o; cbn; [eauto|done]. Qed.

Ltac t_hoja :=
  first [ apply total_obtener | apply total_attr | apply total_asignar
        | apply total_actualizar_ley | apply total_actualizar_contenido_fino
        | apply total_ret ]; try done.

Lemma total_calcular D e : nodo_bien_formado D e → total_en D (calcular e).
Proof.
  unfold nodo_bien_formado, calcular. destruct (cls e); [done| |].
  - intros ((id_e & He & Hde)%presente_Some & (id_c & Hc & Hdc)%presente_Some
            & (id_r & Hr & Hdr)%presente_Some & Hsf).
    destruct (split_factor e) as [|sp_masa [|sp_cuf sf]] eqn:Esf;
      cbn in Hsf; try lia.
    unfold Celda_calcular. rewrite Esf.
    apply total_bind_dep; [by eapply total_indice|].
    intros ? ? ? [? _]%indice_Ok. simplify_eq.
    apply total_bind_dep; [t_hoja|]. intros ? ? ? (_ & -> & _)%obtener_Ok.
    apply total_bind; [t_hoja|intros _].
    apply total_bind_dep; [by eapply total_indice|].
    intros ? ? ? [? _]%indice_Ok. simplify_eq.
    apply total_bind_dep; [t_hoja|]. intros ? ? ? (_ & -> & _)%obtener_Ok.
    apply total_bind_dep; [by eapply total_indice|].
    intros ? ? ? [? _]%indice_Ok. simplify_eq.
    apply total_bind_dep; [t_hoja|]. intros ? ? ? (_ & -> & _)%obtener_Ok.
    apply total_bind; [by eapply total_indice|intros ?].
    apply total_bind; [by eapply total_indice|intros ?].
    repeat first [ t_hoja | apply total_bind; [|intros ?] ].
  - intros ((id_s & Hs & Hds)%presente_Some & Hin).
    rewrite Forall_forall in Hin.
    unfold Suma_calcular.
    apply total_bind_dep; [by eapply total_indice|].
    intros ? ? ? [? _]%indice_Ok. simplify_eq.
    apply total_bind_dep; [t_hoja|]. intros ? ? ? (_ & -> & _)%obtener_Ok.
    apply total_bind; [t_hoja|intros _].
    apply total_bind; [t_hoja|intros _].
    apply total_bind; [|intros _; t_hoja].
    apply total_para_cada. intros k Hk. specialize (Hin k Hk).
    apply total_bind_dep; [t_hoja|]. intros ? ? ? (_ & -> & _)%obtener_Ok.
    repeat first [ t_hoja | apply total_bind; [|intros ?] ].
Qed.

Global Instance mismo_circuito_preorder : PreOrder mismo_circuito.
Proof.
  split.
  - intros s. by repeat split.
  - intros s1 s2 s3. unfold mismo_circuito. intros H12 H23.
    destruct_and!. split_and!; congruence.
Qed.

Lemma paso_nodo (s : Simulador) (kv : string * Equipo) :
  nodo_bien_formado (dom (flujos s)) kv.2 →
  ∃ s', (registrar kv.1 >> en_flujos (calcular kv.2)) s = Ok tt s' ∧
        mismo_circuito s s' ∧ traza s' = traza s ++ [kv.1].
Proof.
  intros H. rewrite bind_eq. unfold registrar, en_flujos. cbn.
  destruct (total_calcular _ _ H (flujos s) eq_refl) as ([] & fs' & E & HD).
  rewrite E. eexists. split; [reflexivity|]. by repeat split.
Qed.

Lemma pasada_lista (l : Equipos) (s : Simulador) :
  Forall (λ kv : string * Equipo, nodo_bien_formado (dom (flujos s)) kv.2) l →
  ∃ s', para_cada l (λ kv, registrar kv.1 >> en_flujos (calcular kv.2)) s
          = Ok tt s' ∧
        mismo_circuito s s' ∧ traza s' = traza s ++ claves l.
Proof.
  revert s. induction l as [|kv l IH]; intros s H; cbn.
  - exists s. split_and!; [done|reflexivity|by rewrite app_nil_r].
  - apply Forall_cons in H as [Hkv Hl].
    destruct (paso_nodo s kv Hkv) as (s1 & E1 & Hc1 & Ht1).
    rewrite bind_eq, E1.
    destruct (IH s1) as (s2 & E2 & Hc2 & Ht2).
    { destruct Hc1 as (_ & _ & _ & _ & _ & _ & _ & ->). done. }
    exists s2. split_and!; [done|by etrans|].
    rewrite Ht2, Ht1, <- app_assoc. done.
Qed.

Lemma pasadas_repetidas (l : list nat) (s : Simulador) :
  Forall (λ kv : string * Equipo, nodo_bien_formado (dom (flujos s)) kv.2)
         (equipos s) →
  ∃ s', para_cada l (λ _, ejecutar_iteracion) s = Ok tt s' ∧
        mismo_circuito s s' ∧
        traza s' = traza s ++ mjoin (replicate (length l) (claves (equipos s))).
Proof.
  revert s. induction l as [|i l IH]; intros s H; cbn.
  - exists s. split_and!; [done|reflexivity|by rewrite app_nil_r].
  - destruct (pasada_lista (equipos s) s H) as (s1 & E1 & Hc1 & Ht1).
    rewrite bind_eq. unfold ejecutar_iteracion at 1. rewrite E1.
    destruct (IH s1) as (s2 & E2 & Hc2 & Ht2).
    { destruct Hc1 as (-> & _ & _ & _ & _ & _ & _ & ->). done. }
    exists s2. split_and!; [done|by etrans|].
    destruct Hc1 as (Heq & _). rewrite Ht2, Ht1, Heq, <- app_assoc. done.
Qed.

(** ** Two runs of a node on stores that agree on what it reads *)

Lemma concuerdan_mono X Y fs gs : X ⊆ Y → concuerdan X fs gs → concuerdan Y fs gs.
Proof.
  intros HXY H k. specialize (H k).
  destruct (fs !! k), (gs !! k); try done.
  destruct H as (? & ? & H). split_and!; [done..|].
  intros c Hc. apply H. set_solver.
Qed.

Lemma simula_consecuencia {A} X X' Y Y' (c : M Flujos A) :
  simula X Y c → X' ⊆ X → Y ⊆ Y' → simula X' Y' c.
Proof.
  intros H HX HY fs gs Hc. specialize (H fs gs (concuerdan_mono _ _ _ _ HX Hc)).
  destruct (c fs), (c gs); try done.
  destruct H as [-> H]. split; [done|]. by eapply concuerdan_mono.
Qed.

Lemma simula_ret {A} X (a : A) : simula X X (ret a).
Proof. intros fs gs H. by cbn. Qed.

Lemma simula_raise {A} X Y e : simula X Y (raise (A:=A) e).
Proof. intros fs gs H. by cbn. Qed.

Lemma simula_bind_dep {A B} X Y Z (c : M Flujos A) (k : A → M Flujos B) :
  simula X Y c →
  (∀ a fs fs', c fs = Ok a fs' → simula Y Z (k a)) →
  simula X Z (bind c k).
Proof.
  intros Hc Hk fs gs H. rewrite !bind_eq. specialize (Hc fs gs H).
  destruct (c fs) as [a fs'|e fs'] eqn:E1, (c gs) as [b gs'|e' gs'] eqn:E2;
    try done.
  destruct Hc as [<- Hc]. eapply Hk; eauto.
Qed.

Lemma simula_bind {A B} X Y Z (c : M Flujos A) (k : A → M Flujos B) :
  simula X Y c → (∀ a, simula Y Z (k a)) → simula X Z (bind c k).
Proof. intros; eapply simula_bind_dep; eauto. Qed.

Lemma simula_indice {A} X (l : list A) i : simula X X (indice l i).
Proof. unfold indice. destruct (l !! i); [apply simula_ret|apply simula_raise]. Qed.

Lemma simula_dividir X a b : simula X X (dividir a b).
Proof. unfold dividir. case_decide; [apply simula_raise|apply simula_ret]. Qed.

Lemma simula_obtener X k : simula X X (obtener k).
Proof.
  intros fs gs H. unfold obtener. pose proof (H k) as Hk.
  destruct (fs !! k), (gs !! k); done.
Qed.

Lemma simula_attr X r c : (r, c) ∉ X → simula X X (attr r (leer c)).
Proof.
  intros Hr fs gs H. unfold attr. pose proof (H r) as Hk.
  destruct (fs !! r), (gs !! r); try done.
  destruct Hk as (_ & _ & Hk). split; [by apply Hk|done].
Qed.

Lemma leer_con_de c c' v f :
  leer c (con_de c' v f) = if decide (c = c') then v else leer c f.
Proof. by destruct c, c', f. Qed.

Lemma simula_asignar X r c v :
  simula X (X ∖ {[(r, c)]}) (asignar r (con_de c) v).
Proof.
  intros fs gs H. cbn. split; [done|]. intros k. specialize (H k).
  destruct (decide (k = r)) as [->|Hne].
  - rewrite !lookup_alter_eq.
    destruct (fs !! r) as [f|], (gs !! r) as [g|]; cbn; try done.
    destruct H as (Hid & Hn & H). split_and!.
    + by destruct c, f, g.
    + by destruct c, f, g.
    + intros c' Hc'. rewrite !leer_con_de. case_decide; [done|].
      apply H. set_solver.
  - rewrite !lookup_alter_ne by done.
    destruct (fs !! k) as [f|], (gs !! k) as [g|]; cbn; try done.
    destruct H as (Hid & Hn & H). split_and!; [done..|].
    intros c' Hc'. apply H. set_solver.
Qed.

Lemma simula_para_cada {A} X (l : list A) (cuerpo : A → M Flujos unit) :
  (∀ x, x ∈ l → simula X X (cuerpo x)) → simula X X (para_cada l cuerpo).
Proof.
  induction l as [|x l IH]; intros H; cbn.
  - apply simula_ret.
  - eapply simula_bind; [apply H; left|].
    intros _. apply IH. intros y Hy. apply H. by right.
Qed.

Lemma simula_actualizar_ley X r :
  (r, CMasa) ∉ X → (r, CFino) ∉ X →
  simula X (X ∖ {[(r, CLey)]}) (actualizar_ley r).
Proof.
  intros Hm Hf. unfold actualizar_ley.
  eapply simula_bind; [by apply (simula_attr _ _ CMasa)|intros m].
  case_bool_decide; [|apply (simula_asignar _ _ CLey)].
  eapply simula_bind; [by apply (simula_attr _ _ CFino)|intros ?].
  eapply simula_bind; [by apply (simula_attr _ _ CMasa)|intros ?].
  eapply simula_bind; [apply simula_dividir|intros ?].
  apply (simula_asignar _ _ CLey).
Qed.

Lemma simula_actualizar_contenido_fino X r :
  (r, CMasa) ∉ X → (r, CLey) ∉ X →
  simula X (X ∖ {[(r, CFino)]}) (actualizar_contenido_fino r).
Proof.
  intros Hm Hl. unfold actualizar_contenido_fino.
  eapply simula_bind; [by apply (simula_attr _ _ CMasa)|intros m].
  eapply simula_bind; [by apply (simula_attr _ _ CLey)|intros l].
  apply (simula_asignar _ _ CFino).
Qed.

Lemma elem_of_todos ks k c : (k, c) ∈ todos ks ↔ k ∈ ks.
Proof.
  unfold todos. rewrite elem_of_list_to_set, list_elem_of_bind. split.
  - intros (k' & Hin & Hk').
    repeat (apply elem_of_cons in Hin as [[= -> _]|Hin]; [done|]).
    by apply elem_of_nil in Hin.
  - intros Hk. exists k. split; [|done]. destruct c; set_solver.
Qed.

Lemma take_1_lookup {A} (l : list A) a : l !! 0%nat = Some a → take 1 l = [a].
Proof. destruct l as [|x l]; [done|]. cbn. rewrite take_0. by intros [= ->]. Qed.

Lemma take_2_lookup {A} (l : list A) a b :
  l !! 0%nat = Some a → l !! 1%nat = Some b → take 2 l = [a; b].
Proof.
  destruct l as [|x [|y l]]; try done. cbn. rewrite take_0.
  by intros [= ->] [= ->].
Qed.

Lemma simula_Celda X e :
  (∀ k c, k ∈ flujos_entrada e → (k, c) ∉ X) →
  simula X (X ∖ todos (take 2 (flujos_salida e))) (Celda_calcular e).
Proof.
  intros Hin. unfold Celda_calcular.
  eapply simula_bind_dep; [apply simula_indice|].
  intros id_e ? ? [He%list_elem_of_lookup_2 _]%indice_Ok.
  pose proof (Hin id_e CMasa He) as HeM. pose proof (Hin id_e CLey He) as HeL.
  eapply simula_bind_dep; [apply simula_obtener|].
  intros ? ? ? (_ & -> & _)%obtener_Ok.
  eapply simula_bind; [by apply simula_actualizar_contenido_fino|intros _].
  eapply simula_bind_dep; [apply simula_indice|].
  intros id_c ? ? [Hc _]%indice_Ok.
  eapply simula_bind_dep; [apply simula_obtener|].
  intros ? ? ? (_ & -> & _)%obtener_Ok.
  eapply simula_bind_dep; [apply simula_indice|].
  intros id_r ? ? [Hr _]%indice_Ok.
  eapply simula_bind_dep; [apply simula_obtener|].
  intros ? ? ? (_ & -> & _)%obtener_Ok.
  eapply simula_bind; [apply simula_indice|intros sp_masa].
  eapply simula_bind; [apply simula_indice|intros sp_cuf].
  rewrite (take_2_lookup _ _ _ Hc Hr).
  eapply simula_consecuencia; [|reflexivity|].
  - eapply simula_bind; [apply (simula_attr _ _ CMasa); set_solver|intros ?].
    eapply simula_bind; [apply (simula_asignar _ _ CMasa)|intros _].
    eapply simula_bind; [apply (simula_attr _ _ CMasa); set_solver|intros ?].
    eapply simula_bind; [apply (simula_asignar _ _ CMasa)|intros _].
    eapply simula_bind; [apply (simula_attr _ _ CFino); set_solver|intros ?].
    eapply simula_bind; [apply (simula_asignar _ _ CFino)|intros _].
    eapply simula_bind; [apply (simula_attr _ _ CFino); set_solver|intros ?].
    eapply simula_bind; [apply (simula_asignar _ _ CFino)|intros _].
    eapply simula_bind; [apply simula_actualizar_ley; set_solver|intros _].
    apply simula_actualizar_ley; set_solver.
  - unfold todos. cbn. intros [k c]. destruct c; set_solver.
Qed.

Lemma simula_Suma X e :
  (∀ k c, k ∈ flujos_entrada e → (k, c) ∉ X) →
  simula X (X ∖ todos (take 1 (flujos_salida e))) (Suma_calcular e).
Proof.
  intros Hin. unfold Suma_calcular.
  eapply simula_bind_dep; [apply simula_indice|].
  intros id_s ? ? [Hs _]%indice_Ok.
  eapply simula_bind_dep; [apply simula_obtener|].
  intros ? ? ? (_ & -> & _)%obtener_Ok.
  rewrite (take_1_lookup _ _ Hs).
  eapply simula_consecuencia; [|reflexivity|].
  - eapply simula_bind; [apply (simula_asignar _ _ CMasa)|intros _].
    eapply simula_bind; [apply (simula_asignar _ _ CFino)|intros _].
    eapply simula_bind; [apply simula_para_cada; intros k Hk
                        |intros _; apply simula_actualizar_ley; set_solver].
    pose proof (Hin k CMasa Hk) as HkM. pose proof (Hin k CFino Hk) as HkF.
    eapply simula_bind_dep; [apply simula_obtener|].
    intros ? ? ? (_ & -> & _)%obtener_Ok.
    eapply simula_consecuencia; [|reflexivity|].
    + eapply simula_bind; [apply (simula_attr _ _ CMasa); set_solver|intros ?].
      eapply simula_bind; [apply (simula_attr _ _ CMasa); set_solver|intros ?].
      eapply simula_bind; [apply (simula_asignar _ _ CMasa)|intros _].
      eapply simula_bind; [apply (simula_attr _ _ CFino); set_solver|intros ?].
      eapply simula_bind; [apply (simula_attr _ _ CFino); set_solver|intros ?].
      apply (simula_asignar _ _ CFino).
    + set_solver.
  - unfold todos. cbn. intros [k c]. destruct c; set_solver.
Qed.

Lemma simula_calcular X e :
  (∀ k c, k ∈ flujos_entrada e → (k, c) ∉ X) →
  simula X (X ∖ todos (escritos e)) (calcular e).
Proof.
  intros Hin. unfold calcular, escritos. destruct (cls e).
  - apply simula_raise.
  - by apply simula_Celda.
  - by apply simula_Suma.
Qed.

(** ** A pass over an acyclic circuit reaches a fixed point *)

Lemma marco_mono W W' E E' fs fs' :
  (∀ k, k ∈ W → k ∈ W') → (∀ k, k ∈ E → k ∈ E') →
  marco W E fs fs' → marco W' E' fs fs'.
Proof.
  intros HW HE H k. destruct (H k) as [F M]. split; [done|].
  intros Hk. destruct M as [?|[? ?]]; auto.
Qed.

Lemma marco_pasada l :
  respeta (marco (producidos l) (entradas_celdas l)) (pasada l).
Proof.
  unfold pasada. apply respeta_para_cada; [apply _|].
  intros kv Hkv fs.
  eapply marco_mono; [| |apply marco_calcular].
  - intros k Hk. unfold producidos. apply list_elem_of_bind.
    exists kv.2. split; [done|]. apply list_elem_of_fmap. eauto.
  - intros k Hk. unfold entradas_celdas. apply list_elem_of_bind.
    exists kv.2. split; [done|]. apply list_elem_of_fmap. eauto.
Qed.

Lemma aciclico_entradas kv l :
  aciclico (kv :: l) →
  ∀ k c, k ∈ flujos_entrada kv.2 → (k, c) ∉ todos (producidos (kv :: l)).
Proof.
  intros [H _] k c Hk. rewrite Forall_forall in H.
  destruct (H k Hk) as [Hs Hl]. rewrite Forall_forall in Hl.
  rewrite elem_of_todos. unfold producidos. cbn.
  rewrite elem_of_app. intros [Hin|Hin].
  - by apply escritos_salida in Hin.
  - apply list_elem_of_bind in Hin as (e & He & Hin).
    apply list_elem_of_fmap in Hin as (kv' & -> & Hin).
    apply escritos_salida in He. by apply (Hl kv').
Qed.

Lemma simula_pasada l :
  aciclico l → simula (todos (producidos l)) ∅ (pasada l).
Proof.
  induction l as [|kv l IH]; intros Hac.
  - unfold pasada. cbn. eapply simula_consecuencia; [apply simula_ret|done..].
  - unfold pasada. cbn. fold (pasada l).
    eapply simula_bind; [|intros _; apply IH, Hac].
    eapply simula_consecuencia;
      [apply simula_calcular, (aciclico_entradas _ _ Hac)|done|].
    intros [k c]. rewrite elem_of_difference, !elem_of_todos.
    unfold producidos. cbn. rewrite elem_of_app. fold (producidos l).
    tauto.
Qed.

Lemma concuerdan_vacio fs gs : concuerdan ∅ fs gs → fs = gs.
Proof.
  intros H. apply map_eq. intros k. specialize (H k).
  destruct (fs !! k) as [f|], (gs !! k) as [g|]; try done.
  destruct H as (Hid & Hn & H). f_equal.
  pose proof (H CMasa (not_elem_of_empty _)) as HM.
  pose proof (H CLey (not_elem_of_empty _)) as HL.
  pose proof (H CFino (not_elem_of_empty _)) as HF.
  destruct f, g. cbn in *. congruence.
Qed.

Lemma alimentacion_derivada_reescrito l fs k f :
  alimentacion_derivada l fs →
  k ∈ entradas_celdas l → k ∉ producidos l → fs !! k = Some f →
  reescrito f = f.
Proof.
  intros H Hk Hn Hf. unfold alimentacion_derivada in H.
  rewrite Forall_forall in H. destruct (H k Hk) as [?|Hc]; [done|].
  rewrite Hf in Hc. destruct f. unfold reescrito, con_contenido_fino.
  cbn in *. by rewrite <- Hc.
Qed.

Lemma concuerdan_tras_pasada l fs :
  alimentacion_derivada l fs →
  concuerdan (todos (producidos l)) fs (estado_final (pasada l fs)).
Proof.
  intros Hal k. destruct (marco_pasada l fs k) as [F M].
  destruct (fs !! k) as [f|] eqn:Ef,
    (estado_final (pasada l fs) !! k) as [g|] eqn:Eg; try done.
  destruct F as [Hid Hn]. split_and!; [done..|].
  intros c Hc. rewrite elem_of_todos in Hc.
  destruct (M Hc) as [[= ->]|[Hk [= ->]]]; [done|].
  by rewrite (alimentacion_derivada_reescrito l fs k f).
Qed.

Lemma pasada_punto_fijo l fs fs1 :
  aciclico l → alimentacion_derivada l fs →
  pasada l fs = Ok tt fs1 → pasada l fs1 = Ok tt fs1.
Proof.
  intros Hac Hal E.
  pose proof (concuerdan_tras_pasada l fs Hal) as Hc. rewrite E in Hc. cbn in Hc.
  pose proof (simula_pasada l Hac fs fs1 Hc) as Hs. rewrite E in Hs.
  destruct (pasada l fs1) as [[] fs2|]; [|done].
  destruct Hs as [_ Hs%concuerdan_vacio]. by subst.
Qed.

(** ** From the flow dictionary to the simulator *)

Lemma nodos_pasada (l : Equipos) (s : Simulador) :
  match para_cada l (λ kv, registrar kv.1 >> en_flujos (calcular kv.2)) s,
        pasada l (flujos s) with
  | Ok _ s', Ok _ fs' =>
      s' = con_traza (traza s ++ claves l) (con_flujos fs' s)
  | Raise e _, Raise e' _ => e = e'
  | _, _ => False
  end.
Proof.
  revert s. induction l as [|kv l IH]; intros s.
  - cbn. rewrite app_nil_r. by destruct s.
  - unfold pasada. cbn. fold (pasada l). rewrite !bind_eq.
    unfold registrar at 1. cbn. unfold en_flujos at 1. cbn.
    destruct (calcular kv.2 (flujos s)) as [[] fs1|e fs1]; [|done].
    specialize (IH (con_flujos fs1 (con_traza (traza s ++ [kv.1]) s))).
    cbn in IH.
    destruct (para_cada l _ _) as [[] s2|e s2], (pasada l fs1) as [[] fs2|e' fs2];
      try done.
    rewrite IH, <- app_assoc. done.
Qed.

Lemma iteraciones_pasadas (l : list nat) (s : Simulador) :
  match para_cada l (λ _, ejecutar_iteracion) s,
        para_cada l (λ _, pasada (equipos s)) (flujos s) with
  | Ok _ s', Ok _ fs' =>
      s' = con_traza
             (traza s ++ mjoin (replicate (length l) (claves (equipos s))))
             (con_flujos fs' s)
  | Raise e _, Raise e' _ => e = e'
  | _, _ => False
  end.
Proof.
  revert s. induction l as [|i l IH]; intros s.
  - cbn. rewrite app_nil_r. by destruct s.
  - cbn. rewrite !bind_eq. unfold ejecutar_iteracion at 1.
    pose proof (nodos_pasada (equipos s) s) as H1.
    destruct (para_cada (equipos s) _ s) as [[] s1|e s1],
      (pasada (equipos s) (flujos s)) as [[] fs1|e' fs1]; try done.
    subst s1.
    specialize (IH (con_traza (traza s ++ claves (equipos s))
                      (con_flujos fs1 s))).
    cbn in IH.
    destruct (para_cada l (λ _, ejecutar_iteracion) _) as [[] s2|e s2],
      (para_cada l _ fs1) as [[] fs2|e' fs2]; try done.
    rewrite IH, <- app_assoc. done.
Qed.

Lemma pasadas_punto_fijo (l : list nat) eqs fs1 :
  pasada eqs fs1 = Ok tt fs1 →
  para_cada l (λ _, pasada eqs) fs1 = Ok tt fs1.
Proof.
  intros H. induction l as [|i l IH]; [done|].
  cbn. by rewrite bind_eq, H.
Qed.

Lemma pasadas_aciclico (l : list nat) eqs fs :
  aciclico eqs → alimentacion_derivada eqs fs → l ≠ [] →
  para_cada l (λ _, pasada eqs) fs = pasada eqs fs.
Proof.
  intros Hac Hal Hl. destruct l as [|i l]; [done|].
  cbn. rewrite bind_eq.
  destruct (pasada eqs fs) as [[] fs1|e fs1] eqn:E; [|done].
  apply pasadas_punto_fijo. by eapply pasada_punto_fijo.
Qed.

Lemma _calcular_resultados_ext orden (s s' : Simulador) :
  flujos s = flujos s' → f_entrada s = f_entrada s' →
  f_salida s = f_salida s' → f_salida_conc s = f_salida_conc s' →
  resultado_de (_calcular_resultados orden s)
    = resultado_de (_calcular_resultados orden s').
Proof.
  intros H1 H2 H3 H4. unfold _calcular_resultados, en_flujos.
  rewrite H1, H2, H3, H4.
  by destruct (bind _ _ (flujos s')).
Qed.

Lemma simular_por_pasadas orden (s : Simulador) :
  resultado_de (simular orden s) =
  match para_cada (rango (iteraciones_convergencia s))
                  (λ _, pasada (equipos s)) (flujos s) with
  | Ok _ fs' => resultado_de (_calcular_resultados orden (con_flujos fs' s))
  | Raise e _ => inl e
  end.
Proof.
  unfold simular. rewrite bind_eq.
  pose proof (iteraciones_pasadas (rango (iteraciones_convergencia s)) s) as H.
  destruct (para_cada _ (λ _, ejecutar_iteracion) s) as [[] s1|e s1],
    (para_cada _ (λ _, pasada (equipos s)) (flujos s)) as [[] fs1|e' fs1];
    try done; [|by subst].
  subst s1. by apply _calcular_resultados_ext.
Qed.

Lemma sumar_solo_lee ids campo : respeta eq (sumar ids campo).
Proof.
  unfold sumar. generalize (Q2Qc 0).
  induction ids as [|i ids IH]; intros acc; cbn; [r_hoja|].
  repeat (r_seq; [r_hoja|intros ?]). apply IH.
Qed.

Lemma _calcular_resultados_estado orden (s : Simulador) :
  estado_final (_calcular_resultados orden s) = s.
Proof.
  unfold _calcular_resultados, en_flujos.
  match goal with |- context [bind ?c ?k (flujos s)] =>
    assert (H : respeta eq (bind c k)) end.
  { repeat first
      [ r_hoja
      | apply sumar_solo_lee
      | r_seq; [|intros ?]
      | case_bool_decide ].
    intros fs; reflexivity. }
  specialize (H (flujos s)).
  destruct (bind _ _ (flujos s)) as [r fs|e fs]; cbn in *; subst;
    apply con_flujos_id.
Qed.

(** C4.  [Simulador.__init__] takes 100 as the default pass count.
    Whenever [simular] returns, it has made exactly
    [iteraciones_convergencia] passes and nothing else before the metrics:
    the flows it leaves are the initial flows after that many passes, each
    pass being [calcular] of every node, once, in the order of the node
    dictionary; the call trace has grown by that many copies of the key
    list; and the result is the record [_calcular_resultados] computes from
    those flows, whether or not a further pass would still change them.  On
    a structurally well-formed circuit [simular] does return;
    well-formedness never looks at the values of the flows, so no distance
    from the steady state makes it raise. *)
Theorem simular_pasadas_fijas (orden : gset Z → list Z) :
  (∀ eqs fs rel,
     iteraciones_convergencia (Simulador_init eqs fs rel None) = 100%Z) ∧
  (∀ (self : Simulador) r s',
     simular orden self = Ok r s' →
     ∃ fs',
       para_cada (rango (iteraciones_convergencia self))
         (λ _, para_cada (equipos self) (λ kv, calcular kv.2)) (flujos self)
         = Ok tt fs' ∧
       s' = con_traza
              (traza self ++
               mjoin (replicate (Z.to_nat (iteraciones_convergencia self))
                                (claves (equipos self))))
              (con_flujos fs' self) ∧
       _calcular_resultados orden s' = Ok r s') ∧
  (∀ self : Simulador,
     circuito_bien_formado orden self →
     ∃ r s', simular orden self = Ok r s').
Proof.
  split_and!.
  - intros eqs fs rel. unfold Simulador_init.
    by destruct (identificar_flujos_globales eqs rel) as [[[? ?] ?] ?].
  - intros self r s' H. unfold simular in H.
    apply bind_Ok in H as ([] & s1 & E1 & E2).
    pose proof (iteraciones_pasadas (rango (iteraciones_convergencia self)) self)
      as Hp.
    rewrite E1 in Hp. unfold pasada in Hp.
    destruct (para_cada _ (λ _, para_cada (equipos self) _) (flujos self))
      as [[] fs1|e fs1]; [|done].
    pose proof (_calcular_resultados_estado orden s1) as Hs.
    rewrite E2 in Hs. cbn in Hs. subst s'.
    exists fs1. split; [done|]. split; [|done].
    rewrite Hp. unfold rango. by rewrite length_seq.
  - intros self (Hn & (id_alim & Hi & Ha)%presente_Some & Hc & Hs).
    unfold simular. rewrite bind_eq.
    destruct (pasadas_repetidas (rango (iteraciones_convergencia self)) self Hn)
      as (s1 & E1 & Hm & Ht).
    rewrite E1.
    destruct Hm as (_ & _ & _ & Hfe & Hfs & Hfc & _ & HD).
    destruct (_calcular_resultados_total orden s1 id_alim) as (r & Er & _).
    + by rewrite Hfe.
    + apply elem_of_dom. by rewrite HD.
    + rewrite Hfc. intros k Hk. apply elem_of_dom. rewrite HD.
      rewrite Forall_forall in Hc. auto.
    + rewrite Hfs. intros k Hk. apply elem_of_dom. rewrite HD.
      rewrite Forall_forall in Hs. auto.
    + by exists r, s1.
Qed.

(** The recycle circuit after its two passes: the concentrate holds 75 of
    the 100 fed, a third pass would raise it further, and the record
    reports the mass that is still missing. *)
Lemma simular_pasadas_fijas_witness :
  ∃ r s' fs' f3,
    simular elements sim_reciclo = Ok r s' ∧
    para_cada (rango (iteraciones_convergencia sim_reciclo))
      (λ _, para_cada (equipos sim_reciclo) (λ kv, calcular kv.2))
      (flujos sim_reciclo) = Ok tt fs' ∧
    s' = con_traza
           (traza sim_reciclo ++
            mjoin (replicate (Z.to_nat (iteraciones_convergencia sim_reciclo))
                             (claves (equipos sim_reciclo))))
           (con_flujos fs' sim_reciclo) ∧
    _calcular_resultados elements s' = Ok r s' ∧
    traza s' = ["Mezcla"; "Celda"; "Mezcla"; "Celda"] ∧
    fs' !! 3%Z = Some f3 ∧ masa f3 = Qc_de_Z 75 ∧
    error_masa r = Qc_de_Z 25.
Proof.
  destruct (simular_pasadas_fijas elements) as (_ & Hpasadas & Htotal).
  destruct (Htotal sim_reciclo) as (r & s' & E).
  { apply (bool_decide_unpack (circuito_bien_formado elements sim_reciclo)).
    vm_compute. exact I. }
  destruct (Hpasadas sim_reciclo r s' E) as (fs' & Ep & Es & Er).
  assert (∃ f3, fs' !! 3%Z = Some f3 ∧ masa f3 = Qc_de_Z 75) as (f3 & H3 & Hm).
  { pose proof Ep as Ep'. vm_compute in Ep'. injection Ep' as <-.
    eexists. split; [vm_compute; reflexivity|].
    apply Qc_is_canon. vm_compute. reflexivity. }
  assert (error_masa r = Qc_de_Z 25) as He.
  { pose proof E as E'. vm_compute in E'. injection E' as <- _.
    apply Qc_is_canon. vm_compute. reflexivity. }
  exists r, s', fs', f3.
  split; [exact E|]. split; [exact Ep|]. split; [exact Es|].
  split; [exact Er|]. split; [|split; [exact H3|split; [exact Hm|exact He]]].
  rewrite Es. reflexivity.
Defined.

Lemma Simulador_init_campos eqs fs rel n :
  let s := Simulador_init eqs fs rel n in
  equipos s = eqs ∧ flujos s = fs ∧
  iteraciones_convergencia s = default iteraciones_por_defecto n ∧
  (f_entrada s, f_salida s, f_salida_conc s, f_internos s)
    = identificar_flujos_globales eqs rel.
Proof.
  unfold Simulador_init.
  by destruct (identificar_flujos_globales eqs rel) as [[[? ?] ?] ?].
Qed.

(** Feed settings leave the flows derived: a [Flujo(id=k)] is, and
    [establecer_alimentacion] keeps every flow so. *)

Lemma Flujo_nuevo_derivado k : derivado (Flujo_nuevo k).
Proof. unfold derivado. cbn. apply Qc_is_canon. vm_compute. reflexivity. Qed.

Lemma todos_derivados (l : Equipos) (fs : Flujos) :
  (∀ k f, fs !! k = Some f → derivado f) → alimentacion_derivada l fs.
Proof.
  intros H. unfold alimentacion_derivada. apply Forall_forall. intros k _.
  right. destruct (fs !! k) as [f|] eqn:E; [|done]. by apply (H k).
Qed.

Lemma establecer_alimentacion_deja_derivado (self : Simulador) id m l :
  (∀ k f, flujos self !! k = Some f → derivado f) →
  ∀ k f,
    flujos (estado_final (establecer_alimentacion id m l self)) !! k = Some f →
    derivado f.
Proof.
  intros H k f. unfold establecer_alimentacion.
  destruct (decide (is_Some (flujos self !! id))) as [[f0 Hf]|Hn];
    [|cbn; apply H].
  unfold en_flujos.
  rewrite bind_eq, obtener_eq by eauto.
  rewrite bind_eq. unfold asignar at 1.
  rewrite bind_eq, obtener_eq by (rewrite lookup_alter_eq, Hf; eauto).
  rewrite bind_eq. unfold asignar at 1.
  rewrite bind_eq, obtener_eq by (rewrite !lookup_alter_eq, Hf; eauto).
  rewrite actualizar_contenido_fino_eq, !lookup_alter_eq, Hf. cbn.
  destruct (decide (k = id)) as [->|Hne].
  - rewrite !lookup_alter_eq, Hf. cbn. intros [= <-]. reflexivity.
  - rewrite !lookup_alter_ne by done. apply H.
Qed.

(** C5.  Take a circuit without recycle: no flow is an output of a node and
    an input of that node or of a node computed before it.  Take initial
    flows as feed settings leave them: every flow that feeds a cell and that
    no node writes has its fine content equal to mass * grade / 100, as after
    [establecer_alimentacion], after the feed loop of a Monte Carlo trial,
    and in a [Flujo(id=k)] that was never fed.  Then [simular] gives the
    caller the same outcome, the same result record or the same exception,
    with any pass count [n >= 1] as with one pass. *)
Theorem simular_aciclico_una_pasada
    (orden : gset Z → list Z) (eqs : Equipos) (fs : Flujos)
    (rel : option (gset Z)) (n : Z) :
  (1 ≤ n)%Z → aciclico eqs → alimentacion_derivada eqs fs →
  resultado_de (simular orden (Simulador_init eqs fs rel (Some n)))
    = resultado_de (simular orden (Simulador_init eqs fs rel (Some 1%Z))).
Proof.
  intros Hn Hac Hal. rewrite !simular_por_pasadas.
  destruct (Simulador_init_campos eqs fs rel (Some n)) as (E1 & E2 & E3 & E4).
  destruct (Simulador_init_campos eqs fs rel (Some 1%Z)) as (F1 & F2 & F3 & F4).
  rewrite E1, E2, E3, F1, F2, F3. cbn [default].
  rewrite !pasadas_aciclico; try done.
  - destruct (pasada eqs fs) as [[] fs1|e fs1]; [|reflexivity].
    apply _calcular_resultados_ext; reflexivity.
  - unfold rango, id. destruct (Z.to_nat n) eqn:E; [lia|done].
Qed.

Lemma simular_aciclico_una_pasada_witness :
  resultado_de (simular elements
     (Simulador_init [("Celda", celda_ej)] (flujos sim_alimentado)
        (Some {[3%Z]}) (Some 1000%Z)))
  = resultado_de (simular elements
     (Simulador_init [("Celda", celda_ej)] (flujos sim_alimentado)
        (Some {[3%Z]}) (Some 1%Z))).
Proof.
  apply (simular_aciclico_una_pasada elements [("Celda", celda_ej)]
           (flujos sim_alimentado) (Some {[3%Z]}) 1000).
  - lia.
  - apply (bool_decide_unpack (aciclico [("Celda", celda_ej)])).
    vm_compute. exact I.
  - apply todos_derivados. unfold sim_alimentado.
    apply establecer_alimentacion_deja_derivado.
    intros k f Hk.
    assert (f = Flujo_nuevo k) as ->; [|apply Flujo_nuevo_derivado].
    revert Hk. change (flujos sim_ej) with flujos_ej. unfold flujos_ej.
    rewrite !lookup_insert_Some, lookup_empty.
    intros [[<- <-]|[_ [[<- <-]|[_ [[<- <-]|[_ [=]]]]]]]; reflexivity.
Defined.

(** ** Monte Carlo: targets that are not in the circuit *)

Lemma bind_ext {S A B} (c : M S A) (k k' : A → M S B) s :
  (∀ a s', k a s' = k' a s') → bind c k s = bind c k' s.
Proof. intros H. rewrite !bind_eq. by destruct (c s). Qed.

Lemma para_cada_ext {S A} (l : list A) (f g : A → M S unit) s :
  (∀ x s', f x s' = g x s') → para_cada l f s = para_cada l g s.
Proof.
  intros H. revert s. induction l as [|x l IH]; intros s; [done|].
  cbn. rewrite !bind_eq, H. by destruct (g x s).
Qed.

Lemma dict_get_alter {V} (g : V → V) k n (d : list (string * V)) :
  dict_get n (dict_alter g k d)
  = (if decide (n = k) then g else id) <$> dict_get n d.
Proof.
  induction d as [|[k' v] d IH]; [done|].
  cbn. repeat (case_decide; cbn; subst); try done.
Qed.

Lemma dict_get_alter_is_Some {V} (g : V → V) k n (d : list (string * V)) :
  is_Some (dict_get n (dict_alter g k d)) ↔ is_Some (dict_get n d).
Proof. rewrite dict_get_alter. apply fmap_is_Some. Qed.

Section MonteCarloProps.
Context (orden : gset Z → list Z) (Rng : Type)
        (uniform : Qc → Qc → Rng → Qc * Rng).

Lemma sortear_sin_ausentes (eqs0 : Equipos) config config' objetivo :
  rangos config' = rangos config →
  ∀ equipos_mc split_info st,
    (∀ n, is_Some (dict_get n equipos_mc) ↔ is_Some (dict_get n eqs0)) →
    sortear Rng uniform config objetivo equipos_mc split_info st
    = sortear Rng uniform config'
        (filter (λ n, is_Some (dict_get n eqs0)) objetivo)
        equipos_mc split_info st.
Proof.
  intros Hr. induction objetivo as [|nombre resto IH];
    intros equipos_mc split_info st Hk; [done|].
  cbn [sortear]. rewrite filter_cons.
  destruct (decide (is_Some (dict_get nombre equipos_mc))) as [Hs|Hn].
  - rewrite decide_True by by apply Hk. cbn [sortear].
    rewrite decide_True by done. rewrite Hr.
    repeat (apply bind_ext; intros ? ?).
    apply IH. intros n. rewrite dict_get_alter_is_Some. apply Hk.
  - rewrite decide_False by (by rewrite <- Hk). by apply IH.
Qed.

Lemma preparar_sin_ausentes self config alimentacion st :
  preparar Rng uniform self config alimentacion st
  = preparar Rng uniform self (sin_ausentes self config) alimentacion st.
Proof.
  unfold preparar. cbn [copiar_estado equipos_objetivo sin_ausentes].
  apply bind_ext. intros flujos_mc st'.
  rewrite !bind_eq.
  by rewrite (sortear_sin_ausentes (equipos self) config
                (sin_ausentes self config)).
Qed.

Lemma ensayo_sin_ausentes self config alimentacion i st :
  ensayo orden Rng uniform self config alimentacion i st
  = ensayo orden Rng uniform self (sin_ausentes self config) alimentacion i st.
Proof.
  unfold ensayo. rewrite !bind_eq. by rewrite preparar_sin_ausentes.
Qed.

(** C7, as amended.  A target named in the configuration that is not a node
    of the circuit is skipped: the run is, state for state, the run of the
    configuration without the absent targets.  Nothing is drawn for such a
    name, its ranges are never looked up, and no error is raised on its
    account. *)
Theorem objetivo_ausente_se_omite
    (self : Simulador) (config : ConfiguracionMC)
    (alimentacion : list (Z * gmap string Qc)) (st : EstadoMC Rng) :
  simular_montecarlo orden Rng uniform self config alimentacion st
  = simular_montecarlo orden Rng uniform self (sin_ausentes self config)
      alimentacion st.
Proof.
  unfold simular_montecarlo. cbn [n_iteraciones ley_min ley_max sin_ausentes].
  rewrite !bind_eq.
  rewrite (para_cada_ext _ _
             (ensayo orden Rng uniform self (sin_ausentes self config)
                alimentacion))
    by (intros; apply ensayo_sin_ausentes).
  done.
Qed.

End MonteCarloProps.

(** C7, counterexample.  ["Fantasma"] is the only target of
    [config_fantasma]; it is not a node of the circuit and has no range.
    The run raises nothing and returns a table with both rows. *)
Lemma objetivo_ausente_no_falla :
  dict_get "Fantasma" (equipos sim_ej) = None ∧
  equipos_objetivo config_fantasma = ["Fantasma"] ∧
  ∃ df st,
    simular_montecarlo elements unit uniforme_ej sim_ej config_fantasma
      alimentacion_ej (mkEstadoMC unit tt []) = Ok df st ∧
    length (filas df) = 2%nat.
Proof.
  split; [reflexivity|]. split; [reflexivity|].
  eexists _, _. split; [vm_compute; reflexivity|reflexivity].
Qed.

(** ** Monte Carlo: the grade ceiling and the rows of the table *)

Lemma leyes_validas_spec (r : Resultado) :
  leyes_validas r = true ↔
  ∀ k v, res_flujos r !! k = Some v → v.2 < treinta_y_seis.
Proof.
  unfold leyes_validas. rewrite forallb_forall. split.
  - intros H k v Hkv. apply elem_of_map_to_list in Hkv.
    apply list_elem_of_In in Hkv. apply H in Hkv.
    by apply bool_decide_eq_true in Hkv.
  - intros H [k v] Hin. apply list_elem_of_In, elem_of_map_to_list in Hin.
    apply bool_decide_eq_true. by eapply H.
Qed.

Lemma elem_of_seleccionar df m fila :
  fila ∈ filas (seleccionar df m) → fila ∈ filas df.
Proof.
  unfold seleccionar. cbn. intros Hin.
  apply list_elem_of_omap in Hin as ([f b] & Hz & Hf).
  cbn in Hf. destruct b; [|done]. injection Hf as ->.
  by apply elem_of_zip_l in Hz.
Qed.

Lemma para_cada_invariante {S A} (I : S → Prop) (P : A → Prop)
    (l : list A) (cuerpo : A → M S unit) s :
  (∀ x s, P x → I s → I (estado_final (cuerpo x s))) →
  Forall P l → I s → I (estado_final (para_cada l cuerpo s)).
Proof.
  intros H Hl. revert s. induction Hl as [|x l Hx Hl IH]; intros s Hs; [done|].
  cbn. rewrite bind_eq. specialize (H x s Hx Hs).
  destruct (cuerpo x s) as [[] s1|e s1]; cbn in *; auto.
Qed.

Section MonteCarloFilas.
Context (orden : gset Z → list Z) (Rng : Type)
        (uniform : Qc → Qc → Rng → Qc * Rng).

Lemma sortear_resultados config objetivo equipos_mc split_info
    (st : EstadoMC Rng) :
  resultados Rng
    (estado_final (sortear Rng uniform config objetivo equipos_mc split_info st))
  = resultados Rng st.
Proof.
  revert equipos_mc split_info st.
  induction objetivo as [|nombre resto IH]; intros equipos_mc split_info st;
    [done|].
  cbn [sortear]. case_decide; [|apply IH].
  rewrite bind_eq. unfold buscar at 1.
  destruct (rangos config !! nombre) as [rg|]; [|done]. cbn.
  rewrite bind_eq. unfold buscar at 1.
  destruct (rg !! "masa") as [r_masa|]; [|done]. cbn.
  rewrite bind_eq. unfold sortear_uniforme at 1.
  destruct (uniform r_masa.1 r_masa.2 (rng Rng st)) as [sp_masa g1].
  rewrite bind_eq. unfold buscar at 1.
  destruct (rg !! "cuf") as [r_cuf|]; [|done]. cbn.
  rewrite bind_eq. unfold sortear_uniforme at 1. cbn.
  destruct (uniform r_cuf.1 r_cuf.2 g1) as [sp_cuf g2].
  rewrite IH. done.
Qed.

Lemma preparar_resultados self config alimentacion (st : EstadoMC Rng) :
  resultados Rng
    (estado_final (preparar Rng uniform self config alimentacion st))
  = resultados Rng st.
Proof.
  unfold preparar. cbn [copiar_estado].
  rewrite bind_eq. unfold en_local at 1.
  destruct (alimentar alimentacion (flujos self)) as [[] fs'|e fs']; [|done].
  rewrite bind_eq.
  pose proof (sortear_resultados config (equipos_objetivo config)
                (equipos self) ∅ st) as H.
  destruct (sortear _ _ _ _ _ _ st) as [es st1|e st1]; cbn in *; done.
Qed.

Lemma ensayo_filas self config alimentacion n i (st : EstadoMC Rng) :
  (i < n)%nat →
  Forall (fila_valida orden Rng uniform self config alimentacion n)
         (resultados Rng st) →
  Forall (fila_valida orden Rng uniform self config alimentacion n)
    (resultados Rng
       (estado_final (ensayo orden Rng uniform self config alimentacion i st))).
Proof.
  intros Hi Hst. unfold ensayo. rewrite bind_eq.
  pose proof (preparar_resultados self config alimentacion st) as Hp.
  destruct (preparar Rng uniform self config alimentacion st)
    as [ts st1|e st1] eqn:Ep; cbn in Hp; [|cbn; by rewrite Hp].
  destruct (simular orden ts.1) as [r s'|e s'] eqn:Es; [|cbn; by rewrite Hp].
  destruct (leyes_validas r) eqn:Ev; cbn; [|by rewrite Hp].
  rewrite Hp. apply Forall_app. split; [done|].
  apply Forall_singleton. exists i, st, st1, ts, r, s'.
  split_and!; try done. by apply leyes_validas_spec.
Qed.

Lemma bucle_filas self config alimentacion (st : EstadoMC Rng) :
  Forall (fila_valida orden Rng uniform self config alimentacion
            (Z.to_nat (n_iteraciones config)))
    (resultados Rng
       (estado_final
          (para_cada (rango (n_iteraciones config))
             (ensayo orden Rng uniform self config alimentacion)
             (mkEstadoMC Rng (rng Rng st) [])))).
Proof.
  apply (para_cada_invariante
           (λ s, Forall (fila_valida orden Rng uniform self config alimentacion
                           (Z.to_nat (n_iteraciones config)))
                        (resultados Rng s))
           (λ i, i < Z.to_nat (n_iteraciones config))%nat).
  - intros i s Hi Hs. by apply ensayo_filas.
  - unfold rango. apply Forall_forall. intros i Hi.
    apply elem_of_seq in Hi. lia.
  - cbn. constructor.
Qed.

Lemma filtro_filas {S} (df : DataFrame) (o : option Qc) (p : Qc → Qc → bool)
    (s : S) df' s' :
  match o with
  | Some b =>
      let* col := columna df "ley_concentrado" in
      ret (seleccionar df (mascara (p b) col))
  | None => ret df
  end s = Ok df' s' →
  s' = s ∧ ∀ fila, fila ∈ filas df' → fila ∈ filas df.
Proof.
  destruct o as [b|]; [|by intros [= -> ->]].
  rewrite bind_eq. unfold columna. case_decide; [|done].
  cbn. intros [= <- <-]. split; [done|]. intros fila. apply elem_of_seleccionar.
Qed.

(** The grade gate of a trial.  With the ceiling of 36 on grades: the body
    of a trial whose solved state has a flow of grade 36 or more ends
    normally, without raising and without adding a row; and every row of a
    table that [simular_montecarlo] returns was built by a trial [i] below
    the trial count whose result has all its grades below 36. *)
Theorem validacion_de_leyes
    (self : Simulador) (config : ConfiguracionMC)
    (alimentacion : list (Z * gmap string Qc)) :
  (∀ (i : nat) (st st1 : EstadoMC Rng) ts r s' k v,
     preparar Rng uniform self config alimentacion st = Ok ts st1 →
     simular orden ts.1 = Ok r s' →
     res_flujos r !! k = Some v → treinta_y_seis ≤ v.2 →
     ensayo orden Rng uniform self config alimentacion i st = Ok tt st1 ∧
     resultados Rng st1 = resultados Rng st) ∧
  (∀ (st : EstadoMC Rng) df st',
     simular_montecarlo orden Rng uniform self config alimentacion st
       = Ok df st' →
     ∀ fila, fila ∈ filas df →
       fila_valida orden Rng uniform self config alimentacion
         (Z.to_nat (n_iteraciones config)) fila).
Proof.
  split.
  - intros i st st1 ts r s' k v Hp Hs Hk Hv.
    pose proof (preparar_resultados self config alimentacion st) as Hr.
    rewrite Hp in Hr. cbn in Hr. split; [|done].
    unfold ensayo. rewrite bind_eq, Hp, Hs.
    destruct (leyes_validas r) eqn:Ev; [|done].
    rewrite leyes_validas_spec in Ev. specialize (Ev k v Hk).
    by apply Qclt_not_le in Ev.
  - intros st df st' H fila Hfila.
    unfold simular_montecarlo in H.
    apply bind_Ok in H as ([] & st1 & [= <-] & H).
    apply bind_Ok in H as ([] & st2 & Eb & H).
    apply bind_Ok in H as (df0 & st3 & [= <- <-] & H).
    apply bind_Ok in H as (df1 & st4 & E1 & H).
    apply bind_Ok in H as (df2 & st5 & E2 & [= <- <-]).
    apply filtro_filas in E1 as [-> H1].
    apply filtro_filas in E2 as [-> H2].
    pose proof (bucle_filas self config alimentacion st) as Hb.
    rewrite Eb in Hb. cbn in Hb.
    rewrite Forall_forall in Hb. apply Hb. auto.
Qed.

End MonteCarloFilas.

Lemma validacion_de_leyes_witness :
  (ensayo elements unit uniforme_ej sim_ej config_filtro alimentacion_rica 0
     (mkEstadoMC unit tt []) = Ok tt (mkEstadoMC unit tt []) ∧
   resultados unit (mkEstadoMC unit tt []) = []) ∧
  ∃ df st',
    simular_montecarlo elements unit uniforme_ej sim_ej config_celda
      alimentacion_ej (mkEstadoMC unit tt []) = Ok df st' ∧
    length (filas df) = 2%nat ∧
    ∀ fila, fila ∈ filas df →
      fila_valida elements unit uniforme_ej sim_ej config_celda
        alimentacion_ej 2 fila.
Proof.
  split.
  - destruct (validacion_de_leyes elements unit uniforme_ej sim_ej
                config_filtro alimentacion_rica) as [H _].
    eapply (H 0%nat (mkEstadoMC unit tt []) _ _ _ _ 2%Z _).
    + vm_compute. reflexivity.
    + vm_compute. reflexivity.
    + vm_compute. reflexivity.
    + vm_compute. discriminate.
  - destruct (validacion_de_leyes elements unit uniforme_ej sim_ej
                config_celda alimentacion_ej) as [_ H].
    destruct (simular_montecarlo elements unit uniforme_ej sim_ej config_celda
                alimentacion_ej (mkEstadoMC unit tt [])) as [df st'|e st'] eqn:E;
      vm_compute in E; [|discriminate].
    exists df, st'. split; [reflexivity|].
    split; [by injection E as <- <-|].
    apply (H (mkEstadoMC unit tt []) df st').
    rewrite <- E. vm_compute. reflexivity.
Defined.

(** ** Monte Carlo: when every trial is rejected *)

Section MonteCarloRechazo.
Context (orden : gset Z → list Z) (Rng : Type)
        (uniform : Qc → Qc → Rng → Qc * Rng).

Lemma bucle_rechazos self config alimentacion (l : list nat) :
  (∀ st0 : EstadoMC Rng, ∃ ts st1 r s' k v,
     preparar Rng uniform self config alimentacion st0 = Ok ts st1 ∧
     simular orden ts.1 = Ok r s' ∧
     res_flujos r !! k = Some v ∧ treinta_y_seis ≤ v.2) →
  ∀ st : EstadoMC Rng,
    ∃ st', para_cada l (ensayo orden Rng uniform self config alimentacion) st
           = Ok tt st' ∧
           resultados Rng st' = resultados Rng st.
Proof.
  intros Hrech. induction l as [|i l IH]; intros st; [by exists st|].
  destruct (Hrech st) as (ts & st1 & r & s' & k & v & Hp & Hs & Hk & Hv).
  destruct (validacion_de_leyes orden Rng uniform self config alimentacion)
    as [Hgate _].
  destruct (Hgate i st st1 ts r s' k v Hp Hs Hk Hv) as [He Hr].
  destruct (IH st1) as (st' & El & Hr').
  exists st'. cbn [para_cada]. rewrite bind_eq, He. split; [exact El|].
  by rewrite Hr', Hr.
Qed.

(** C8, the failing path.  If every trial of a run ends with some flow of
    grade 36 or more, each of them is discarded without a row, and when the
    configuration sets [ley_min] or [ley_max] the run then raises
    [KeyError] to the caller: the rejected trials do make an exception
    reach the caller. *)
Theorem rechazo_total_con_filtro
    (self : Simulador) (config : ConfiguracionMC)
    (alimentacion : list (Z * gmap string Qc)) (st : EstadoMC Rng) :
  (∀ st0 : EstadoMC Rng, ∃ ts st1 r s' k v,
     preparar Rng uniform self config alimentacion st0 = Ok ts st1 ∧
     simular orden ts.1 = Ok r s' ∧
     res_flujos r !! k = Some v ∧ treinta_y_seis ≤ v.2) →
  is_Some (ley_min config) ∨ is_Some (ley_max config) →
  ∃ st',
    simular_montecarlo orden Rng uniform self config alimentacion st
    = Raise (KeyError (ClaveStr "ley_concentrado")) st'.
Proof.
  intros Hrech Hf.
  destruct (bucle_rechazos self config alimentacion
              (rango (n_iteraciones config)) Hrech
              (mkEstadoMC Rng (rng Rng st) [])) as (st2 & Eb & Er).
  cbn in Er. exists st2. unfold simular_montecarlo.
  rewrite bind_eq. cbn. rewrite bind_eq, Eb, bind_eq. cbn. rewrite Er.
  rewrite bind_eq.
  destruct (ley_min config) as [lo|].
  - rewrite bind_eq. unfold columna. cbn.
    rewrite decide_False by set_solver. done.
  - cbn. destruct Hf as [[? [=]]|[hi Hhi]]. rewrite Hhi.
    rewrite bind_eq. rewrite bind_eq. unfold columna. cbn.
    rewrite decide_False by set_solver. done.
Qed.

End MonteCarloRechazo.

Lemma rechazo_total_con_filtro_witness :
  ∃ st',
    simular_montecarlo elements unit uniforme_ej sim_ej config_techo
      alimentacion_rica (mkEstadoMC unit tt [])
    = Raise (KeyError (ClaveStr "ley_concentrado")) st'.
Proof.
  apply (rechazo_total_con_filtro elements unit uniforme_ej sim_ej config_techo
           alimentacion_rica (mkEstadoMC unit tt [])).
  - intros [[] rs].
    destruct (preparar unit uniforme_ej sim_ej config_techo alimentacion_rica
                (mkEstadoMC unit tt rs)) as [ts st1|ex st1] eqn:Ep;
      vm_compute in Ep; [|discriminate].
    injection Ep as <- <-.
    eexists _, _, _, _, 2%Z, _. split; [reflexivity|].
    split; [vm_compute; reflexivity|].
    split; [vm_compute; reflexivity|].
    vm_compute. discriminate.
  - right. cbn. eauto.
Defined.

(** ** Monte Carlo: an empty table and the grade filter *)

Section MonteCarloVacio.
Context (orden : gset Z → list Z) (Rng : Type)
        (uniform : Qc → Qc → Rng → Qc * Rng).

(** C9, the failing path.  When the trial loop ends without a single
    accepted row and the configuration sets [ley_min] or [ley_max], the
    table built from the empty list has no column ["ley_concentrado"], and
    [simular_montecarlo] raises [KeyError] instead of returning a table. *)
Theorem tabla_vacia_con_filtro
    (self : Simulador) (config : ConfiguracionMC)
    (alimentacion : list (Z * gmap string Qc)) (st st2 : EstadoMC Rng) :
  para_cada (rango (n_iteraciones config))
    (ensayo orden Rng uniform self config alimentacion)
    (mkEstadoMC Rng (rng Rng st) []) = Ok tt st2 →
  resultados Rng st2 = [] →
  is_Some (ley_min config) ∨ is_Some (ley_max config) →
  simular_montecarlo orden Rng uniform self config alimentacion st
  = Raise (KeyError (ClaveStr "ley_concentrado")) st2.
Proof.
  intros Eb Er Hf. unfold simular_montecarlo.
  rewrite bind_eq. cbn. rewrite bind_eq, Eb, bind_eq. cbn. rewrite Er.
  rewrite bind_eq.
  destruct (ley_min config) as [lo|].
  - rewrite bind_eq. unfold columna. cbn.
    rewrite decide_False by set_solver. done.
  - cbn. destruct Hf as [[? [=]]|[hi Hhi]]. rewrite Hhi.
    rewrite bind_eq. rewrite bind_eq. unfold columna. cbn.
    rewrite decide_False by set_solver. done.
Qed.

End MonteCarloVacio.

Lemma tabla_vacia_con_filtro_witness :
  simular_montecarlo elements unit uniforme_ej sim_ej config_filtro
    alimentacion_rica (mkEstadoMC unit tt [])
  = Raise (KeyError (ClaveStr "ley_concentrado")) (mkEstadoMC unit tt []).
Proof.
  apply (tabla_vacia_con_filtro elements unit uniforme_ej sim_ej config_filtro
           alimentacion_rica (mkEstadoMC unit tt []) (mkEstadoMC unit tt [])).
  - vm_compute. reflexivity.
  - reflexivity.
  - left. cbn. eauto.
Defined.

(** * Further properties of the modelled code *)

(** ** io.py: the classification of flows *)

Lemma elem_of_union_de (sel : Equipo → list Z) (eqs : Equipos) k :
  k ∈ union_de sel eqs ↔ ∃ kv, kv ∈ eqs ∧ k ∈ sel kv.2.
Proof.
  unfold union_de.
  assert (G : ∀ (acc : gset Z),
             k ∈ foldl (λ acc kv, acc ∪ list_to_set (sel kv.2)) acc eqs
             ↔ k ∈ acc ∨ ∃ kv : string * Equipo, kv ∈ eqs ∧ k ∈ sel kv.2).
  { induction eqs as [|kv eqs IH]; intros acc; cbn.
    - split; [auto|]. intros [?|(kv & []%elem_of_nil & _)]. done.
    - rewrite IH, elem_of_union, elem_of_list_to_set. split.
      + intros [[?|?]|(kv' & ? & ?)]; eauto.
        * right. exists kv. split; [left|done].
        * right. exists kv'. split; [by right|done].
      + intros [?|(kv' & [->|?]%elem_of_cons & ?)]; eauto. }
  rewrite G. split; [|by right].
  intros [[]%not_elem_of_empty|?]. done.
Qed.

(** X1.  [identificar_flujos_globales] sorts the flow ids by connectivity: a
    feed is consumed by some node and produced by none, an output is
    produced and consumed by none, an internal flow is both, and a final
    concentrate is an output that is not a declared tailings flow.  Hence
    the three classes are pairwise disjoint and together are exactly the ids
    that some node references. *)
Theorem identificar_flujos_globales_clases
    (eqs : Equipos) (rel : option (gset Z)) :
  let consumido k := ∃ kv : string * Equipo, kv ∈ eqs ∧ k ∈ flujos_entrada kv.2 in
  let producido k := ∃ kv : string * Equipo, kv ∈ eqs ∧ k ∈ flujos_salida kv.2 in
  let '(f_entrada, f_salida, f_salida_conc, f_internos) :=
    identificar_flujos_globales eqs rel in
  (∀ k, k ∈ f_entrada ↔ consumido k ∧ ¬ producido k) ∧
  (∀ k, k ∈ f_salida ↔ producido k ∧ ¬ consumido k) ∧
  (∀ k, k ∈ f_internos ↔ consumido k ∧ producido k) ∧
  (∀ k, k ∈ f_salida_conc ↔ k ∈ f_salida ∧ k ∉ default ∅ rel) ∧
  f_entrada ## f_salida ∧ f_entrada ## f_internos ∧ f_salida ## f_internos ∧
  (∀ k, k ∈ f_entrada ∪ f_salida ∪ f_internos ↔ consumido k ∨ producido k).
Proof.
  cbn. split_and!.
  - intros k. by rewrite elem_of_difference, !elem_of_union_de.
  - intros k. by rewrite elem_of_difference, !elem_of_union_de.
  - intros k. by rewrite elem_of_intersection, !elem_of_union_de.
  - intros k. by rewrite elem_of_difference.
  - set_solver.
  - set_solver.
  - set_solver.
  - intros k. rewrite !elem_of_union, !elem_of_difference,
      elem_of_intersection, !elem_of_union_de.
    destruct (decide (k ∈ union_de flujos_entrada eqs)) as [H1|H1],
      (decide (k ∈ union_de flujos_salida eqs)) as [H2|H2];
      rewrite !elem_of_union_de in H1, H2; tauto.
Qed.

(** ** equipos.py: the two derivations of a flow *)

(** X2.  A flow without mass loses its grade and its fine content.  On a
    flow whose mass is not positive, deriving the grade and then the fine
    content sets both to 0, whatever they were; the mass, the identifier and
    the name stay, and no other flow changes. *)
Theorem derivaciones_sin_masa (k : Z) (fs : Flujos) (f : Flujo) :
  fs !! k = Some f →
  ¬ 0 < masa f →
  (actualizar_ley k >> actualizar_contenido_fino k) fs
  = Ok tt (<[k := mkFlujo (f_id f) (f_nombre f) (masa f) 0 0]> fs).
Proof.
  intros Hf Hm.
  rewrite bind_eq, (actualizar_ley_eq _ _ _ Hf).
  rewrite actualizar_contenido_fino_eq, lookup_alter_eq, Hf. cbn.
  f_equal. apply map_eq. intros j.
  destruct (decide (j = k)) as [->|Hj].
  - rewrite lookup_insert_eq, !lookup_alter_eq, Hf. cbn.
    unfold ley_derivada. rewrite bool_decide_eq_false_2 by done.
    destruct f as [i n m l c]. unfold con_contenido_fino, con_ley. cbn in *.
    do 2 f_equal. unfold cien. field. done.
  - by rewrite lookup_insert_ne, !lookup_alter_ne.
Qed.

Lemma derivaciones_sin_masa_witness :
  (actualizar_ley 1 >> actualizar_contenido_fino 1) flujos_sin_masa
  = Ok tt (<[1%Z := mkFlujo 1 "" 0 0 0]> flujos_sin_masa).
Proof.
  apply (derivaciones_sin_masa 1 flujos_sin_masa
           (mkFlujo 1 "" 0 (Qc_de_Z 5) (Qc_de_Z 3))).
  - reflexivity.
  - vm_compute. intros H. discriminate H.
Defined.

(** ** equipos.py: the mixer *)

Lemma Suma_bucle (fs0 : Flujos) id_s ids :
  id_s ∉ ids → (∀ k, k ∈ ids → is_Some (fs0 !! k)) →
  ∀ (fs : Flujos) s,
    (∀ k, k ≠ id_s → fs !! k = fs0 !! k) → fs !! id_s = Some s →
    ∃ fs' s',
      para_cada ids (λ id_entrada,
        let* entrada := obtener id_entrada in
        let* a := attr id_s masa in
        let* b := attr entrada masa in
        asignar id_s con_masa (a + b) >>
        let* a := attr id_s contenido_fino in
        let* b := attr entrada contenido_fino in
        asignar id_s con_contenido_fino (a + b)) fs = Ok tt fs' ∧
      (∀ k, k ≠ id_s → fs' !! k = fs0 !! k) ∧ fs' !! id_s = Some s' ∧
      f_id s' = f_id s ∧ f_nombre s' = f_nombre s ∧ ley s' = ley s ∧
      masa s' = masa s + total masa fs0 ids ∧
      contenido_fino s' = contenido_fino s + total contenido_fino fs0 ids.
Proof.
  induction ids as [|i ids IH]; intros Hni Hin fs s Hfs Hs.
  - exists fs, s. cbn. split_and!; try done; ring.
  - apply not_elem_of_cons in Hni as [Hne Hni].
    destruct (Hin i) as [fi Hfi]; [left|].
    assert (Hi : fs !! i = Some fi) by (rewrite Hfs; done).
    cbn [para_cada]. rewrite bind_eq.
    rewrite bind_eq, obtener_eq by eauto.
    rewrite bind_eq, (attr_eq _ _ _ _ Hs).
    rewrite bind_eq, (attr_eq _ _ _ _ Hi).
    rewrite bind_eq. unfold asignar at 1.
    rewrite bind_eq. erewrite attr_eq by (by rewrite lookup_alter_eq, Hs).
    rewrite bind_eq. erewrite attr_eq by (by rewrite lookup_alter_ne, Hi).
    unfold asignar at 1.
    set (s1 := con_contenido_fino (contenido_fino (con_masa (masa s + masa fi) s)
                                   + contenido_fino fi)
                 (con_masa (masa s + masa fi) s)).
    destruct (IH Hni (λ k Hk, Hin k (proj2 (elem_of_cons _ _ _) (or_intror Hk)))
                (alter (con_contenido_fino
                          (contenido_fino (con_masa (masa s + masa fi) s)
                           + contenido_fino fi)) id_s
                   (alter (con_masa (masa s + masa fi)) id_s fs)) s1)
      as (fs' & s' & E & H1 & H2 & H3 & H4 & H5 & H6 & H7).
    { intros k Hk. rewrite !lookup_alter_ne by done. by apply Hfs. }
    { by rewrite !lookup_alter_eq, Hs. }
    exists fs', s'. split; [exact E|].
    split; [exact H1|]. split; [exact H2|].
    split; [exact H3|]. split; [exact H4|]. split; [exact H5|].
    split.
    + rewrite H6. unfold total. cbn. rewrite Hfi. cbn. ring.
    + rewrite H7. unfold total. cbn. rewrite Hfi. cbn. ring.
Qed.

(** X3.  Mixer conservation.  For a mixer whose output flow is in the store
    and is not one of its inputs, and whose inputs are all in the store,
    [calcular] succeeds; the output then holds the sum of the input masses
    and the sum of the input fine contents (an input listed twice counts
    twice, and no input at all gives 0), its grade is the one derived from
    those two, and every other flow is unchanged. *)
Theorem Suma_conserva (e : Equipo) (fs : Flujos) (id_s : Z) :
  cls e = ClaseSuma →
  flujos_salida e !! 0%nat = Some id_s →
  id_s ∉ flujos_entrada e →
  is_Some (fs !! id_s) →
  (∀ k, k ∈ flujos_entrada e → is_Some (fs !! k)) →
  ∃ fs' s,
    calcular e fs = Ok tt fs' ∧ fs' !! id_s = Some s ∧
    masa s = total masa fs (flujos_entrada e) ∧
    contenido_fino s = total contenido_fino fs (flujos_entrada e) ∧
    ley s = (if bool_decide (0 < masa s)
             then contenido_fino s / masa s * cien else 0) ∧
    ∀ k, k ≠ id_s → fs' !! k = fs !! k.
Proof.
  intros Hcls Hs Hni [s0 Hs0] Hin.
  unfold calcular. rewrite Hcls. unfold Suma_calcular.
  rewrite bind_eq, (indice_eq _ _ _ _ Hs).
  rewrite bind_eq, obtener_eq by eauto.
  rewrite bind_eq. unfold asignar at 1.
  rewrite bind_eq. unfold asignar at 1.
  rewrite bind_eq.
  destruct (Suma_bucle fs id_s (flujos_entrada e) Hni Hin
              (alter (con_contenido_fino 0) id_s (alter (con_masa 0) id_s fs))
              (con_contenido_fino 0 (con_masa 0 s0)))
    as (fs1 & s1 & E & H1 & H2 & H3 & H4 & H5 & H6 & H7).
  { intros k Hk. by rewrite !lookup_alter_ne. }
  { by rewrite !lookup_alter_eq, Hs0. }
  rewrite E. rewrite (actualizar_ley_eq _ _ _ H2).
  eexists _, _. split; [reflexivity|].
  rewrite lookup_alter_eq, H2. cbn. split; [reflexivity|].
  cbn in H6, H7. split_and!.
  - cbn. rewrite H6. ring.
  - cbn. rewrite H7. ring.
  - reflexivity.
  - intros k Hk. rewrite lookup_alter_ne by done.
    rewrite H1 by done. reflexivity.
Qed.

Lemma Suma_conserva_witness :
  ∃ fs' s,
    calcular mezclador_ej flujos_mezcla = Ok tt fs' ∧ fs' !! 3%Z = Some s ∧
    masa s = total masa flujos_mezcla (flujos_entrada mezclador_ej) ∧
    contenido_fino s
      = total contenido_fino flujos_mezcla (flujos_entrada mezclador_ej) ∧
    ley s = (if bool_decide (0 < masa s)
             then contenido_fino s / masa s * cien else 0) ∧
    ∀ k, k ≠ 3%Z → fs' !! k = flujos_mezcla !! k.
Proof.
  apply (Suma_conserva mezclador_ej flujos_mezcla 3).
  - reflexivity.
  - reflexivity.
  - cbn. intros Hin. by repeat (apply elem_of_cons in Hin as [?|Hin]);
      try apply elem_of_nil in Hin.
  - vm_compute. eauto.
  - intros k Hk. cbn in Hk.
    repeat (apply elem_of_cons in Hk as [->|Hk]); [vm_compute; eauto ..|].
    by apply elem_of_nil in Hk.
Defined.

(** ** equipos.py: the cell *)

Lemma Celda_resultado (e : Equipo) (fs : Flujos) (id_e id_c id_r : Z)
    (sp_masa sp_cuf : Qc) (fe : Flujo) :
  cls e = ClaseCelda →
  flujos_entrada e !! 0%nat = Some id_e →
  flujos_salida e !! 0%nat = Some id_c →
  flujos_salida e !! 1%nat = Some id_r →
  split_factor e !! 0%nat = Some sp_masa →
  split_factor e !! 1%nat = Some sp_cuf →
  id_c ≠ id_e → id_r ≠ id_e → id_c ≠ id_r →
  fs !! id_e = Some fe → is_Some (fs !! id_c) → is_Some (fs !! id_r) →
  ∃ fs' c r,
    calcular e fs = Ok tt fs' ∧
    fs' !! id_c = Some c ∧ fs' !! id_r = Some r ∧
    masa c = masa fe * sp_masa ∧
    masa r = masa fe * (1 - sp_masa) ∧
    contenido_fino c = masa fe * ley fe / cien * sp_cuf ∧
    contenido_fino r = masa fe * ley fe / cien * (1 - sp_cuf) ∧
    ley c = ley_derivada c ∧ ley r = ley_derivada r.
Proof.
  intros Hcls He Hc Hr Hm Hf Hce Hre Hcr Hfe [c0 Hc0] [r0 Hr0].
  unfold calcular. rewrite Hcls. unfold Celda_calcular.
  rewrite bind_eq, (indice_eq _ _ _ _ He).
  rewrite bind_eq, obtener_eq by eauto.
  rewrite bind_eq, actualizar_contenido_fino_eq, Hfe.
  rewrite bind_eq, (indice_eq _ _ _ _ Hc).
  rewrite bind_eq, obtener_eq by (rewrite lookup_alter_ne by done; eauto).
  rewrite bind_eq, (indice_eq _ _ _ _ Hr).
  rewrite bind_eq, obtener_eq by (rewrite lookup_alter_ne by done; eauto).
  rewrite bind_eq, (indice_eq _ _ _ _ Hm).
  rewrite bind_eq, (indice_eq _ _ _ _ Hf).
  repeat (rewrite bind_eq; first [erewrite attr_eq by busca | unfold asignar at 1]).
  rewrite bind_eq. erewrite actualizar_ley_eq by busca.
  erewrite actualizar_ley_eq by busca.
  eexists _, _, _. split; [reflexivity|].
  split; [busca|]. split; [busca|]. cbn.
  split_and!; reflexivity.
Qed.

Lemma Qc_prod_entre (m s : Qc) :
  0 ≤ m → 0 ≤ s → s ≤ 1 → 0 ≤ m * s ∧ m * s ≤ m.
Proof.
  intros Hm Hs H1. split.
  - rewrite <- (Qcmult_0_l s). by apply Qcmult_le_compat_r.
  - rewrite <- (Qcmult_1_r m) at 2. by apply Qcmult_le_mono_nonneg_l.
Qed.

Lemma Qc_complemento (s : Qc) : 0 ≤ s → s ≤ 1 → 0 ≤ 1 - s ∧ 1 - s ≤ 1.
Proof.
  intros Hs H1. split.
  - apply (proj2 (Qcplus_le_mono_r 0 (1 - s) s)).
    replace (0 + s) with s by ring. replace (1 - s + s) with 1 by ring.
    exact H1.
  - apply (proj2 (Qcplus_le_mono_r (1 - s) 1 s)).
    replace (1 - s + s) with (1 + 0) by ring.
    apply (proj1 (Qcplus_le_mono_l 0 s 1)). exact Hs.
Qed.

Lemma cien_no_cero : cien ≠ 0.
Proof. intros H. apply (f_equal this) in H. vm_compute in H. discriminate H. Qed.

Lemma Qc_cociente_no_neg (a b : Qc) : 0 ≤ a → 0 < b → 0 ≤ a / b * cien.
Proof.
  intros Ha Hb.
  assert (H1 : 0 ≤ a / b).
  { unfold Qcdiv. rewrite <- (Qcmult_0_l (/ b)).
    apply Qcmult_le_compat_r; [done|]. by apply Qclt_le_weak, Qcinv_pos. }
  rewrite <- (Qcmult_0_l cien). apply Qcmult_le_compat_r; [done|].
  by vm_compute.
Qed.

Lemma ley_derivada_no_neg (f : Flujo) : 0 ≤ contenido_fino f → 0 ≤ ley_derivada f.
Proof.
  intros Hc. unfold ley_derivada. case_bool_decide; [|done].
  by apply Qc_cociente_no_neg.
Qed.

Lemma Qc_fino_no_neg (m l : Qc) : 0 ≤ m → 0 ≤ l → 0 ≤ m * l / cien.
Proof.
  intros Hm Hl. unfold Qcdiv. rewrite <- (Qcmult_0_l (/ cien)).
  apply Qcmult_le_compat_r; [|by vm_compute].
  rewrite <- (Qcmult_0_l l). by apply Qcmult_le_compat_r.
Qed.

(** X4.  A cell with split factors in [0,1], fed by a flow of non-negative
    mass and grade, gives two outputs whose masses lie between 0 and the
    input mass, whose fine contents lie between 0 and the input fine content
    (the one derived from the input's mass and grade), and whose grades are
    not negative. *)
Theorem Celda_acotada
    (e : Equipo) (fs : Flujos) (id_e id_c id_r : Z) (sp_masa sp_cuf : Qc)
    (fe : Flujo) :
  cls e = ClaseCelda →
  flujos_entrada e !! 0%nat = Some id_e →
  flujos_salida e !! 0%nat = Some id_c →
  flujos_salida e !! 1%nat = Some id_r →
  split_factor e !! 0%nat = Some sp_masa →
  split_factor e !! 1%nat = Some sp_cuf →
  id_c ≠ id_e → id_r ≠ id_e → id_c ≠ id_r →
  fs !! id_e = Some fe → is_Some (fs !! id_c) → is_Some (fs !! id_r) →
  0 ≤ masa fe → 0 ≤ ley fe →
  0 ≤ sp_masa → sp_masa ≤ 1 → 0 ≤ sp_cuf → sp_cuf ≤ 1 →
  ∃ fs' c r,
    calcular e fs = Ok tt fs' ∧
    fs' !! id_c = Some c ∧ fs' !! id_r = Some r ∧
    (0 ≤ masa c ∧ masa c ≤ masa fe) ∧
    (0 ≤ masa r ∧ masa r ≤ masa fe) ∧
    (0 ≤ contenido_fino c ∧ contenido_fino c ≤ masa fe * ley fe / cien) ∧
    (0 ≤ contenido_fino r ∧ contenido_fino r ≤ masa fe * ley fe / cien) ∧
    0 ≤ ley c ∧ 0 ≤ ley r.
Proof.
  intros Hcls He Hc Hr Hm Hf Hce Hre Hcr Hfe Hc0 Hr0 Hme Hle Hs0 Hs1 Hf0 Hf1.
  destruct (Celda_resultado e fs id_e id_c id_r sp_masa sp_cuf fe)
    as (fs' & c & r & E & Ec & Er & M1 & M2 & F1 & F2 & L1 & L2); try assumption.
  exists fs', c, r. split; [exact E|]. split; [exact Ec|]. split; [exact Er|].
  pose proof (Qc_fino_no_neg _ _ Hme Hle) as HF.
  destruct (Qc_complemento _ Hs0 Hs1) as [Hs0' Hs1'].
  destruct (Qc_complemento _ Hf0 Hf1) as [Hf0' Hf1'].
  assert (C1 : 0 ≤ contenido_fino c ∧ contenido_fino c ≤ masa fe * ley fe / cien)
    by (rewrite F1; by apply Qc_prod_entre).
  assert (C2 : 0 ≤ contenido_fino r ∧ contenido_fino r ≤ masa fe * ley fe / cien)
    by (rewrite F2; by apply Qc_prod_entre).
  split; [rewrite M1; by apply Qc_prod_entre|].
  split; [rewrite M2; by apply Qc_prod_entre|].
  split; [exact C1|]. split; [exact C2|].
  split; [rewrite L1|rewrite L2]; apply ley_derivada_no_neg; tauto.
Qed.

(** X5.  The degenerate splits.  With [sp_masa = 0] the concentrate ends
    with mass 0 and grade 0, whatever [sp_cuf] sends to it, and the tailings
    carry the whole input mass; with [sp_masa = 1] it is the tailings that
    end with mass 0 and grade 0, and the concentrate carries the whole input
    mass. *)
Theorem Celda_extremos
    (e : Equipo) (fs : Flujos) (id_e id_c id_r : Z) (sp_masa sp_cuf : Qc)
    (fe : Flujo) :
  cls e = ClaseCelda →
  flujos_entrada e !! 0%nat = Some id_e →
  flujos_salida e !! 0%nat = Some id_c →
  flujos_salida e !! 1%nat = Some id_r →
  split_factor e !! 0%nat = Some sp_masa →
  split_factor e !! 1%nat = Some sp_cuf →
  id_c ≠ id_e → id_r ≠ id_e → id_c ≠ id_r →
  fs !! id_e = Some fe → is_Some (fs !! id_c) → is_Some (fs !! id_r) →
  ∃ fs' c r,
    calcular e fs = Ok tt fs' ∧
    fs' !! id_c = Some c ∧ fs' !! id_r = Some r ∧
    (sp_masa = 0 → masa c = 0 ∧ ley c = 0 ∧ masa r = masa fe) ∧
    (sp_masa = 1 → masa r = 0 ∧ ley r = 0 ∧ masa c = masa fe).
Proof.
  intros Hcls He Hc Hr Hm Hf Hce Hre Hcr Hfe Hc0 Hr0.
  destruct (Celda_resultado e fs id_e id_c id_r sp_masa sp_cuf fe)
    as (fs' & c & r & E & Ec & Er & M1 & M2 & F1 & F2 & L1 & L2); try assumption.
  exists fs', c, r. split; [exact E|]. split; [exact Ec|]. split; [exact Er|].
  split.
  - intros ->. rewrite Qcmult_0_r in M1.
    split; [exact M1|]. split; [|rewrite M2; ring].
    rewrite L1. unfold ley_derivada.
    rewrite bool_decide_eq_false_2; [reflexivity|].
    rewrite M1. apply Qc_no_pos_cero.
  - intros ->. assert (masa r = 0) as M0 by (rewrite M2; ring).
    split; [exact M0|]. split; [|rewrite M1; ring].
    rewrite L2. unfold ley_derivada.
    rewrite bool_decide_eq_false_2; [reflexivity|].
    rewrite M0. apply Qc_no_pos_cero.
Qed.

Ltac qc_orden := vm_compute; first [reflexivity | discriminate].

Lemma Celda_acotada_witness :
  ∃ fs' c r,
    calcular celda_ej flujos_sin_derivar = Ok tt fs' ∧
    fs' !! 2%Z = Some c ∧ fs' !! 3%Z = Some r ∧
    (0 ≤ masa c ∧ masa c ≤ cien) ∧ (0 ≤ masa r ∧ masa r ≤ cien) ∧
    (0 ≤ contenido_fino c ∧ contenido_fino c ≤ cien * Qc_frac 3 2 / cien) ∧
    (0 ≤ contenido_fino r ∧ contenido_fino r ≤ cien * Qc_frac 3 2 / cien) ∧
    0 ≤ ley c ∧ 0 ≤ ley r.
Proof.
  apply (Celda_acotada celda_ej flujos_sin_derivar 1 2 3
           (Qc_frac 1 10) (Qc_frac 3 4) (mkFlujo 1 "" cien (Qc_frac 3 2) 0));
    try reflexivity; try discriminate; try (vm_compute; eauto; fail);
    qc_orden.
Defined.

Lemma Celda_extremos_witness :
  ∃ fe fs' c r,
    flujos sim_alimentado !! 1%Z = Some fe ∧
    calcular celda_sin_masa (flujos sim_alimentado) = Ok tt fs' ∧
    fs' !! 2%Z = Some c ∧ fs' !! 3%Z = Some r ∧
    masa c = 0 ∧ ley c = 0 ∧ masa r = masa fe.
Proof.
  destruct (flujos sim_alimentado !! 1%Z) as [fe|] eqn:Hfe;
    [|vm_compute in Hfe; discriminate].
  exists fe.
  destruct (Celda_extremos celda_sin_masa (flujos sim_alimentado) 1 2 3
              0 (Qc_frac 3 4) fe)
    as (fs' & c & r & E & Ec & Er & H0 & _).
  - reflexivity.
  - reflexivity.
  - reflexivity.
  - reflexivity.
  - reflexivity.
  - reflexivity.
  - discriminate.
  - discriminate.
  - discriminate.
  - exact Hfe.
  - vm_compute. eauto.
  - vm_compute. eauto.
  - exists fs', c, r. split; [reflexivity|]. split; [exact E|].
    split; [exact Ec|]. split; [exact Er|]. exact (H0 eq_refl).
Defined.

(** X6.  When a cell's [calcular] raises, it has written no output: the store
    is the initial one, or the initial one with the fine content of the
    input re-derived (when the fault comes after the input was found).  The
    exception is [IndexError] (a missing input, a missing second output or a
    missing split factor) or the [KeyError] of a flow id that is not in the
    store; it is never [ZeroDivisionError]. *)
Theorem Celda_falla_sin_escribir
    (e : Equipo) (fs fs' : Flujos) (exc : excepcion) :
  cls e = ClaseCelda →
  calcular e fs = Raise exc fs' →
  (fs' = fs ∨
   ∃ id_e fe, flujos_entrada e !! 0%nat = Some id_e ∧ fs !! id_e = Some fe ∧
              fs' = <[id_e := reescrito fe]> fs) ∧
  (exc = IndexError ∨ ∃ k, exc = KeyError (ClaveInt k) ∧ fs !! k = None).
Proof.
  intros Hcls. unfold calcular. rewrite Hcls. unfold Celda_calcular.
  rewrite bind_eq. unfold indice at 1.
  destruct (flujos_entrada e !! 0%nat) as [id_e|] eqn:He; cbn;
    [|intros [= <- <-]; auto].
  rewrite bind_eq. unfold obtener at 1.
  destruct (fs !! id_e) as [fe|] eqn:Hfe;
    [|intros [= <- <-]; split; [by left|right; eauto]].
  rewrite bind_eq, actualizar_contenido_fino_eq, Hfe.
  assert (Ha : alter (con_contenido_fino (masa fe * ley fe / cien)) id_e fs
               = <[id_e := reescrito fe]> fs).
  { apply map_eq. intros j. destruct (decide (j = id_e)) as [->|Hj].
    - by rewrite lookup_alter_eq, lookup_insert_eq, Hfe.
    - by rewrite lookup_alter_ne, lookup_insert_ne. }
  rewrite Ha. set (fs1 := <[id_e := reescrito fe]> fs).
  assert (Hnone : ∀ k, fs1 !! k = None → fs !! k = None).
  { intros k. unfold fs1. destruct (decide (k = id_e)) as [->|Hj].
    - by rewrite lookup_insert_eq.
    - by rewrite lookup_insert_ne. }
  assert (Hdos : fs1 = fs ∨
             ∃ id_e0 fe0, Some id_e = Some id_e0 ∧ fs !! id_e0 = Some fe0 ∧
                          fs1 = <[id_e0 := reescrito fe0]> fs)
    by (right; eauto).
  rewrite bind_eq. unfold indice at 1.
  destruct (flujos_salida e !! 0%nat) as [id_c|] eqn:Hc; cbn;
    [|intros [= <- <-]; auto].
  rewrite bind_eq. unfold obtener at 1.
  destruct (fs1 !! id_c) as [c0|] eqn:Hc0;
    [|intros [= <- <-]; split; [done|right; eauto]].
  rewrite bind_eq. unfold indice at 1.
  destruct (flujos_salida e !! 1%nat) as [id_r|] eqn:Hr; cbn;
    [|intros [= <- <-]; auto].
  rewrite bind_eq. unfold obtener at 1.
  destruct (fs1 !! id_r) as [r0|] eqn:Hr0;
    [|intros [= <- <-]; split; [done|right; eauto]].
  rewrite bind_eq. unfold indice at 1.
  destruct (split_factor e !! 0%nat) as [sp_masa|] eqn:Hm; cbn;
    [|intros [= <- <-]; auto].
  rewrite bind_eq. unfold indice at 1.
  destruct (split_factor e !! 1%nat) as [sp_cuf|] eqn:Hf; cbn;
    [|intros [= <- <-]; auto].
  intros Hraise. exfalso.
  assert (Htot : total_en (dom fs1) (
    let* m := attr id_e masa in
    asignar id_c con_masa (m * sp_masa) >>
    let* m := attr id_e masa in
    asignar id_r con_masa (m * (1 - sp_masa)) >>
    let* c := attr id_e contenido_fino in
    asignar id_c con_contenido_fino (c * sp_cuf) >>
    let* c := attr id_e contenido_fino in
    asignar id_r con_contenido_fino (c * (1 - sp_cuf)) >>
    actualizar_ley id_c >>
    actualizar_ley id_r)).
  { assert (id_e ∈ dom fs1) by (apply elem_of_dom; unfold fs1;
                                rewrite lookup_insert_eq; eauto).
    assert (id_c ∈ dom fs1) by (apply elem_of_dom; eauto).
    assert (id_r ∈ dom fs1) by (apply elem_of_dom; eauto).
    repeat first [ t_hoja | apply total_bind; [|intros ?] ]. }
  destruct (Htot fs1 eq_refl) as (a & fs2 & E & _).
  rewrite E in Hraise. discriminate Hraise.
Qed.

Lemma Celda_falla_sin_escribir_witness :
  (estado_final
     (calcular (mkEquipo ClaseCelda "C" [1%Z] [2%Z] [Qc_frac 1 10; Qc_frac 3 4])
        flujos_sin_derivar)
   = flujos_sin_derivar ∨
   ∃ id_e fe,
     flujos_entrada
       (mkEquipo ClaseCelda "C" [1%Z] [2%Z] [Qc_frac 1 10; Qc_frac 3 4])
       !! 0%nat = Some id_e ∧
     flujos_sin_derivar !! id_e = Some fe ∧
     estado_final
       (calcular (mkEquipo ClaseCelda "C" [1%Z] [2%Z] [Qc_frac 1 10; Qc_frac 3 4])
          flujos_sin_derivar)
     = <[id_e := reescrito fe]> flujos_sin_derivar) ∧
  (IndexError = IndexError ∨
   ∃ k, IndexError = KeyError (ClaveInt k) ∧ flujos_sin_derivar !! k = None).
Proof.
  apply (Celda_falla_sin_escribir
           (mkEquipo ClaseCelda "C" [1%Z] [2%Z] [Qc_frac 1 10; Qc_frac 3 4])
           flujos_sin_derivar _ IndexError).
  - reflexivity.
  - vm_compute. reflexivity.
Defined.

(** ** simulador.py: feeds, passes and what they keep *)

(** X7.  [establecer_alimentacion] on a known flow id returns normally; the
    flow gets the given mass and grade and the fine content
    [masa * ley / 100], keeps its identifier and name, and nothing else in
    the simulator changes. *)
Theorem establecer_alimentacion_conocido
    (self : Simulador) (id_flujo : Z) (m l : Qc) (f : Flujo) :
  flujos self !! id_flujo = Some f →
  establecer_alimentacion id_flujo m l self
  = Ok tt (con_flujos
             (<[id_flujo := mkFlujo (f_id f) (f_nombre f) m l (m * l / cien)]>
                (flujos self)) self).
Proof.
  intros Hf. unfold establecer_alimentacion.
  rewrite decide_True by eauto. unfold en_flujos.
  rewrite bind_eq, obtener_eq by eauto.
  rewrite bind_eq. unfold asignar at 1.
  rewrite bind_eq, obtener_eq by (rewrite lookup_alter_eq, Hf; eauto).
  rewrite bind_eq. unfold asignar at 1.
  rewrite bind_eq, obtener_eq by (rewrite !lookup_alter_eq, Hf; eauto).
  rewrite actualizar_contenido_fino_eq, !lookup_alter_eq, Hf. cbn.
  do 2 f_equal. apply map_eq. intros j.
  destruct (decide (j = id_flujo)) as [->|Hj].
  - rewrite lookup_insert_eq, !lookup_alter_eq, Hf. reflexivity.
  - rewrite lookup_insert_ne, !lookup_alter_ne by done. reflexivity.
Qed.

Lemma establecer_alimentacion_conocido_witness :
  establecer_alimentacion 1 cien (Qc_frac 3 2) sim_ej
  = Ok tt (con_flujos
             (<[1%Z := mkFlujo 1 "" cien (Qc_frac 3 2) (cien * Qc_frac 3 2 / cien)]>
                (flujos sim_ej)) sim_ej).
Proof.
  apply (establecer_alimentacion_conocido sim_ej 1 cien (Qc_frac 3 2)
           (Flujo_nuevo 1)).
  reflexivity.
Defined.

Global Instance conserva_preorder : PreOrder conserva.
Proof.
  split.
  - intros s. unfold conserva. split_and!; try reflexivity.
    intros k. apply misma_forma_refl.
  - intros s1 s2 s3 H12 H23. unfold conserva in *.
    destruct H12 as (A1 & A2 & A3 & A4 & A5 & A6 & A7 & A8).
    destruct H23 as (B1 & B2 & B3 & B4 & B5 & B6 & B7 & B8).
    split_and!; try congruence.
    intros k. eapply misma_forma_trans; [apply A8|apply B8].
Qed.

Lemma conserva_nodo (kv : string * Equipo) (s : Simulador) :
  conserva s (estado_final ((registrar kv.1 >> en_flujos (calcular kv.2)) s)).
Proof.
  rewrite bind_eq. unfold registrar, en_flujos. cbn.
  pose proof (marco_calcular kv.2 (flujos s)) as Hm.
  destruct (calcular kv.2 (flujos s)) as [[] fs1|e fs1]; cbn in *;
    (unfold conserva; cbn; split_and!; try reflexivity;
     intros k; apply (Hm k)).
Qed.

Lemma conserva_ejecutar_iteracion (s : Simulador) :
  conserva s (estado_final (ejecutar_iteracion s)).
Proof.
  unfold ejecutar_iteracion.
  apply (para_cada_invariante (conserva s) (λ _, True)).
  - intros kv s1 _ H1. etrans; [exact H1|]. apply conserva_nodo.
  - apply Forall_forall. auto.
  - reflexivity.
Qed.

(** X8.  Whatever its outcome, a result or an exception, [simular] leaves the
    simulator with the same nodes, pass count, tailings set and flow
    classification, and with the same flow keys, each flow keeping its
    identifier and name: solving changes only masses, grades and fine
    contents. *)
Theorem simular_conserva (orden : gset Z → list Z) (self : Simulador) :
  conserva self (estado_final (simular orden self)).
Proof.
  unfold simular. rewrite bind_eq.
  assert (H : conserva self
            (estado_final
               (para_cada (rango (iteraciones_convergencia self))
                  (λ _, ejecutar_iteracion) self))).
  { apply (para_cada_invariante (conserva self) (λ _, True)).
    - intros i s1 _ H1. etrans; [exact H1|]. apply conserva_ejecutar_iteracion.
    - apply Forall_forall. auto.
    - reflexivity. }
  destruct (para_cada _ _ self) as [[] s1|e s1]; cbn in H; [|exact H].
  by rewrite _calcular_resultados_estado.
Qed.



(** ** simulador.py: the table of a Monte Carlo run *)

Lemma elem_of_zip_fmap {A B} (g : A → B) (l : list A) x b :
  (x, b) ∈ zip l (g <$> l) → b = g x.
Proof.
  induction l as [|y l IH]; cbn; [by intros ?%elem_of_nil|].
  intros [[= -> ->]|H]%elem_of_cons; auto.
Qed.

Lemma seleccionar_mascara df (c : string) (p : Qc → bool) fila :
  fila ∈ filas (seleccionar df
                  (mascara p ((λ f : Fila, f !! c) <$> filas df))) →
  fila ∈ filas df ∧ ∃ v, fila !! c = Some v ∧ p v = true.
Proof.
  unfold seleccionar, mascara. cbn. intros Hin.
  apply list_elem_of_omap in Hin as ([f b] & Hz & Hf). cbn in Hf.
  destruct b; [|done]. injection Hf as ->.
  rewrite <- list_fmap_compose in Hz.
  pose proof (elem_of_zip_fmap _ _ _ _ Hz) as Hb. cbn in Hb.
  split; [by apply elem_of_zip_l in Hz|].
  destruct (fila !! c) as [v|]; cbn in Hb; [eauto|done].
Qed.

Lemma omap_largo {A B} (f : A → option B) (l : list A) :
  (length (omap f l) ≤ length l)%nat.
Proof. induction l as [|x l IH]; cbn; [lia|]. destruct (f x); cbn; lia. Qed.

Lemma length_seleccionar df m :
  (length (filas (seleccionar df m)) ≤ length (filas df))%nat.
Proof.
  unfold seleccionar. cbn. etrans; [apply omap_largo|].
  rewrite length_zip. lia.
Qed.

Lemma filtro_Ok {S} (df : DataFrame) (o : option Qc) (p : Qc → Qc → bool)
    (s : S) df' s' :
  match o with
  | Some b =>
      let* col := columna df "ley_concentrado" in
      ret (seleccionar df (mascara (p b) col))
  | None => ret df
  end s = Ok df' s' →
  s' = s ∧
  (length (filas df') ≤ length (filas df))%nat ∧
  ∀ fila, fila ∈ filas df' →
    fila ∈ filas df ∧
    ∀ b, o = Some b → ∃ v, fila !! "ley_concentrado" = Some v ∧ p b v = true.
Proof.
  destruct o as [b|].
  - rewrite bind_eq. unfold columna. case_decide; [|done].
    cbn. intros [= <- <-]. split; [done|]. split; [apply length_seleccionar|].
    intros fila [H1 H2]%seleccionar_mascara. split; [done|].
    by intros ? [= <-].
  - intros [= -> ->]. split; [done|]. split; [done|]. intros fila ?. by split.
Qed.

Section MonteCarloTabla.
Context (orden : gset Z → list Z) (Rng : Type)
        (uniform : Qc → Qc → Rng → Qc * Rng).

Lemma ensayo_largo self config alimentacion i (st : EstadoMC Rng) :
  (length (resultados Rng
     (estado_final (ensayo orden Rng uniform self config alimentacion i st)))
   ≤ S (length (resultados Rng st)))%nat.
Proof.
  unfold ensayo. rewrite bind_eq.
  pose proof (preparar_resultados Rng uniform self config alimentacion st) as Hp.
  destruct (preparar Rng uniform self config alimentacion st)
    as [ts st1|e st1]; cbn in Hp; [|cbn; rewrite Hp; lia].
  destruct (simular orden ts.1) as [r s'|e s']; [|cbn; rewrite Hp; lia].
  destruct (leyes_validas r); cbn; rewrite Hp; [|lia].
  rewrite length_app. cbn. lia.
Qed.

Lemma bucle_largo self config alimentacion (l : list nat) (st : EstadoMC Rng) :
  (length (resultados Rng
     (estado_final
        (para_cada l (ensayo orden Rng uniform self config alimentacion) st)))
   ≤ length (resultados Rng st) + length l)%nat.
Proof.
  revert st. induction l as [|i l IH]; intros st; cbn; [lia|].
  rewrite bind_eq.
  pose proof (ensayo_largo self config alimentacion i st) as H.
  destruct (ensayo orden Rng uniform self config alimentacion i st)
    as [[] st1|e st1]; cbn in *; [|lia].
  specialize (IH st1). lia.
Qed.

(** X11.  The table [simular_montecarlo] returns has at most
    [n_iteraciones] rows, and every row passes the grade filter: it has a
    concentrate grade, which is at least [ley_min] when that bound is set
    and at most [ley_max] when that bound is set. *)
Theorem tabla_filtrada
    (self : Simulador) (config : ConfiguracionMC)
    (alimentacion : list (Z * gmap string Qc)) (st st' : EstadoMC Rng)
    (df : DataFrame) :
  simular_montecarlo orden Rng uniform self config alimentacion st
    = Ok df st' →
  (length (filas df) ≤ Z.to_nat (n_iteraciones config))%nat ∧
  ∀ fila, fila ∈ filas df →
    (∀ lo, ley_min config = Some lo →
       ∃ v, fila !! "ley_concentrado" = Some v ∧ lo ≤ v) ∧
    (∀ hi, ley_max config = Some hi →
       ∃ v, fila !! "ley_concentrado" = Some v ∧ v ≤ hi).
Proof.
  intros H. unfold simular_montecarlo in H.
  apply bind_Ok in H as ([] & st1 & [= <-] & H).
  apply bind_Ok in H as ([] & st2 & Eb & H).
  apply bind_Ok in H as (df0 & st3 & [= <- <-] & H).
  apply bind_Ok in H as (df1 & st4 & E1 & H).
  apply bind_Ok in H as (df2 & st5 & E2 & [= <- <-]).
  apply filtro_Ok in E1 as (-> & L1 & H1).
  apply filtro_Ok in E2 as (-> & L2 & H2).
  split.
  - pose proof (bucle_largo self config alimentacion
                  (rango (n_iteraciones config))
                  (mkEstadoMC Rng (rng Rng st) [])) as Hl.
    rewrite Eb in Hl. cbn in Hl. unfold rango in Hl. rewrite length_seq in Hl.
    cbn in L1. lia.
  - intros fila Hfila. destruct (H2 fila Hfila) as [Hin1 Hmax].
    destruct (H1 fila Hin1) as [_ Hmin]. split.
    + intros lo Hlo. destruct (Hmin lo Hlo) as (v & Hv & Hp).
      exists v. split; [done|]. by apply bool_decide_eq_true in Hp.
    + intros hi Hhi. destruct (Hmax hi Hhi) as (v & Hv & Hp).
      exists v. split; [done|]. by apply bool_decide_eq_true in Hp.
Qed.

End MonteCarloTabla.

Lemma tabla_filtrada_witness :
  ∃ df st',
    simular_montecarlo elements unit uniforme_ej sim_ej config_acotada
      alimentacion_ej (mkEstadoMC unit tt []) = Ok df st' ∧
    length (filas df) = 2%nat ∧
    ∀ fila, fila ∈ filas df →
      (∀ lo, ley_min config_acotada = Some lo →
         ∃ v, fila !! "ley_concentrado" = Some v ∧ lo ≤ v) ∧
      (∀ hi, ley_max config_acotada = Some hi →
         ∃ v, fila !! "ley_concentrado" = Some v ∧ v ≤ hi).
Proof.
  destruct (simular_montecarlo elements unit uniforme_ej sim_ej config_acotada
              alimentacion_ej (mkEstadoMC unit tt [])) as [df st'|e st'] eqn:E;
    vm_compute in E; [|discriminate].
  exists df, st'. split; [reflexivity|].
  split; [by injection E as <- <-|].
  apply (tabla_filtrada elements unit uniforme_ej sim_ej config_acotada
           alimentacion_ej (mkEstadoMC unit tt []) st' df).
  rewrite <- E. vm_compute. reflexivity.
Defined.

(** ** simulador.py: errors in the setup of a Monte Carlo trial *)

Lemma alimentar_cons kv l fs :
  alimentar (kv :: l) fs
  = match alimentar [kv] fs with
    | Ok _ fs' => alimentar l fs'
    | Raise e fs' => Raise e fs'
    end.
Proof.
  unfold alimentar. cbn [para_cada]. rewrite !bind_eq.
  match goal with |- context [match ?c with Ok _ _ => _ | Raise _ _ => _ end] =>
    destruct c as [[] fs'|e fs'] end; done.
Qed.

Lemma alimentar_uno id (valores : gmap string Qc) fs :
  match alimentar [(id, valores)] fs with
  | Ok _ fs' =>
      (∀ k, is_Some (fs' !! k) ↔ is_Some (fs !! k)) ∧
      (is_Some (fs !! id) →
       is_Some (valores !! "masa") ∧ is_Some (valores !! "ley"))
  | Raise e _ =>
      is_Some (fs !! id) ∧
      (e = KeyError (ClaveStr "masa") ∨ e = KeyError (ClaveStr "ley"))
  end.
Proof.
  unfold alimentar. cbn [para_cada fst snd]. rewrite bind_eq.
  destruct (decide (is_Some (fs !! id))) as [Hs|Hn].
  - destruct Hs as [f Hf].
    unfold actualizar_contenido_fino, buscar, bind, obtener, asignar, attr, ret,
      raise.
    destruct (valores !! "masa") as [m|]; [|by eauto].
    rewrite Hf. cbn -[Qcmult Qcdiv cien alter].
    destruct (valores !! "ley") as [l|]; [|by eauto].
    repeat (rewrite ?lookup_alter_eq, ?Hf; cbn -[Qcmult Qcdiv cien alter]).
    split; [|by eauto].
    intros k. by rewrite !lookup_alter_is_Some.
  - cbn. split; [done|]. by intros ?.
Qed.

Lemma alimentar_incompleta alimentacion id (valores : gmap string Qc) fs :
  (id, valores) ∈ alimentacion →
  is_Some (fs !! id) →
  valores !! "masa" = None ∨ valores !! "ley" = None →
  ∃ c fs', (c = "masa" ∨ c = "ley") ∧
           alimentar alimentacion fs = Raise (KeyError (ClaveStr c)) fs'.
Proof.
  intros Hin Hs Hv. revert fs Hs.
  induction alimentacion as [|[id' v'] l IH]; intros fs Hs;
    [by apply elem_of_nil in Hin|].
  rewrite alimentar_cons.
  pose proof (alimentar_uno id' v' fs) as H1.
  destruct (alimentar [(id', v')] fs) as [[] fs1|e fs1].
  - destruct H1 as [Hdom Hok].
    apply elem_of_cons in Hin as [[= <- <-]|Hin].
    + destruct (Hok Hs) as [[? Hm] [? Hl]]. destruct Hv; congruence.
    + apply IH; [done|]. by apply Hdom.
  - destruct H1 as [_ [->| ->]]; eauto 6.
Qed.

Section MonteCarloPreparacion.
Context (orden : gset Z → list Z) (Rng : Type)
        (uniform : Qc → Qc → Rng → Qc * Rng).

Lemma sortear_sin_rango config nombre objetivo :
  nombre ∈ objetivo →
  rangos config !! nombre = None →
  ∀ equipos_mc split_info (st : EstadoMC Rng),
    is_Some (dict_get nombre equipos_mc) →
    ∃ c st',
      sortear Rng uniform config objetivo equipos_mc split_info st
      = Raise (KeyError (ClaveStr c)) st'.
Proof.
  intros Hin Hr. induction objetivo as [|n resto IH];
    intros equipos_mc split_info st Hs; [by apply elem_of_nil in Hin|].
  cbn [sortear].
  destruct (decide (n = nombre)) as [->|Hne].
  - rewrite decide_True by done. rewrite bind_eq. unfold buscar at 1.
    rewrite Hr. cbn. eauto.
  - apply elem_of_cons in Hin as [?|Hin]; [congruence|].
    case_decide; [|by apply IH].
    rewrite bind_eq. unfold buscar at 1.
    destruct (rangos config !! n) as [rg|]; [|cbn; eauto]. cbn.
    rewrite bind_eq. unfold buscar at 1.
    destruct (rg !! "masa") as [r_masa|]; [|cbn; eauto]. cbn.
    rewrite bind_eq. unfold sortear_uniforme at 1.
    destruct (uniform r_masa.1 r_masa.2 (rng Rng st)) as [sp_masa g1].
    rewrite bind_eq. unfold buscar at 1.
    destruct (rg !! "cuf") as [r_cuf|]; [|cbn; eauto]. cbn.
    rewrite bind_eq. unfold sortear_uniforme at 1. cbn.
    destruct (uniform r_cuf.1 r_cuf.2 g1) as [sp_cuf g2].
    apply IH; [done|]. by apply dict_get_alter_is_Some.
Qed.

Lemma preparar_falla_montecarlo self config alimentacion (st : EstadoMC Rng)
    e st1 :
  (1 ≤ n_iteraciones config)%Z →
  preparar Rng uniform self config alimentacion (mkEstadoMC Rng (rng Rng st) [])
    = Raise e st1 →
  simular_montecarlo orden Rng uniform self config alimentacion st
  = Raise e st1.
Proof.
  intros Hn Hp. unfold simular_montecarlo. rewrite bind_eq.
  unfold rango. destruct (Z.to_nat (n_iteraciones config)) as [|m] eqn:Em; [lia|].
  cbn [seq para_cada]. rewrite !bind_eq. unfold ensayo at 1.
  rewrite bind_eq, Hp. done.
Qed.

(** X12.  A target that is a node of the circuit must have its ranges.  If
    some name of [equipos_objetivo] is a node and [rangos] has no entry for
    it, a run of at least one trial returns no table: the [KeyError] of the
    lookup is raised outside the [try] block and ends the run.  (A target
    that is not a node is skipped instead.) *)
Theorem objetivo_sin_rango_falla
    (self : Simulador) (config : ConfiguracionMC)
    (alimentacion : list (Z * gmap string Qc)) (st : EstadoMC Rng)
    (nombre : string) :
  (1 ≤ n_iteraciones config)%Z →
  nombre ∈ equipos_objetivo config →
  is_Some (dict_get nombre (equipos self)) →
  rangos config !! nombre = None →
  ∃ c st',
    simular_montecarlo orden Rng uniform self config alimentacion st
    = Raise (KeyError (ClaveStr c)) st'.
Proof.
  intros Hn Hin Hs Hr.
  set (st0 := mkEstadoMC Rng (rng Rng st) []).
  assert (∃ c st1, preparar Rng uniform self config alimentacion st0
                   = Raise (KeyError (ClaveStr c)) st1) as (c & st1 & Hp).
  { unfold preparar. cbn [copiar_estado]. rewrite bind_eq. unfold en_local at 1.
    destruct (alimentar alimentacion (flujos self)) as [[] fs1|e fs1] eqn:Ea.
    - rewrite bind_eq.
      destruct (sortear_sin_rango config nombre (equipos_objetivo config)
                  Hin Hr (equipos self) ∅ st0 Hs) as (c & st1 & ->). eauto.
    - assert (∃ c, e = KeyError (ClaveStr c)) as [c ->]; [|eauto].
      clear -Ea. revert Ea. generalize (flujos self).
      induction alimentacion as [|[id v] l IH]; intros fs; [done|].
      rewrite alimentar_cons.
      pose proof (alimentar_uno id v fs) as H1.
      destruct (alimentar [(id, v)] fs) as [[] fs2|e2 fs2]; [apply IH|].
      intros [= <- <-]. destruct H1 as [_ [->| ->]]; eauto. }
  exists c, st1. by apply preparar_falla_montecarlo.
Qed.

(** X13.  The feed is not checked before the trials either: if the feed
    names a flow of the circuit but gives it no ['masa'] or no ['ley'], a
    run of at least one trial ends with the [KeyError] of that lookup, which
    is raised outside the [try] block. *)
Theorem alimentacion_incompleta_falla
    (self : Simulador) (config : ConfiguracionMC)
    (alimentacion : list (Z * gmap string Qc)) (st : EstadoMC Rng)
    (id : Z) (valores : gmap string Qc) :
  (1 ≤ n_iteraciones config)%Z →
  (id, valores) ∈ alimentacion →
  is_Some (flujos self !! id) →
  valores !! "masa" = None ∨ valores !! "ley" = None →
  ∃ c st',
    (c = "masa" ∨ c = "ley") ∧
    simular_montecarlo orden Rng uniform self config alimentacion st
    = Raise (KeyError (ClaveStr c)) st'.
Proof.
  intros Hn Hin Hs Hv.
  destruct (alimentar_incompleta alimentacion id valores (flujos self)
              Hin Hs Hv) as (c & fs' & Hc & Ha).
  exists c, (mkEstadoMC Rng (rng Rng st) []). split; [done|].
  apply preparar_falla_montecarlo; [done|].
  unfold preparar. cbn [copiar_estado]. rewrite bind_eq. unfold en_local at 1.
  by rewrite Ha.
Qed.

End MonteCarloPreparacion.

Lemma objetivo_sin_rango_falla_witness :
  ∃ c st',
    simular_montecarlo elements unit uniforme_ej sim_ej config_sin_rango
      alimentacion_ej (mkEstadoMC unit tt [])
    = Raise (KeyError (ClaveStr c)) st'.
Proof.
  apply (objetivo_sin_rango_falla elements unit uniforme_ej sim_ej
           config_sin_rango alimentacion_ej (mkEstadoMC unit tt []) "Celda").
  - vm_compute. discriminate.
  - apply (bool_decide_unpack ("Celda" ∈ equipos_objetivo config_sin_rango)).
    vm_compute. exact I.
  - vm_compute. eauto.
  - vm_compute. reflexivity.
Defined.

Lemma alimentacion_incompleta_falla_witness :
  ∃ c st',
    (c = "masa" ∨ c = "ley") ∧
    simular_montecarlo elements unit uniforme_ej sim_ej config_celda
      alimentacion_sin_ley (mkEstadoMC unit tt [])
    = Raise (KeyError (ClaveStr c)) st'.
Proof.
  apply (alimentacion_incompleta_falla elements unit uniforme_ej sim_ej
           config_celda alimentacion_sin_ley (mkEstadoMC unit tt [])
           1%Z (<["masa" := cien]> ∅)).
  - vm_compute. discriminate.
  - apply list_elem_of_singleton. reflexivity.
  - vm_compute. eauto.
  - right. vm_compute. reflexivity.
Defined.

(** ** simulador.py: the sampling of split factors *)

Section MonteCarloSorteo.
Context (Rng : Type) (uniform : Qc → Qc → Rng → Qc * Rng).

Lemma sortear_Ok_cons config n resto equipos_mc split_info
    (st : EstadoMC Rng) es st' :
  is_Some (dict_get n equipos_mc) →
  sortear Rng uniform config (n :: resto) equipos_mc split_info st = Ok es st' →
  ∃ rg r_masa r_cuf,
    rangos config !! n = Some rg ∧ rg !! "masa" = Some r_masa ∧
    rg !! "cuf" = Some r_cuf ∧
    let d1 := uniform r_masa.1 r_masa.2 (rng Rng st) in
    let d2 := uniform r_cuf.1 r_cuf.2 d1.2 in
    sortear Rng uniform config resto
      (dict_alter (con_split_factor [d1.1; d2.1]) n equipos_mc)
      (<[n +:+ "_sp_cuf" := d2.1]> (<[n +:+ "_sp_masa" := d1.1]> split_info))
      (mkEstadoMC Rng d2.2 (resultados Rng st))
    = Ok es st'.
Proof.
  intros Hs. cbn [sortear]. rewrite decide_True by done.
  rewrite bind_eq. unfold buscar at 1.
  destruct (rangos config !! n) as [rg|] eqn:Erg; [|done]. cbn.
  rewrite bind_eq. unfold buscar at 1.
  destruct (rg !! "masa") as [r_masa|] eqn:Em; [|done]. cbn.
  rewrite bind_eq. unfold sortear_uniforme at 1.
  destruct (uniform r_masa.1 r_masa.2 (rng Rng st)) as [sp_masa g1] eqn:E1.
  rewrite bind_eq. unfold buscar at 1.
  destruct (rg !! "cuf") as [r_cuf|] eqn:Ec; [|done]. cbn.
  rewrite bind_eq. unfold sortear_uniforme at 1. cbn.
  destruct (uniform r_cuf.1 r_cuf.2 g1) as [sp_cuf g2] eqn:E2.
  intros H. exists rg, r_masa, r_cuf. split_and!; try done.
  cbn. rewrite E1. cbn. rewrite E2. done.
Qed.

Lemma sortear_ajenos config objetivo :
  ∀ equipos_mc split_info (st : EstadoMC Rng) es st',
    sortear Rng uniform config objetivo equipos_mc split_info st = Ok es st' →
    ∀ n, n ∉ objetivo → dict_get n es.1 = dict_get n equipos_mc.
Proof.
  induction objetivo as [|m resto IH];
    intros equipos_mc split_info st es st' H n Hn.
  - by injection H as <- <-.
  - apply not_elem_of_cons in Hn as [Hne Hn].
    destruct (decide (is_Some (dict_get m equipos_mc))) as [Hs|Hs].
    + apply sortear_Ok_cons in H as (rg & r_masa & r_cuf & _ & _ & _ & H);
        [|done].
      cbn zeta in H. rewrite (IH _ _ _ _ _ H n Hn).
      rewrite dict_get_alter, decide_False by done. apply option_fmap_id.
    + cbn [sortear] in H. rewrite decide_False in H by done. eauto.
Qed.

(** X14.  What the sampling loop does to the nodes.  Assume the generator
    returns a value between its bounds when they are ordered.  When the loop
    over the targets completes, a node that is not a target is as it was,
    and a node that is a target differs from the original at most in its
    split factor, which is a pair [sp_masa, sp_cuf]; each of the two lies
    within the range configured for it when that range is ordered. *)
Theorem sortear_en_rango
    (config : ConfiguracionMC) (objetivo : list string)
    (equipos_mc : Equipos) (split_info : Fila) (st st' : EstadoMC Rng)
    (es : Equipos * Fila) :
  (∀ lo hi g, lo ≤ hi →
     lo ≤ (uniform lo hi g).1 ∧ (uniform lo hi g).1 ≤ hi) →
  sortear Rng uniform config objetivo equipos_mc split_info st = Ok es st' →
  (∀ n, n ∉ objetivo → dict_get n es.1 = dict_get n equipos_mc) ∧
  (∀ n e, n ∈ objetivo → dict_get n equipos_mc = Some e →
     ∃ rg r_masa r_cuf sp_masa sp_cuf,
       rangos config !! n = Some rg ∧
       rg !! "masa" = Some r_masa ∧
       rg !! "cuf" = Some r_cuf ∧
       dict_get n es.1 = Some (con_split_factor [sp_masa; sp_cuf] e) ∧
       (r_masa.1 ≤ r_masa.2 → r_masa.1 ≤ sp_masa ∧ sp_masa ≤ r_masa.2) ∧
       (r_cuf.1 ≤ r_cuf.2 → r_cuf.1 ≤ sp_cuf ∧ sp_cuf ≤ r_cuf.2)).
Proof.
  intros Hu H. split; [by eapply sortear_ajenos|].
  revert equipos_mc split_info st H.
  induction objetivo as [|m resto IH]; intros equipos_mc split_info st H n e Hin He;
    [by apply elem_of_nil in Hin|].
  destruct (decide (is_Some (dict_get m equipos_mc))) as [Hs|Hs].
  - apply sortear_Ok_cons in H as (rg & r_masa & r_cuf & Hrg & Hm & Hc & H);
      [|done].
    cbn zeta in H.
    set (d1 := uniform r_masa.1 r_masa.2 (rng Rng st)) in *.
    set (d2 := uniform r_cuf.1 r_cuf.2 d1.2) in *.
    destruct (decide (n ∈ resto)) as [Hr|Hr].
    + destruct (decide (n = m)) as [->|Hne].
      * destruct (IH _ _ _ H m (con_split_factor [d1.1; d2.1] e) Hr)
          as (rg' & rm' & rc' & sm & sc & ? & ? & ? & Hg & ? & ?).
        { rewrite dict_get_alter, decide_True, He by done. done. }
        exists rg', rm', rc', sm, sc. split_and!; done.
      * apply (IH _ _ _ H n e Hr).
        rewrite dict_get_alter, decide_False, He by done. done.
    + apply elem_of_cons in Hin as [->|?]; [|done].
      exists rg, r_masa, r_cuf, d1.1, d2.1. split_and!; try done.
      * rewrite (sortear_ajenos _ _ _ _ _ _ _ H m Hr).
        rewrite dict_get_alter, decide_True, He by done. done.
      * intros Ho. apply (Hu _ _ _ Ho).
      * intros Ho. apply (Hu _ _ _ Ho).
  - cbn [sortear] in H. rewrite decide_False in H by done.
    apply elem_of_cons in Hin as [->|Hr]; [rewrite He in Hs; by destruct Hs|].
    by apply (IH _ _ _ H).
Qed.

End MonteCarloSorteo.

Lemma sortear_en_rango_witness :
  ∃ es st',
    sortear unit uniforme_ej config_celda ["Celda"] (equipos sim_ej) ∅
      (mkEstadoMC unit tt []) = Ok es st' ∧
    (∀ n, n ∉ ["Celda"] → dict_get n es.1 = dict_get n (equipos sim_ej)) ∧
    (∀ n e, n ∈ ["Celda"] → dict_get n (equipos sim_ej) = Some e →
       ∃ rg r_masa r_cuf sp_masa sp_cuf,
         rangos config_celda !! n = Some rg ∧
         rg !! "masa" = Some r_masa ∧
         rg !! "cuf" = Some r_cuf ∧
         dict_get n es.1 = Some (con_split_factor [sp_masa; sp_cuf] e) ∧
         (r_masa.1 ≤ r_masa.2 → r_masa.1 ≤ sp_masa ∧ sp_masa ≤ r_masa.2) ∧
         (r_cuf.1 ≤ r_cuf.2 → r_cuf.1 ≤ sp_cuf ∧ sp_cuf ≤ r_cuf.2)).
Proof.
  destruct (sortear unit uniforme_ej config_celda ["Celda"] (equipos sim_ej) ∅
              (mkEstadoMC unit tt [])) as [es st'|e st'] eqn:E;
    vm_compute in E; [|discriminate].
  exists es, st'. split; [reflexivity|].
  apply (sortear_en_rango unit uniforme_ej config_celda ["Celda"]
           (equipos sim_ej) ∅ (mkEstadoMC unit tt []) st' es).
  - intros lo hi g H. cbn. split; [apply Qcle_refl|exact H].
  - refine (eq_trans _ E). vm_compute. reflexivity.
Defined.

(** ** simulador.py: the default configuration *)

Lemma rangos_default_acc (equipos : list string)
    (acc : gmap string (gmap string (Qc * Qc))) n :
  foldl (λ (acc : gmap string (gmap string (Qc * Qc))) eq,
           <[eq := rangos_por_defecto]> acc) acc equipos !! n
  = if decide (n ∈ equipos) then Some rangos_por_defecto else acc !! n.
Proof.
  revert acc. induction equipos as [|m l IH]; intros acc; cbn.
  - rewrite decide_False; [done|]. by intros ?%elem_of_nil.
  - rewrite IH. destruct (decide (n ∈ l)) as [Hl|Hl].
    + rewrite decide_True; [done|]. by apply list_elem_of_further.
    + destruct (decide (n = m)) as [->|Hne].
      * rewrite lookup_insert_eq, decide_True; [done|]. apply list_elem_of_here.
      * rewrite lookup_insert_ne by done. rewrite decide_False; [done|].
        by intros [?|?]%elem_of_cons.
Qed.

Section MonteCarloDefault.
Context (Rng : Type) (uniform : Qc → Qc → Rng → Qc * Rng).

Lemma sortear_default_total (equipos objetivo : list string) :
  (∀ n, n ∈ objetivo → n ∈ equipos) →
  ∀ equipos_mc split_info (st : EstadoMC Rng),
    ∃ es st',
      sortear Rng uniform (ConfiguracionMC_default equipos) objetivo
        equipos_mc split_info st = Ok es st'.
Proof.
  induction objetivo as [|n resto IH]; intros Hsub equipos_mc split_info st;
    [cbn; eauto|].
  assert (∀ n, n ∈ resto → n ∈ equipos) as Hsub'.
  { intros m Hm. apply Hsub. by apply list_elem_of_further. }
  cbn [sortear]. case_decide; [|by apply IH].
  rewrite bind_eq. unfold buscar at 1. cbn [rangos ConfiguracionMC_default].
  rewrite rangos_default_acc, decide_True by (apply Hsub, list_elem_of_here).
  cbn. rewrite bind_eq. unfold buscar at 1.
  change (rangos_por_defecto !! "masa") with (Some (Qc_frac 1 50, Qc_frac 7 10)).
  cbn. rewrite bind_eq. unfold sortear_uniforme at 1.
  destruct (uniform _ _ (rng Rng st)) as [sp_masa g1].
  rewrite bind_eq. unfold buscar at 1.
  change (rangos_por_defecto !! "cuf") with (Some (Qc_frac 1 50, Qc_frac 9 10)).
  cbn. rewrite bind_eq. unfold sortear_uniforme at 1. cbn.
  destruct (uniform _ _ g1) as [sp_cuf g2].
  by apply IH.
Qed.

(** X15.  [ConfiguracionMC.default] is complete for its own targets: every
    name of the list gets the ranges (0.02, 0.7) for the mass split and
    (0.02, 0.9) for the fine-content split, no filter is set, and the
    sampling loop of a trial finishes without an exception whatever the
    circuit and the generator are. *)
Theorem default_completa (equipos : list string) :
  (∀ n, n ∈ equipos →
     ∃ rg, rangos (ConfiguracionMC_default equipos) !! n = Some rg ∧
           rg !! "masa" = Some (Qc_frac 1 50, Qc_frac 7 10) ∧
           rg !! "cuf" = Some (Qc_frac 1 50, Qc_frac 9 10)) ∧
  ley_min (ConfiguracionMC_default equipos) = None ∧
  ley_max (ConfiguracionMC_default equipos) = None ∧
  ∀ equipos_mc split_info (st : EstadoMC Rng),
    ∃ es st',
      sortear Rng uniform (ConfiguracionMC_default equipos)
        (equipos_objetivo (ConfiguracionMC_default equipos))
        equipos_mc split_info st = Ok es st'.
Proof.
  split_and!; [|done|done|].
  - intros n Hn. exists rangos_por_defecto. split_and!; [|done|done].
    cbn. by rewrite rangos_default_acc, decide_True.
  - apply sortear_default_total. done.
Qed.

End MonteCarloDefault.

(** ** io.py: circuits built from a dictionary *)

Lemma dict_get_set {V} (k n : string) (v : V) (d : list (string * V)) :
  dict_get n (dict_set k v d) = if decide (n = k) then Some v else dict_get n d.
Proof.
  induction d as [|[k' v'] d IH]; cbn.
  - repeat case_decide; subst; done.
  - repeat (case_decide; cbn; subst); try done.
Qed.

Lemma crear_flujos_lookup ids (fs : Flujos) k :
  crear_flujos ids fs !! k
  = match fs !! k with
    | Some f => Some f
    | None => if decide (k ∈ ids) then Some (Flujo_nuevo k) else None
    end.
Proof.
  unfold crear_flujos. revert fs. induction ids as [|i ids IH]; intros fs; cbn.
  - destruct (fs !! k); [done|]. rewrite decide_False; [done|].
    by intros ?%elem_of_nil.
  - rewrite IH. destruct (decide (is_Some (fs !! i))) as [Hs|Hs].
    + destruct (fs !! k) as [f|] eqn:Ek; [done|].
      destruct (decide (k = i)) as [->|Hne].
      { rewrite Ek in Hs. by destruct Hs. }
      destruct (decide (k ∈ ids)) as [Hk|Hk].
      * rewrite decide_True; [done|]. by apply list_elem_of_further.
      * rewrite decide_False; [done|]. by intros [?|?]%elem_of_cons.
    + destruct (decide (k = i)) as [->|Hne].
      * rewrite lookup_insert_eq.
        apply eq_None_not_Some in Hs. rewrite Hs.
        rewrite decide_True; [done|]. apply list_elem_of_here.
      * rewrite lookup_insert_ne by done.
        destruct (fs !! k); [done|].
        destruct (decide (k ∈ ids)) as [Hk|Hk].
        -- rewrite decide_True; [done|]. by apply list_elem_of_further.
        -- rewrite decide_False; [done|]. by intros [?|?]%elem_of_cons.
Qed.

Section CrearCircuitoProps.
Context (lower : string → string).

Lemma crear_equipo_inr c (fs : Flujos) n e fs' :
  crear_equipo lower c fs = inr (n, e, fs') →
  ∃ t entrada salida,
    c_tipo c = Some t ∧ (lower t = "celda" ∨ lower t = "suma") ∧
    c_nombre c = Some n ∧ c_entrada c = Some entrada ∧
    c_salida c = Some salida ∧
    e = mkEquipo (clase_de lower t) n entrada salida
          (default [0; 0] (c_split_factor c)) ∧
    fs' = crear_flujos salida (crear_flujos entrada fs).
Proof.
  unfold crear_equipo, clase_de.
  destruct (c_tipo c) as [t|]; [|done]. cbn zeta.
  destruct (decide (lower t = "celda")) as [Hc|Hc].
  - destruct (c_nombre c) as [n'|]; [|done].
    destruct (c_entrada c) as [entrada|]; [|done].
    destruct (c_salida c) as [salida|]; [|done].
    intros [= <- <- <-]. exists t, entrada, salida. split_and!; auto;
      first [by rewrite decide_True | by rewrite decide_False].
  - destruct (decide (lower t = "suma")) as [Hs|Hs]; [|done].
    destruct (c_nombre c) as [n'|]; [|done].
    destruct (c_entrada c) as [entrada|]; [|done].
    destruct (c_salida c) as [salida|]; [|done].
    intros [= <- <- <-]. exists t, entrada, salida. split_and!; auto;
      first [by rewrite decide_True | by rewrite decide_False].
Qed.

Lemma crear_equipo_completa c (fs : Flujos) :
  entrada_completa lower c → ∃ r, crear_equipo lower c fs = inr r.
Proof.
  intros ((t & Ht & Hl) & [n Hn] & [en Hen] & [sa Hsa]).
  unfold crear_equipo. rewrite Ht, Hn, Hen, Hsa. cbn zeta.
  destruct Hl as [Hl|Hl]; rewrite Hl; cbn; eauto.
Qed.

Lemma crear_bucle_flujos l :
  ∀ (equipos equipos' : Equipos) (flujos flujos' : Flujos),
    crear_bucle lower l equipos flujos = inr (equipos', flujos') →
    ∀ k,
      flujos' !! k
      = match flujos !! k with
        | Some f => Some f
        | None =>
            if decide (k ∈ l ≫= ids_de) then Some (Flujo_nuevo k) else None
        end.
Proof.
  induction l as [|c l IH]; intros equipos equipos' flujos flujos' H k.
  - injection H as <- <-. destruct (flujos !! k); [done|].
    rewrite decide_False; [done|]. by intros ?%elem_of_nil.
  - cbn [crear_bucle] in H.
    destruct (crear_equipo lower c flujos) as [err|[[n e] fs1]] eqn:Ec; [done|].
    apply crear_equipo_inr in Ec
      as (t & en & sa & _ & _ & _ & Hen & Hsa & _ & ->).
    rewrite (IH _ _ _ _ H k), !crear_flujos_lookup.
    assert (ids_de c = en ++ sa) as Hids by (unfold ids_de; by rewrite Hen, Hsa).
    rewrite bind_cons, Hids.
    destruct (flujos !! k) as [f|]; [done|].
    destruct (decide (k ∈ en)) as [He|He].
    { rewrite decide_True; [done|]. rewrite !elem_of_app. auto. }
    destruct (decide (k ∈ sa)) as [Hs|Hs].
    { rewrite decide_True; [done|]. rewrite !elem_of_app. auto. }
    destruct (decide (k ∈ l ≫= ids_de)) as [Hl|Hl].
    + rewrite decide_True; [done|]. rewrite !elem_of_app. auto.
    + rewrite decide_False; [done|]. rewrite !elem_of_app. tauto.
Qed.

Lemma crear_bucle_equipos l :
  ∀ (equipos equipos' : Equipos) (flujos flujos' : Flujos),
    crear_bucle lower l equipos flujos = inr (equipos', flujos') →
    Forall (entrada_completa lower) l ∧
    (∀ n, is_Some (dict_get n equipos') ↔
          is_Some (dict_get n equipos) ∨ ∃ c, c ∈ l ∧ c_nombre c = Some n) ∧
    (∀ n e, dict_get n equipos' = Some e →
       dict_get n equipos = Some e ∨
       ∃ c t entrada salida,
         c ∈ l ∧ c_nombre c = Some n ∧ c_tipo c = Some t ∧
         c_entrada c = Some entrada ∧ c_salida c = Some salida ∧
         e = mkEquipo (clase_de lower t) n entrada salida
               (default [0; 0] (c_split_factor c))).
Proof.
  induction l as [|c l IH]; intros equipos equipos' flujos flujos' H.
  - injection H as <- <-. split_and!; [done| |by left].
    intros n. split; [by left|]. intros [?|(c & Hc & _)]; [done|].
    by apply elem_of_nil in Hc.
  - cbn [crear_bucle] in H.
    destruct (crear_equipo lower c flujos) as [err|[[m e1] fs1]] eqn:Ec; [done|].
    apply crear_equipo_inr in Ec
      as (t & en & sa & Ht & Hl & Hn & Hen & Hsa & -> & ->).
    destruct (IH _ _ _ _ H) as (Hall & Hdom & Hnodo). split_and!.
    + constructor; [|done]. unfold entrada_completa.
      rewrite Ht, Hn, Hen, Hsa. eauto 8.
    + intros n. rewrite Hdom, dict_get_set. split.
      * intros [Hs|(c' & Hc' & Hn')].
        -- destruct (decide (n = m)) as [->|Hne]; [|by left].
           right. exists c. split; [apply list_elem_of_here|done].
        -- right. exists c'. split; [by apply list_elem_of_further|done].
      * intros [Hs|(c' & [->|Hc']%elem_of_cons & Hn')].
        -- left. by case_decide.
        -- left. rewrite Hn in Hn'. injection Hn' as ->.
           by rewrite decide_True.
        -- right. eauto.
    + intros n e He. destruct (Hnodo n e He) as [Hd|Hd].
      * rewrite dict_get_set in Hd. destruct (decide (n = m)) as [->|Hne].
        -- injection Hd as <-. right. exists c, t, en, sa.
           split_and!; try done. apply list_elem_of_here.
        -- by left.
      * right. destruct Hd as (c' & t' & en' & sa' & Hc' & Hd).
        exists c', t', en', sa'. split; [by apply list_elem_of_further|done].
Qed.

(** X16.  The circuit [crear_circuito_desde_dict] returns is closed.  Its
    flow dictionary holds exactly the flow ids named by the entries, each as
    a fresh flow [Flujo(id=k)] with no mass, and every input and output of
    every node is one of them. *)
Theorem crear_circuito_cerrado
    (config : gmap string (list ConfigEquipo))
    (equipos : Equipos) (flujos : Flujos) :
  crear_circuito_desde_dict lower config = inr (equipos, flujos) →
  ∃ l,
    config !! "equipos" = Some l ∧
    (∀ k, flujos !! k
          = if decide (k ∈ l ≫= ids_de) then Some (Flujo_nuevo k) else None) ∧
    (∀ n e k, dict_get n equipos = Some e →
       k ∈ flujos_entrada e ++ flujos_salida e →
       flujos !! k = Some (Flujo_nuevo k)).
Proof.
  unfold crear_circuito_desde_dict.
  destruct (config !! "equipos") as [l|]; [|done]. intros H.
  exists l. split; [done|].
  assert (∀ k, flujos !! k
               = if decide (k ∈ l ≫= ids_de) then Some (Flujo_nuevo k)
                 else None) as Hfl.
  { intros k. by rewrite (crear_bucle_flujos _ _ _ _ _ H k), lookup_empty. }
  split; [done|].
  intros n e k He Hk. rewrite Hfl. rewrite decide_True; [done|].
  destruct (crear_bucle_equipos _ _ _ _ _ H) as (_ & _ & Hnodo).
  destruct (Hnodo n e He) as [?|(c & t & en & sa & Hc & _ & _ & Hen & Hsa & ->)];
    [done|].
  apply list_elem_of_bind. exists c. split; [|done].
  unfold ids_de. by rewrite Hen, Hsa.
Qed.

(** X17.  The nodes are as configured.  When the function returns, every
    entry had a name, inputs, outputs and a type that is ['celda'] or
    ['suma'] once lower-cased; the node names are exactly the names of the
    entries; and each node is the one some entry of its name describes: a
    [Celda] or a [Suma] by its type, with the entry's inputs and outputs in
    order, and with the split factor [[0, 0]] when the entry gives none. *)
Theorem crear_circuito_nodos
    (config : gmap string (list ConfigEquipo))
    (equipos : Equipos) (flujos : Flujos) :
  crear_circuito_desde_dict lower config = inr (equipos, flujos) →
  ∃ l,
    config !! "equipos" = Some l ∧
    Forall (entrada_completa lower) l ∧
    (∀ n, is_Some (dict_get n equipos) ↔ ∃ c, c ∈ l ∧ c_nombre c = Some n) ∧
    (∀ n e, dict_get n equipos = Some e →
       ∃ c t entrada salida,
         c ∈ l ∧ c_nombre c = Some n ∧ c_tipo c = Some t ∧
         c_entrada c = Some entrada ∧ c_salida c = Some salida ∧
         e = mkEquipo (clase_de lower t) n entrada salida
               (default [0; 0] (c_split_factor c))).
Proof.
  unfold crear_circuito_desde_dict.
  destruct (config !! "equipos") as [l|]; [|done]. intros H.
  exists l. split; [done|].
  destruct (crear_bucle_equipos _ _ _ _ _ H) as (Hall & Hdom & Hnodo).
  split_and!; [done| |].
  - intros n. rewrite Hdom. split; [|by right].
    intros [[? ?]|?]; done.
  - intros n e He. by destruct (Hnodo n e He) as [?|?].
Qed.

(** X18.  An unknown type stops the construction.  If the entries before
    some entry are all acceptable and that entry's type, lower-cased, is
    neither ['celda'] nor ['suma'], the function raises the [ValueError]
    naming the lower-cased type, whatever else the entry and the later
    entries hold. *)
Theorem crear_circuito_tipo_desconocido
    (config : gmap string (list ConfigEquipo))
    (antes despues : list ConfigEquipo) (c : ConfigEquipo) (t : string) :
  config !! "equipos" = Some (antes ++ c :: despues) →
  Forall (entrada_completa lower) antes →
  c_tipo c = Some t →
  lower t ≠ "celda" →
  lower t ≠ "suma" →
  crear_circuito_desde_dict lower config
  = inl (ErrorValor ("Tipo desconocido: " +:+ lower t)).
Proof.
  intros Hc Hall Ht H1 H2. unfold crear_circuito_desde_dict. rewrite Hc. clear Hc.
  generalize (@nil (string * Equipo)) (∅ : Flujos).
  induction Hall as [|c' antes Hc' Hall IH]; intros equipos flujos; cbn.
  - unfold crear_equipo. rewrite Ht. cbn zeta.
    by rewrite !decide_False by done.
  - destruct (crear_equipo_completa c' flujos Hc') as [[[n e] fs] ->].
    apply IH.
Qed.

End CrearCircuitoProps.

Lemma crear_circuito_cerrado_witness :
  ∃ equipos flujos l,
    crear_circuito_desde_dict lower_ascii config_dict_ej
      = inr (equipos, flujos) ∧
    config_dict_ej !! "equipos" = Some l ∧
    (∀ k, flujos !! k
          = if decide (k ∈ l ≫= ids_de) then Some (Flujo_nuevo k) else None) ∧
    (∀ n e k, dict_get n equipos = Some e →
       k ∈ flujos_entrada e ++ flujos_salida e →
       flujos !! k = Some (Flujo_nuevo k)).
Proof.
  destruct (crear_circuito_desde_dict lower_ascii config_dict_ej)
    as [err|[equipos flujos]] eqn:E; vm_compute in E; [discriminate|].
  destruct (crear_circuito_cerrado lower_ascii config_dict_ej equipos flujos)
    as (l & Hl & H); [refine (eq_trans _ E); vm_compute; reflexivity|].
  exists equipos, flujos, l. split; [reflexivity|]. split; [exact Hl|exact H].
Defined.

Lemma crear_circuito_nodos_witness :
  ∃ equipos flujos l,
    crear_circuito_desde_dict lower_ascii config_dict_ej
      = inr (equipos, flujos) ∧
    config_dict_ej !! "equipos" = Some l ∧
    Forall (entrada_completa lower_ascii) l ∧
    (∀ n, is_Some (dict_get n equipos) ↔ ∃ c, c ∈ l ∧ c_nombre c = Some n) ∧
    (∀ n e, dict_get n equipos = Some e →
       ∃ c t entrada salida,
         c ∈ l ∧ c_nombre c = Some n ∧ c_tipo c = Some t ∧
         c_entrada c = Some entrada ∧ c_salida c = Some salida ∧
         e = mkEquipo (clase_de lower_ascii t) n entrada salida
               (default [0; 0] (c_split_factor c))).
Proof.
  destruct (crear_circuito_desde_dict lower_ascii config_dict_ej)
    as [err|[equipos flujos]] eqn:E; vm_compute in E; [discriminate|].
  destruct (crear_circuito_nodos lower_ascii config_dict_ej equipos flujos)
    as (l & Hl & H); [refine (eq_trans _ E); vm_compute; reflexivity|].
  exists equipos, flujos, l. split; [reflexivity|]. split; [exact Hl|exact H].
Defined.

Lemma crear_circuito_tipo_desconocido_witness :
  crear_circuito_desde_dict lower_ascii config_dict_mala
  = inl (ErrorValor "Tipo desconocido: molino").
Proof.
  apply (crear_circuito_tipo_desconocido lower_ascii config_dict_mala
           [mkConfigEquipo (Some "Celda") (Some "Celda") (Some [1%Z])
              (Some [2%Z; 3%Z]) None]
           [] (mkConfigEquipo (Some "Molino") (Some "Molino") (Some [3%Z])
                 (Some [4%Z]) None) "Molino").
  - vm_compute. reflexivity.
  - constructor; [|constructor]. unfold entrada_completa. cbn.
    split; [exists "Celda"; split; [reflexivity|left; reflexivity]|].
    split_and!; eauto.
  - reflexivity.
  - vm_compute. discriminate.
  - vm_compute. discriminate.
Defined.

(** ** simulador.py: the scenarios of a sheet *)

Lemma establecer_alimentacion_total (self : Simulador) (id_flujo : Z)
    (m l : Qc) :
  ∃ self', establecer_alimentacion id_flujo m l self = Ok tt self'.
Proof.
  unfold establecer_alimentacion.
  destruct (decide (is_Some (flujos self !! id_flujo))) as [[f Hf]|Hn];
    [|cbn; eauto].
  unfold en_flujos.
  rewrite bind_eq, obtener_eq by eauto.
  rewrite bind_eq. unfold asignar at 1.
  rewrite bind_eq, obtener_eq by (rewrite lookup_alter_eq, Hf; eauto).
  rewrite bind_eq. unfold asignar at 1.
  rewrite bind_eq, obtener_eq by (rewrite !lookup_alter_eq, Hf; eauto).
  rewrite actualizar_contenido_fino_eq, !lookup_alter_eq, Hf. cbn. eauto.
Qed.

Lemma alimentar_escenario_incompleta alimentacion id (valores : gmap string Qc)
    (self : Simulador) :
  (id, valores) ∈ alimentacion →
  valores !! "masa" = None ∨ valores !! "ley" = None →
  ∃ c self', (c = "masa" ∨ c = "ley") ∧
    alimentar_escenario alimentacion self = Raise (KeyError (ClaveStr c)) self'.
Proof.
  intros Hin Hv. revert self.
  induction alimentacion as [|[id' v'] l IH]; intros self;
    [by apply elem_of_nil in Hin|].
  unfold alimentar_escenario. cbn [para_cada fst snd].
  rewrite bind_eq, bind_eq. unfold buscar at 1.
  destruct (v' !! "masa") as [m|] eqn:Em; [|cbn; eauto 6]. cbn.
  rewrite bind_eq. unfold buscar at 1.
  destruct (v' !! "ley") as [le|] eqn:El; [|cbn; eauto 6]. cbn.
  destruct (establecer_alimentacion_total self id' m le) as [self1 ->].
  apply elem_of_cons in Hin as [[= <- <-]|Hin].
  - destruct Hv; congruence.
  - apply (IH Hin self1).
Qed.

Section EscenariosProps.
Context (orden : gset Z → list Z).

Lemma escenarios_bucle_inr alimentacion flujos_relave simulaciones :
  ∀ resultados filas',
    escenarios_bucle orden alimentacion flujos_relave simulaciones resultados
      = inr filas' →
    ∃ nuevas,
      filas' = resultados ++ nuevas ∧
      Forall2 (λ sim fila,
                 escenario orden alimentacion flujos_relave sim = inr fila)
              simulaciones nuevas.
Proof.
  induction simulaciones as [|sim resto IH]; intros resultados filas' H.
  - injection H as <-. exists []. by rewrite app_nil_r.
  - cbn [escenarios_bucle] in H.
    destruct (escenario orden alimentacion flujos_relave sim) as [e|fila] eqn:E;
      [done|].
    destruct (IH _ _ H) as (nuevas & -> & Hn).
    exists (fila :: nuevas). split; [by rewrite <- app_assoc|].
    by constructor.
Qed.

Lemma escenarios_bucle_inl alimentacion flujos_relave antes sim despues e :
  Forall (λ s, ∃ fila, escenario orden alimentacion flujos_relave s = inr fila)
         antes →
  escenario orden alimentacion flujos_relave sim = inl e →
  ∀ resultados,
    escenarios_bucle orden alimentacion flujos_relave
      (antes ++ sim :: despues) resultados = inl e.
Proof.
  intros Hall He. induction Hall as [|s antes [fila Hs] Hall IH];
    intros resultados; cbn.
  - by rewrite He.
  - rewrite Hs. apply IH.
Qed.

(** X19.  [simular_escenarios] gives one row per scenario or none at all.
    When it returns a table, the table has exactly one row for each loaded
    scenario, in the order of the scenarios; the row carries the scenario's
    id and the four metrics of a simulator built from that scenario alone,
    fed and simulated.  When the first scenario to fail raises an
    exception, that exception is the outcome of the whole call: unlike a
    Monte Carlo trial, a failing scenario is not skipped. *)
Theorem escenarios_una_fila_por_escenario
    (simulaciones : list (Z * (Equipos * Flujos)))
    (alimentacion : list (Z * gmap string Qc))
    (flujos_relave : option (gset Z)) :
  (∀ df,
     simular_escenarios orden simulaciones alimentacion flujos_relave = inr df →
     length (filas df) = length simulaciones ∧
     Forall2 (λ sim fila,
                escenario orden alimentacion flujos_relave sim = inr fila ∧
                fila !! "simulacion" = Some (Qc_de_Z sim.1))
             simulaciones (filas df)) ∧
  (∀ antes sim despues e,
     simulaciones = antes ++ sim :: despues →
     Forall (λ s, ∃ fila,
               escenario orden alimentacion flujos_relave s = inr fila) antes →
     escenario orden alimentacion flujos_relave sim = inl e →
     simular_escenarios orden simulaciones alimentacion flujos_relave = inl e).
Proof.
  split.
  - intros df H. unfold simular_escenarios in H.
    destruct (escenarios_bucle orden alimentacion flujos_relave simulaciones [])
      as [e|rs] eqn:E; [done|].
    injection H as <-. cbn [filas DataFrame_de].
    apply escenarios_bucle_inr in E as (nuevas & -> & Hn). cbn [app].
    split; [symmetry; by eapply Forall2_length|].
    eapply Forall2_impl; [exact Hn|].
    intros sim fila Hs. split; [done|].
    unfold escenario in Hs.
    destruct ((alimentar_escenario alimentacion >> simular orden) _)
      as [r s'|e s']; [|done].
    injection Hs as <-. unfold fila_escenario.
    rewrite !lookup_insert_ne by done. by rewrite lookup_insert_eq.
  - intros antes sim despues e -> Hall He. unfold simular_escenarios.
    by rewrite (escenarios_bucle_inl _ _ _ _ _ _ Hall He).
Qed.

(** X20.  The feed of the scenarios is read before it is matched against
    the circuit.  If the feed has an entry without ['masa'] or without
    ['ley'], then whenever there is a scenario at all the call ends with the
    [KeyError] of that lookup, even if the entry's flow id is not a flow of
    any scenario. *)
Theorem escenarios_alimentacion_incompleta
    (simulaciones : list (Z * (Equipos * Flujos)))
    (alimentacion : list (Z * gmap string Qc))
    (flujos_relave : option (gset Z)) (id : Z) (valores : gmap string Qc) :
  simulaciones ≠ [] →
  (id, valores) ∈ alimentacion →
  valores !! "masa" = None ∨ valores !! "ley" = None →
  ∃ c, (c = "masa" ∨ c = "ley") ∧
       simular_escenarios orden simulaciones alimentacion flujos_relave
       = inl (KeyError (ClaveStr c)).
Proof.
  intros Hne Hin Hv. destruct simulaciones as [|sim resto]; [done|].
  destruct (alimentar_escenario_incompleta alimentacion id valores
              (Simulador_init sim.2.1 sim.2.2 flujos_relave None) Hin Hv)
    as (c & self' & Hc & Ha).
  exists c. split; [done|].
  unfold simular_escenarios. cbn [escenarios_bucle].
  unfold escenario. rewrite bind_eq, Ha. done.
Qed.

End EscenariosProps.

(** X21.  The feed of a Monte Carlo trial is matched against the circuit
    first: entries whose flow id is not a flow of the circuit are skipped
    without reading their values, so the feed loop returns normally and
    leaves every flow as it was. *)
Theorem alimentar_ajena (alimentacion : list (Z * gmap string Qc))
    (fs : Flujos) :
  (∀ id valores, (id, valores) ∈ alimentacion → fs !! id = None) →
  alimentar alimentacion fs = Ok tt fs.
Proof.
  induction alimentacion as [|[id v] l IH]; intros H; [done|].
  rewrite alimentar_cons.
  assert (alimentar [(id, v)] fs = Ok tt fs) as ->.
  { unfold alimentar. cbn [para_cada fst snd]. rewrite bind_eq.
    rewrite decide_False; [done|].
    rewrite (H id v) by apply list_elem_of_here. by intros [? ?]. }
  apply IH. intros id' v' Hin. apply (H id' v'). by apply list_elem_of_further.
Qed.

Lemma escenarios_una_fila_por_escenario_witness :
  ∃ df,
    simular_escenarios elements simulaciones_ej alimentacion_ej None = inr df ∧
    length (filas df) = length simulaciones_ej ∧
    Forall2 (λ sim fila,
               escenario elements alimentacion_ej None sim = inr fila ∧
               fila !! "simulacion" = Some (Qc_de_Z sim.1))
            simulaciones_ej (filas df).
Proof.
  destruct (simular_escenarios elements simulaciones_ej alimentacion_ej None)
    as [e|df] eqn:E; vm_compute in E; [discriminate|].
  exists df. split; [reflexivity|].
  destruct (escenarios_una_fila_por_escenario elements simulaciones_ej
              alimentacion_ej None) as [H _].
  apply (H df). refine (eq_trans _ E). vm_compute. reflexivity.
Defined.

Lemma escenarios_alimentacion_incompleta_witness :
  ∃ c, (c = "masa" ∨ c = "ley") ∧
       simular_escenarios elements simulaciones_ej alimentacion_ajena None
       = inl (KeyError (ClaveStr c)).
Proof.
  apply (escenarios_alimentacion_incompleta elements simulaciones_ej
           alimentacion_ajena None 9%Z (<["masa" := cien]> ∅)).
  - discriminate.
  - apply list_elem_of_singleton. reflexivity.
  - right. vm_compute. reflexivity.
Defined.

Lemma alimentar_ajena_witness :
  alimentar alimentacion_ajena (flujos sim_ej) = Ok tt (flujos sim_ej).
Proof.
  apply (alimentar_ajena alimentacion_ajena (flujos sim_ej)).
  intros id valores Hin. apply list_elem_of_singleton in Hin.
  injection Hin as -> ->. vm_compute. reflexivity.
Defined.

(** ** simulador.py: a node of the base class *)

Section EquipoBase.
Context (orden : gset Z → list Z).

Lemma pasada_con_base (l : Equipos) k e :
  (k, e) ∈ l → cls e = ClaseEquipo →
  ∀ s : Simulador,
    ∃ ex s',
      para_cada l (λ kv, registrar kv.1 >> en_flujos (calcular kv.2)) s
      = Raise ex s'.
Proof.
  intros Hin Hc. induction l as [|kv l IH]; intros s;
    [by apply elem_of_nil in Hin|].
  cbn [para_cada]. rewrite bind_eq.
  destruct ((registrar kv.1 >> en_flujos (calcular kv.2)) s)
    as [[] s1|ex s1] eqn:E; [|eauto].
  apply elem_of_cons in Hin as [<-|Hin]; [|by apply IH].
  exfalso. revert E. rewrite bind_eq. unfold registrar at 1, en_flujos, calcular.
  cbn [snd]. rewrite Hc. done.
Qed.

(** X22.  A circuit with a node of the base class [Equipo] cannot be
    simulated: with at least one pass, [simular] raises, from that node's
    [NotImplementedError] or from a node before it, and returns no
    result. *)
Theorem equipo_base_no_simula (self : Simulador) (k : string) (e : Equipo) :
  (1 ≤ iteraciones_convergencia self)%Z →
  (k, e) ∈ equipos self →
  cls e = ClaseEquipo →
  ∃ ex s', simular orden self = Raise ex s'.
Proof.
  intros Hn Hin Hc. unfold simular. rewrite bind_eq.
  unfold rango. destruct (Z.to_nat (iteraciones_convergencia self)) as [|m] eqn:Em;
    [lia|].
  cbn [seq para_cada]. rewrite bind_eq. unfold ejecutar_iteracion at 1.
  destruct (pasada_con_base (equipos self) k e Hin Hc self) as (ex & s' & ->).
  eauto.
Qed.

End EquipoBase.

Lemma equipo_base_no_simula_witness :
  ∃ ex s', simular elements sim_con_base = Raise ex s'.
Proof.
  apply (equipo_base_no_simula elements sim_con_base "Caja"
           (mkEquipo ClaseEquipo "Caja" [2%Z] [5%Z] [])).
  - vm_compute. discriminate.
  - apply list_elem_of_further, list_elem_of_here.
  - reflexivity.
Defined.
